(** * Twins scenario generator (package [twins])

    A shallow embedding of the scenario generator of the HotStuff twins
    test harness, and the properties of its enumerators, of the roster
    construction and of the scenario iterator.

    Conventions of the embedding:
    - Go's [uint8], [uint32] and [int] values are integers in [Z]; every
      arithmetic operation of the source that can leave the type's range is
      followed by the wrap-around of that type ([wrap8], [wrap32],
      [wrapInt]).
    - A slice is a [list]; reading or writing past its length is a run-time
      panic in Go, so every indexed access goes through [result].
    - A Go map used as a set is a [gset]; the nil map is [None].
    - Recursion whose termination depends on the arguments takes a [fuel]
      counter; running out of it is the outcome [OutOfFuel], distinct from a
      panic. *)

From Stdlib Require Import ZArith Lia List.
From stdpp Require Import base numbers option list sets gmap countable.

Local Open Scope Z_scope.

(** ** Outcomes of a Go computation *)

Inductive result (A : Type) : Type :=
  | Ret (a : A)
  | Panic
  | OutOfFuel.
Arguments Ret {A} a.
Arguments Panic {A}.
Arguments OutOfFuel {A}.

#[global] Instance result_ret : MRet result := fun A a => Ret a.

#[global] Instance result_bind : MBind result := fun A B f m =>
  match m with
  | Ret a => f a
  | Panic => Panic
  | OutOfFuel => OutOfFuel
  end.

(** [s[i]] for a slice [s] and an index [i] of any Go integer type. *)
Definition index {A : Type} (s : list A) (i : Z) : result A :=
  if i <? 0 then Panic
  else match s !! Z.to_nat i with
       | Some a => Ret a
       | None => Panic
       end.

(** [s[i] = v]. *)
Definition store {A : Type} (s : list A) (i : Z) (v : A) : result (list A) :=
  if i <? 0 then Panic
  else if (Z.to_nat i <? length s)%nat then Ret (<[Z.to_nat i := v]> s)
  else Panic.

(** ** Machine integers *)

Definition wrap8 (x : Z) : Z := x mod 256.
Definition wrap32 (x : Z) : Z := x mod 4294967296.
(** Go's [int] on the 64-bit targets the module builds for. *)
Definition wrapInt (x : Z) : Z :=
  (x + 9223372036854775808) mod 18446744073709551616 - 9223372036854775808.

(** ** Data model *)

(** Modelled from the spec: the declaration of [NodeID] is in a file of the
    package that is not among the sources; section 3 of the specification
    gives it as the pair (ReplicaId, NetworkId), and the generator writes
    its fields [ReplicaID] and [NetworkID]. *)
Record NodeID : Type := mkNodeID { ReplicaID : Z; NetworkID : Z }.

#[global] Instance NodeID_eq_dec : EqDecision NodeID.
Proof. solve_decision. Defined.

#[global] Instance NodeID_countable : Countable NodeID.
Proof.
  refine (inj_countable' (fun n => (ReplicaID n, NetworkID n))
                         (fun p => mkNodeID (fst p) (snd p)) _).
  intros []; reflexivity.
Defined.

(** Modelled from the spec: the declaration of [NodeSet] is missing too; it
    is a set of NodeId, which the generator creates with [make], measures
    with [len] and fills with [Add], hence a Go map.  [None] is the nil
    map, on which [len] is 0 and an insertion panics. *)
Definition NodeSet : Type := option (gset NodeID).

Definition NodeSet_len (s : NodeSet) : nat :=
  match s with
  | Some m => size m
  | None => O
  end.

Definition NodeSet_members (s : NodeSet) : gset NodeID :=
  match s with
  | Some m => m
  | None => ∅
  end.

(** Modelled from the spec: [s.Add(v)] places [v] into the set [s]
    (section 4.5), that is [s[v] = struct{}{}]. *)
Definition NodeSet_Add (s : NodeSet) (v : NodeID) : result NodeSet :=
  match s with
  | Some m => Ret (Some ({[ v ]} ∪ m))
  | None => Panic
  end.

(** Modelled from the spec: the declarations of [View] and [Scenario] are
    missing; section 3 gives them as (leader, partitions) and
    (nodes, views), and the generator writes the fields [Leader],
    [PartitionScenario], [Nodes] and [Views]. *)
Record View : Type := mkView {
  Leader : Z;
  PartitionScenario : list NodeSet
}.

Record Scenario : Type := mkScenario {
  Nodes : list NodeID;
  Views : list View
}.

(** The zero values Go gives to a fresh [View] and to the named result [s]. *)
Definition zeroView : View := mkView 0 [].
Definition zeroScenario : Scenario := mkScenario [] [].

Record Generator : Type := mkGenerator {
  allNodes : list NodeID;
  rounds : Z;
  partitions : Z;
  indices : list Z;
  offsets : list Z;
  leadersPartitions : list View
}.

(** ** genPartitionSizes *)

(** [func min(a, b uint8) uint8]. *)
Definition min (a b : Z) : Z := if a <? b then a else b.

(** [genPartitionSizesRecursive] and its [for] loop over [m].  [s] is the
    callee's private copy of [state]; [sizes] is the accumulator behind the
    pointer.  [prev] is [s[i-1]], read only when [i > 0] as in the source
    (the [||] and the [if i > 0] guard it).  The loop is entered with
    [s[i]] already overwritten. *)
Fixpoint genPartitionSizesRecursive (fuel : nat) (i n minSize : Z)
    (state : list Z) (sizes : list (list Z)) {struct fuel}
    : result (list (list Z)) :=
  match fuel with
  | O => OutOfFuel
  | S fuel' =>
    s ← store state i n;
    prev ← (if i =? 0 then Ret 0 else index s (i - 1));
    let sizes1 := if (i =? 0) || (n <=? prev) then sizes ++ [s] else sizes in
    let m := wrap8 (n - 1) in
    let m := if 0 <? i then min m prev else m in
    if wrap8 (i + 1) <? Z.of_nat (length s)
    then genPartitionSizesLoop fuel' i n minSize m s sizes1
    else Ret sizes1
  end
with genPartitionSizesLoop (fuel : nat) (i n minSize m : Z)
    (s : list Z) (sizes : list (list Z)) {struct fuel}
    : result (list (list Z)) :=
  match fuel with
  | O => OutOfFuel
  | S fuel' =>
    if ((i =? 0) && (minSize <=? m)) || (negb (i =? 0) && (0 <? m))
    then
      s' ← store s i m;
      sizes' ← genPartitionSizesRecursive fuel' (wrap8 (i + 1))
                  (wrap8 (n - m)) minSize s' sizes;
      genPartitionSizesLoop fuel' i n minSize (wrap8 (m - 1)) s' sizes'
    else Ret sizes
  end.

Definition genPartitionSizes (fuel : nat) (n k minSize : Z)
    : result (list (list Z)) :=
  genPartitionSizesRecursive fuel 0 n minSize (replicate (Z.to_nat k) 0) [].

(** ** Twin assignments *)

(** [twinAssignment] is [[2]uint8]. *)
Definition twinAssignment : Type := (Z * Z)%type.

(** The two nested counting loops; [j < n <= 255] keeps [j++] in range. *)
Definition generateTwinPartitionPairs (n : Z) : list twinAssignment :=
  flat_map (fun i : nat =>
              map (fun j : nat => (Z.of_nat i, Z.of_nat j))
                  (seq i (Z.to_nat n - i)%nat))
           (seq 0%nat (Z.to_nat n)).

(** One placement [ps[x]--] guarded by the range and capacity test. *)
Definition placeTwin (len : nat) (ps : list Z) (x : Z) : option (list Z) :=
  if Z.of_nat len <=? x then None
  else match ps !! Z.to_nat x with
       | None => None
       | Some c => if c =? 0 then None
                   else Some (<[Z.to_nat x := wrap8 (c - 1)]> ps)
       end.

Fixpoint isValidLoop (len : nat) (twinAssignments : list twinAssignment)
    (ps : list Z) : bool :=
  match twinAssignments with
  | [] => true
  | (first, second) :: rest =>
    match placeTwin len ps first with
    | None => false
    | Some ps1 =>
      match placeTwin len ps1 second with
      | None => false
      | Some ps2 => isValidLoop len rest ps2
      end
    end
  end.

Definition isValidTwinAssignment (twinAssignments : list twinAssignment)
    (partitionSizes : list Z) : bool :=
  isValidLoop (length partitionSizes) twinAssignments partitionSizes.

(** The variadic [input] is the list of its arguments; the base case returns
    the one-element list holding the nil tuple. *)
Fixpoint cartesianProduct (input : list (list twinAssignment))
    : list (list twinAssignment) :=
  match input with
  | [] => [ [] ]
  | first :: rest =>
    let r := cartesianProduct rest in
    flat_map (fun v => map (fun p => v :: p) r) first
  end.

(** ** genPartitionScenarios *)

(** [partitions := make([]NodeSet, k)] followed by the loop that allocates a
    map for every slot of positive size. *)
Fixpoint allocPartitions (sz : list Z) (kk : Z) (parts : list NodeSet)
    : result (list NodeSet) :=
  match sz with
  | [] => Ret parts
  | c :: sz' =>
    parts' ← (if 0 <? c then store parts kk (Some ∅) else Ret parts);
    allocPartitions sz' (kk + 1) parts'
  end.

(** [partitions[t].Add(twins[twin]); twin++]: the cursor [twin] is kept as
    the suffix of [twins] that starts at it. *)
Definition addTwin (parts : list NodeSet) (t : Z) (twins : list NodeID)
    : result (list NodeSet * list NodeID) :=
  p ← index parts t;
  match twins with
  | [] => Panic
  | x :: twins' =>
    p' ← NodeSet_Add p x;
    parts' ← store parts t p';
    Ret (parts', twins')
  end.

Fixpoint placeTwins (ta : list twinAssignment) (parts : list NodeSet)
    (twins : list NodeID) : result (list NodeSet) :=
  match ta with
  | [] => Ret parts
  | (a, b) :: ta' =>
    '(parts1, twins1) ← addTwin parts a twins;
    '(parts2, twins2) ← addTwin parts1 b twins1;
    placeTwins ta' parts2 twins2
  end.

(** The inner loop [for sizes[i][k]-uint8(len(partitions[k])) > 0]; the
    cursor [node] is the suffix of [nodes] that starts at it, so the loop
    runs at most once per remaining node. *)
Fixpoint fillPartition (c : Z) (p : NodeSet) (nodes : list NodeID)
    : result (NodeSet * list NodeID) :=
  match nodes with
  | [] =>
    if 0 <? wrap8 (c - wrap8 (Z.of_nat (NodeSet_len p))) then Panic
    else Ret (p, [])
  | x :: nodes' =>
    if 0 <? wrap8 (c - wrap8 (Z.of_nat (NodeSet_len p)))
    then p' ← NodeSet_Add p x; fillPartition c p' nodes'
    else Ret (p, nodes)
  end.

(** The outer loop [for k := range partitions]; [todo] holds the slots not
    visited yet and [kk] the index of its head; the slots come back in their
    order. *)
Fixpoint fillPartitions (sz : list Z) (kk : Z) (todo : list NodeSet)
    (nodes : list NodeID) : result (list NodeSet) :=
  match todo with
  | [] => Ret []
  | p :: todo' =>
    c ← index sz kk;
    '(p', nodes') ← fillPartition c p nodes;
    rest ← fillPartitions sz (kk + 1) todo' nodes';
    Ret (p' :: rest)
  end.

(** The body of the two nested loops for one size vector and one twin
    assignment that passed the filter. *)
Definition buildPartitions (k : Z) (sz : list Z) (ta : list twinAssignment)
    (twins nodes : list NodeID) : result (list NodeSet) :=
  parts0 ← allocPartitions sz 0 (replicate (Z.to_nat k) None);
  parts1 ← placeTwins ta parts0 twins;
  fillPartitions sz 0 parts1 nodes.

Fixpoint scenariosForSize (k : Z) (sz : list Z)
    (twinAssignments : list (list twinAssignment))
    (twins nodes : list NodeID) (acc : list (list NodeSet))
    : result (list (list NodeSet)) :=
  match twinAssignments with
  | [] => Ret acc
  | ta :: rest =>
    if isValidTwinAssignment ta sz
    then parts ← buildPartitions k sz ta twins nodes;
         scenariosForSize k sz rest twins nodes (acc ++ [parts])
    else scenariosForSize k sz rest twins nodes acc
  end.

Fixpoint scenariosForSizes (k : Z) (sizes : list (list Z))
    (twinAssignments : list (list twinAssignment))
    (twins nodes : list NodeID) (acc : list (list NodeSet))
    : result (list (list NodeSet)) :=
  match sizes with
  | [] => Ret acc
  | sz :: rest =>
    acc' ← scenariosForSize k sz twinAssignments twins nodes acc;
    scenariosForSizes k rest twinAssignments twins nodes acc'
  end.

(** The twin assignments: nil unless there is at least one pair of twins. *)
Definition twinAssignmentsOf (twins : list NodeID) (k : Z)
    : list (list twinAssignment) :=
  let t := (length twins / 2)%nat in
  if (0 <? t)%nat
  then cartesianProduct (replicate t (generateTwinPartitionPairs k))
  else [].

(** The size vectors in the outer loop, the twin assignments in the inner
    one; a scenario is appended for every pair that passes the filter. *)
Definition genPartitionScenarios (fuel : nat) (twins nodes : list NodeID)
    (k min : Z) : result (list (list NodeSet)) :=
  let n := wrap8 (Z.of_nat (length twins + length nodes)) in
  let twinAssignments := twinAssignmentsOf twins k in
  sizes ← genPartitionSizes fuel n k min;
  scenariosForSizes k sizes twinAssignments twins nodes [].

(** ** NewGenerator *)

(** The state of the loop that assigns IDs to nodes. *)
Record idState : Type := mkIdState {
  st_replicaID : Z;
  st_networkID : Z;
  st_remainingTwins : Z;
  st_twins : list NodeID;
  st_nodes : list NodeID;
  st_replicaIDs : list Z
}.

(** One turn of [for i := 0; i < int(replicas); i++]: a twin pair while
    [remainingTwins > 0], a single node afterwards. *)
Definition assignStep (st : idState) : idState :=
  let replicaID := st_replicaID st in
  let networkID := st_networkID st in
  let replicaIDs := st_replicaIDs st ++ [replicaID] in
  if 0 <? st_remainingTwins st
  then
    let networkID1 := wrap32 (networkID + 1) in
    mkIdState (wrap32 (replicaID + 1)) (wrap32 (networkID1 + 1))
              (wrap8 (st_remainingTwins st - 1))
              (st_twins st ++ [mkNodeID replicaID networkID;
                               mkNodeID replicaID networkID1])
              (st_nodes st) replicaIDs
  else
    mkIdState (wrap32 (replicaID + 1)) (wrap32 (networkID + 1))
              (st_remainingTwins st)
              (st_twins st)
              (st_nodes st ++ [mkNodeID replicaID networkID]) replicaIDs.

Fixpoint assignLoop (count : nat) (st : idState) : idState :=
  match count with
  | O => st
  | S count' => assignLoop count' (assignStep st)
  end.

Definition assignIDs (replicas numTwins : Z) : idState :=
  assignLoop (Z.to_nat replicas) (mkIdState 1 1 numTwins [] [] []).

(** Every replica as leader of every partition scenario, the replica varying
    fastest. *)
Definition leaderCross (partitionScenarios : list (list NodeSet))
    (replicaIDs : list Z) : list View :=
  flat_map (fun p => map (fun id => mkView id p) replicaIDs)
           partitionScenarios.

(** The arguments are [uint8] values; [fuel] is handed to the size
    enumeration. *)
Definition NewGenerator (fuel : nat) (replicas numTwins partitions rounds : Z)
    : result Generator :=
  let st := assignIDs replicas numTwins in
  partitionScenarios ←
    genPartitionScenarios fuel (st_twins st) (st_nodes st) partitions 1;
  Ret (mkGenerator (st_twins st ++ st_nodes st) rounds partitions
         (replicate (Z.to_nat rounds) 0) (replicate (Z.to_nat rounds) 0)
         (leaderCross partitionScenarios (st_replicaIDs st))).

(** ** Shuffle *)

(** The pseudo-random source of Go's [math/rand], which is not part of the
    repository: a state created from a seed, the bounded draw that
    [Rand.Shuffle] makes and the bounded draw of [Rand.Intn], each returning
    a value in [[0, n)] for [0 < n] together with the next state. *)
Record RandSource : Type := mkRandSource {
  rng : Type;
  NewSource : Z -> rng;
  shuffleDraw : rng -> Z -> Z * rng;
  Intn : rng -> Z -> Z * rng;
  shuffleDraw_range : forall r n, 0 < n -> 0 <= fst (shuffleDraw r n) < n;
  Intn_range : forall r n, 0 < n -> 0 <= fst (Intn r n) < n
}.

(** [l[i], l[j] = l[j], l[i]]. *)
Definition swap {A : Type} (l : list A) (i j : Z) : result (list A) :=
  a ← index l i;
  b ← index l j;
  l1 ← store l i b;
  store l1 j a.

(** [Rand.Shuffle(n, swap)]: Fisher-Yates from the last position down to
    position 1; [count] is the loop variable [i]. *)
Fixpoint shuffleLoop (R : RandSource) (count : nat) (r : rng R)
    (l : list View) : result (list View * rng R) :=
  match count with
  | O => Ret (l, r)
  | S count' =>
    let i := Z.of_nat count in
    let '(j, r') := shuffleDraw R r (i + 1) in
    l' ← swap l i j;
    shuffleLoop R count' r' l'
  end.

(** [for i := range g.offsets { g.offsets[i] = r.Intn(n) }]; [Intn] panics
    when [n <= 0]. *)
Fixpoint drawOffsets (R : RandSource) (count : nat) (r : rng R) (n : Z)
    : result (list Z) :=
  match count with
  | O => Ret []
  | S count' =>
    if n <=? 0 then Panic
    else
      let '(v, r') := Intn R r n in
      rest ← drawOffsets R count' r' n;
      Ret (v :: rest)
  end.

Definition Shuffle (R : RandSource) (seed : Z) (g : Generator)
    : result Generator :=
  let r := NewSource R seed in
  let n := Z.of_nat (length (leadersPartitions g)) in
  '(lp, r1) ← shuffleLoop R (Z.to_nat (n - 1)) r (leadersPartitions g);
  offs ← drawOffsets R (length (offsets g)) r1 (Z.of_nat (length lp));
  Ret (mkGenerator (allNodes g) (rounds g) (partitions g) (indices g)
                   offs lp).

(** ** NextScenario *)

(** The first loop: [for i, ii := range g.indices]. *)
Fixpoint selectViews (lp : list View) (offs : list Z) (i : Z)
    (idx : list Z) (p : list View) : result (list View) :=
  match idx with
  | [] => Ret p
  | ii :: idx' =>
    off ← index offs i;
    let ix := wrapInt (ii + off) in
    let ix := if Z.of_nat (length lp) <=? ix
              then wrapInt (ix - Z.of_nat (length lp)) else ix in
    v ← index lp ix;
    p' ← store p i v;
    selectViews lp offs (i + 1) idx' p'
  end.

(** The odometer loop [for i := int(g.rounds) - 1; i >= 0; i--]; [count] is
    [i + 1].  The boolean is [false] when the carry left position 0. *)
Fixpoint advance (len : Z) (count : nat) (idx : list Z)
    : result (list Z * bool) :=
  match count with
  | O => Ret (idx, true)
  | S i =>
    v ← index idx (Z.of_nat i);
    idx1 ← store idx (Z.of_nat i) (wrapInt (v + 1));
    if wrapInt (v + 1) <? len then Ret (idx1, true)
    else
      idx2 ← store idx1 (Z.of_nat i) 0;
      if Z.of_nat i <=? 0 then Ret ([], false)
      else advance len i idx2
  end.

Definition setIndices (g : Generator) (idx : list Z) : Generator :=
  mkGenerator (allNodes g) (rounds g) (partitions g) idx (offsets g)
              (leadersPartitions g).

Definition NextScenario (g : Generator)
    : result (Generator * (Scenario * bool)) :=
  p ← selectViews (leadersPartitions g) (offsets g) 0 (indices g)
        (replicate (Z.to_nat (rounds g)) zeroView);
  '(idx, ok) ← advance (Z.of_nat (length (leadersPartitions g)))
                  (Z.to_nat (rounds g)) (indices g);
  if (ok : bool)
  then Ret (setIndices g idx, (mkScenario (allNodes g) p, true))
  else Ret (setIndices g idx, (zeroScenario, false)).

(** A caller that drains the iterator: it collects the scenarios returned
    with [ok = true] and stops at the first [ok = false]. *)
Fixpoint drain (fuel : nat) (g : Generator)
    : result (list Scenario * Generator) :=
  match fuel with
  | O => OutOfFuel
  | S fuel' =>
    '(g', (s, ok)) ← NextScenario g;
    if (ok : bool)
    then '(ss, g'') ← drain fuel' g'; Ret (s :: ss, g'')
    else Ret ([], g')
  end.

(** ** math/rand *)

(** [Shuffle] draws from Go's [math/rand], which is a library and not part
    of the repository: the additive lagged Fibonacci source of [rng.go]
    (607 words, tap 273, seeded from a linear congruential sequence mixed
    with the table [rngCooked]) and the bounded draws of [rand.go].  The
    loops that redraw a rejected value end with probability one; here they
    give up after [redraws] draws and keep the last one. *)
Module rand.

Definition rngLen : Z := 607.
Definition rngTap : Z := 273.
Definition rngMask : Z := Z.ones 63.
Definition int32max : Z := 2147483647.

(** The cooked random numbers of the library: the state of the additive
    generator after 780e10 steps. *)
Definition rngCooked : list Z :=
  [
    (-4181792142133755926); (-4576982950128230565); 1395769623340756751;
    5333664234075297259; (-6347679516498800754); 9033628115061424579;
    7143218595135194537; 4812947590706362721; 7937252194349799378;
    5307299880338848416; 8209348851763925077; (-7107630437535961764);
    4593015457530856296; 8140875735541888011; (-5903942795589686782);
    (-603556388664454774); (-7496297993371156308); 113108499721038619;
    4569519971459345583; (-4160538177779461077); (-6835753265595711384);
    (-6507240692498089696); 6559392774825876886; 7650093201692370310;
    7684323884043752161; (-8965504200858744418); (-2629915517445760644);
    271327514973697897; (-6433985589514657524); 1065192797246149621;
    3344507881999356393; (-4763574095074709175); 7465081662728599889;
    1014950805555097187; (-4773931307508785033); (-5742262670416273165);
    2418672789110888383; 5796562887576294778; 4484266064449540171;
    3738982361971787048; (-4699774852342421385); 10530508058128498;
    (-589538253572429690); (-6598062107225984180); 8660405965245884302;
    10162832508971942; (-2682657355892958417); 7031802312784620857;
    6240911277345944669; 831864355460801054; (-1218937899312622917);
    2116287251661052151; 2202309800992166967; 9161020366945053561;
    4069299552407763864; 4936383537992622449; 457351505131524928;
    (-8881176990926596454); (-6375600354038175299); (-7155351920868399290);
    4368649989588021065; 887231587095185257; (-3659780529968199312);
    (-2407146836602825512); 5616972787034086048; (-751562733459939242);
    1686575021641186857; (-5177887698780513806); (-4979215821652996885);
    (-1375154703071198421); 5632136521049761902; (-8390088894796940536);
    (-193645528485698615); (-5979788902190688516); (-4907000935050298721);
    (-285522056888777828); (-2776431630044341707); 1679342092332374735;
    6050638460742422078; (-2229851317345194226); (-1582494184340482199);
    5881353426285907985; 812786550756860885; 4541845584483343330;
    (-6497901820577766722); 4980675660146853729; (-4012602956251539747);
    (-329088717864244987); (-2896929232104691526); 1495812843684243920;
    (-2153620458055647789); 7370257291860230865; (-2466442761497833547);
    4706794511633873654; (-1398851569026877145); 8549875090542453214;
    (-9189721207376179652); (-7894453601103453165); 7297902601803624459;
    1011190183918857495; (-6985347000036920864); 5147159997473910359;
    (-8326859945294252826); 2659470849286379941; 6097729358393448602;
    (-7491646050550022124); (-5117116194870963097); (-896216826133240300);
    (-745860416168701406); 5803876044675762232; (-787954255994554146);
    (-3234519180203704564); (-4507534739750823898); (-1657200065590290694);
    505808562678895611; (-4153273856159712438); (-8381261370078904295);
    572156825025677802; 1791881013492340891; 3393267094866038768;
    (-5444650186382539299); 2352769483186201278; (-7930912453007408350);
    (-325464993179687389); (-3441562999710612272); (-6489413242825283295);
    5092019688680754699; (-227247482082248967); 4234737173186232084;
    5027558287275472836; 4635198586344772304; (-536033143587636457);
    5907508150730407386; (-8438615781380831356); 972392927514829904;
    (-3801314342046600696); (-4064951393885491917); (-174840358296132583);
    2407211146698877100; (-1640089820333676239); 3940796514530962282;
    (-5882197405809569433); 3095313889586102949; (-1818050141166537098);
    5832080132947175283; 7890064875145919662; 8184139210799583195;
    (-8073512175445549678); (-7758774793014564506); (-4581724029666783935);
    3516491885471466898; (-8267083515063118116); 6657089965014657519;
    5220884358887979358; 1796677326474620641; 5340761970648932916;
    1147977171614181568; 5066037465548252321; 2574765911837859848;
    1085848279845204775; (-5873264506986385449); 6116438694366558490;
    2107701075971293812; (-7420077970933506541); 2469478054175558874;
    (-1855128755834809824); (-5431463669011098282); (-9038325065738319171);
    (-6966276280341336160); 7217693971077460129; (-8314322083775271549);
    7196649268545224266; (-3585711691453906209); (-5267827091426810625);
    8057528650917418961; (-5084103596553648165); (-2601445448341207749);
    (-7850010900052094367); 6527366231383600011; 3507654575162700890;
    9202058512774729859; 1954818376891585542; (-2582991129724600103);
    8299563319178235687; (-5321504681635821435); 7046310742295574065;
    (-2376176645520785576); (-7650733936335907755); 8850422670118399721;
    3631909142291992901; 5158881091950831288; (-6340413719511654215);
    4763258931815816403; 6280052734341785344; (-4979582628649810958);
    2043464728020827976; (-2678071570832690343); 4562580375758598164;
    5495451168795427352; (-7485059175264624713); 553004618757816492;
    6895160632757959823; (-989748114590090637); 7139506338801360852;
    (-672480814466784139); 5535668688139305547; 2430933853350256242;
    (-3821430778991574732); (-1063731997747047009); (-3065878205254005442);
    7632066283658143750; 6308328381617103346; 3681878764086140361;
    3289686137190109749; 6587997200611086848; 244714774258135476;
    (-5143583659437639708); 8090302575944624335; 2945117363431356361;
    (-8359047641006034763); 3009039260312620700; (-793344576772241777);
    401084700045993341; (-1968749590416080887); 4707864159563588614;
    (-3583123505891281857); (-3240864324164777915); (-5908273794572565703);
    (-3719524458082857382); (-5281400669679581926); 8118566580304798074;
    3839261274019871296; 7062410411742090847; (-8481991033874568140);
    6027994129690250817; (-6725542042704711878); (-2971981702428546974);
    (-7854441788951256975); 8809096399316380241; 6492004350391900708;
    2462145737463489636; (-8818543617934476634); (-5070345602623085213);
    (-8961586321599299868); (-3758656652254704451); (-8630661632476012791);
    6764129236657751224; (-709716318315418359); (-3403028373052861600);
    (-8838073512170985897); (-3999237033416576341); (-2920240395515973663);
    (-2073249475545404416); 368107899140673753; (-6108185202296464250);
    (-6307735683270494757); 4782583894627718279; 6718292300699989587;
    8387085186914375220; 3387513132024756289; 4654329375432538231;
    (-292704475491394206); (-3848998599978456535); 7623042350483453954;
    7725442901813263321; 9186225467561587250; (-5132344747257272453);
    (-6865740430362196008); 2530936820058611833; 1636551876240043639;
    (-3658707362519810009); 1452244145334316253; (-7161729655835084979);
    (-7943791770359481772); 9108481583171221009; (-3200093350120725999);
    5007630032676973346; 2153168792952589781; 6720334534964750538;
    (-3181825545719981703); 3433922409283786309; 2285479922797300912;
    3110614940896576130; (-2856812446131932915); (-3804580617188639299);
    7163298419643543757; 4891138053923696990; 580618510277907015;
    1684034065251686769; 4429514767357295841; (-8893025458299325803);
    (-8103734041042601133); 7177515271653460134; 4589042248470800257;
    (-1530083407795771245); 143607045258444228; 246994305896273627;
    (-8356954712051676521); 6473547110565816071; 3092379936208876896;
    2058427839513754051; (-4089587328327907870); 8785882556301281247;
    (-3074039370013608197); (-637529855400303673); 6137678347805511274;
    (-7152924852417805802); 5708223427705576541; (-3223714144396531304);
    4358391411789012426; 325123008708389849; 6837621693887290924;
    4843721905315627004; (-3212720814705499393); (-3825019837890901156);
    4602025990114250980; 1044646352569048800; 9106614159853161675;
    (-8394115921626182539); (-4304087667751778808); 2681532557646850893;
    3681559472488511871; (-3915372517896561773); (-2889241648411946534);
    (-6564663803938238204); (-8060058171802589521); 581945337509520675;
    3648778920718647903; (-4799698790548231394); (-7602572252857820065);
    220828013409515943; (-1072987336855386047); 4287360518296753003;
    (-4633371852008891965); 5513660857261085186; (-2258542936462001533);
    (-8744380348503999773); 8746140185685648781; 228500091334420247;
    1356187007457302238; 3019253992034194581; 3152601605678500003;
    (-8793219284148773595); 5559581553696971176; 4916432985369275664;
    (-8559797105120221417); (-5802598197927043732); 2868348622579915573;
    (-7224052902810357288); (-5894682518218493085); 2587672709781371173;
    (-7706116723325376475); 3092343956317362483; (-5561119517847711700);
    972445599196498113; (-1558506600978816441); 1708913533482282562;
    (-2305554874185907314); (-6005743014309462908); (-6653329009633068701);
    (-483583197311151195); 2488075924621352812; (-4529369641467339140);
    (-4663743555056261452); 2997203966153298104; 1282559373026354493;
    240113143146674385; 8665713329246516443; 628141331766346752;
    (-4651421219668005332); (-7750560848702540400); 7596648026010355826;
    (-3132152619100351065); 7834161864828164065; 7103445518877254909;
    4390861237357459201; (-4780718172614204074); (-319889632007444440);
    622261699494173647; (-3186110786557562560); (-8718967088789066690);
    (-1948156510637662747); (-8212195255998774408); (-7028621931231314745);
    2623071828615234808; (-4066058308780939700); (-5484966924888173764);
    (-6683604512778046238); (-6756087640505506466); 5256026990536851868;
    7841086888628396109; 6640857538655893162; (-8021284697816458310);
    (-7109857044414059830); (-1689021141511844405); (-4298087301956291063);
    (-4077748265377282003); (-998231156719803476); 2719520354384050532;
    9132346697815513771; 4332154495710163773; (-2085582442760428892);
    6994721091344268833; (-2556143461985726874); (-8567931991128098309);
    59934747298466858; (-3098398008776739403); (-265597256199410390);
    2332206071942466437; (-7522315324568406181); 3154897383618636503;
    (-7585605855467168281); (-6762850759087199275); 197309393502684135;
    (-8579694182469508493); 2543179307861934850; 4350769010207485119;
    (-4468719947444108136); (-7207776534213261296); (-1224312577878317200);
    4287946071480840813; 8362686366770308971; 6486469209321732151;
    (-5605644191012979782); (-1669018511020473564); 4450022655153542367;
    (-7618176296641240059); (-3896357471549267421); (-4596796223304447488);
    (-6531150016257070659); (-8982326463137525940); (-4125325062227681798);
    (-1306489741394045544); (-8338554946557245229); 5329160409530630596;
    7790979528857726136; 4955070238059373407; (-4304834761432101506);
    (-6215295852904371179); 3007769226071157901; (-6753025801236972788);
    8928702772696731736; 7856187920214445904; (-4748497451462800923);
    7900176660600710914; (-7082800908938549136); (-6797926979589575837);
    (-6737316883512927978); 4186670094382025798; 1883939007446035042;
    (-414705992779907823); 3734134241178479257; 4065968871360089196;
    6953124200385847784; (-7917685222115876751); (-7585632937840318161);
    (-5567246375906782599); (-5256612402221608788); 3106378204088556331;
    (-2894472214076325998); 4565385105440252958; 1979884289539493806;
    (-6891578849933910383); 3783206694208922581; 8464961209802336085;
    2843963751609577687; 3030678195484896323; (-4429654462759003204);
    4459239494808162889; 402587895800087237; 8057891408711167515;
    4541888170938985079; 1042662272908816815; (-3666068979732206850);
    2647678726283249984; 2144477441549833761; (-3417019821499388721);
    (-2105601033380872185); 5916597177708541638; (-8760774321402454447);
    8833658097025758785; 5970273481425315300; 563813119381731307;
    (-6455022486202078793); 1598828206250873866; (-4016978389451217698);
    (-2988328551145513985); (-6071154634840136312); 8469693267274066490;
    125672920241807416; (-3912292412830714870); (-2559617104544284221);
    (-486523741806024092); (-4735332261862713930); 5923302823487327109;
    (-9082480245771672572); (-1808429243461201518); 7990420780896957397;
    4317817392807076702; 3625184369705367340; (-6482649271566653105);
    (-3480272027152017464); (-3225473396345736649); (-368878695502291645);
    (-3981164001421868007); (-8522033136963788610); 7609280429197514109;
    3020985755112334161; (-2572049329799262942); 2635195723621160615;
    5144520864246028816; (-8188285521126945980); 1567242097116389047;
    8172389260191636581; (-2885551685425483535); (-7060359469858316883);
    (-6480181133964513127); (-7317004403633452381); 6011544915663598137;
    5932255307352610768; 2241128460406315459; (-8327867140638080220);
    3094483003111372717; 4583857460292963101; 9079887171656594975;
    (-384082854924064405); (-3460631649611717935); 4225072055348026230;
    (-7385151438465742745); 3801620336801580414; (-399845416774701952);
    (-7446754431269675473); 7899055018877642622; 5421679761463003041;
    5521102963086275121; (-4975092593295409910); 8735487530905098534;
    (-7462844945281082830); (-2080886987197029914); (-1000715163927557685);
    (-4253840471931071485); (-5828896094657903328); 6424174453260338141;
    359248545074932887; (-5949720754023045210); (-2426265837057637212);
    3030918217665093212; (-9077771202237461772); (-3186796180789149575);
    740416251634527158; (-2142944401404840226); 6951781370868335478;
    399922722363687927; (-8928469722407522623); (-1378421100515597285);
    (-8343051178220066766); (-3030716356046100229); (-8811767350470065420);
    9026808440365124461; 6440783557497587732; 4615674634722404292;
    539897290441580544; 2096238225866883852; 8751955639408182687;
    (-7316147128802486205); 7381039757301768559; 6157238513393239656;
    (-1473377804940618233); 8629571604380892756; 5280433031239081479;
    7101611890139813254; 2479018537985767835; 7169176924412769570;
    (-1281305539061572506); (-7865612307799218120); 2278447439451174845;
    3625338785743880657; 6477479539006708521; 8976185375579272206;
    (-3712000482142939688); 1326024180520890843; 7537449876596048829;
    5464680203499696154; 3189671183162196045; 6346751753565857109;
    (-8982212049534145501); (-6127578587196093755); (-245039190118465649);
    (-6320577374581628592); 7208698530190629697; 7276901792339343736;
    (-7490986807540332668); 4133292154170828382; 2918308698224194548;
    (-7703910638917631350); (-3929437324238184044); (-4300543082831323144);
    (-6344160503358350167); 5896236396443472108; (-758328221503023383);
    (-1894351639983151068); (-307900319840287220); (-6278469401177312761);
    (-2171292963361310674); 8382142935188824023; 9103922860780351547;
    4152330101494654406
  ].

(** [seedrand]: [x[n+1] = 48271 * x[n] mod (2**31 - 1)], in [int32]. *)
Definition seedrand (x : Z) : Z :=
  let hi := Z.quot x 44488 in
  let lo := Z.rem x 44488 in
  let x := wrap32 (48271 * lo - 3399 * hi + 2147483648) - 2147483648 in
  if x <? 0 then wrap32 (x + 2147483647 + 2147483648) - 2147483648 else x.

Record rngSource : Type := mkRngSource {
  rng_tap : Z;
  rng_feed : Z;
  rng_vec : list Z
}.

(** The turns [i = -20, ..., -1] of the seeding loop. *)
Fixpoint seedWarm (count : nat) (x : Z) : Z :=
  match count with
  | O => x
  | S count' => seedWarm count' (seedrand x)
  end.

(** The turns [i = 0, ..., rngLen - 1]: three steps of [seedrand] per word,
    mixed with [rngCooked[i]]; the shifts are [int64] shifts. *)
Fixpoint seedFill (cooked : list Z) (x : Z) : list Z :=
  match cooked with
  | [] => []
  | c :: cooked' =>
    let x := seedrand x in
    let u := wrapInt (Z.shiftl x 40) in
    let x := seedrand x in
    let u := Z.lxor u (wrapInt (Z.shiftl x 20)) in
    let x := seedrand x in
    let u := Z.lxor u x in
    let u := Z.lxor u c in
    u :: seedFill cooked' x
  end.

(** [rand.NewSource(seed)]: a fresh source on which [Seed(seed)] was
    called. *)
Definition Seed (seed : Z) : rngSource :=
  let seed := Z.rem seed int32max in
  let seed := if seed <? 0 then seed + int32max else seed in
  let seed := if seed =? 0 then 89482311 else seed in
  mkRngSource 0 (rngLen - rngTap) (seedFill rngCooked (seedWarm 20 seed)).

(** [vec] is an array of [rngLen] words and [tap], [feed] stay below
    [rngLen], so the accesses are in range. *)
Definition Uint64 (rng : rngSource) : Z * rngSource :=
  let tap := rng_tap rng - 1 in
  let tap := if tap <? 0 then tap + rngLen else tap in
  let feed := rng_feed rng - 1 in
  let feed := if feed <? 0 then feed + rngLen else feed in
  let x := wrapInt (nth (Z.to_nat feed) (rng_vec rng) 0
                    + nth (Z.to_nat tap) (rng_vec rng) 0) in
  (x mod 18446744073709551616,
   mkRngSource tap feed (<[Z.to_nat feed := x]> (rng_vec rng))).

Definition Int63 (rng : rngSource) : Z * rngSource :=
  let '(x, rng') := Uint64 rng in (Z.land x rngMask, rng').

Definition Uint32 (rng : rngSource) : Z * rngSource :=
  let '(x, rng') := Int63 rng in (Z.shiftr x 31, rng').

Definition Int31 (rng : rngSource) : Z * rngSource :=
  let '(x, rng') := Int63 rng in (Z.shiftr x 32, rng').

(** The number of draws after which a redraw loop gives up. *)
Definition redraws : nat := 64.

(** [for v > max { v = draw() }]. *)
Fixpoint redrawAbove (draw : rngSource -> Z * rngSource) (fuel : nat)
    (max v : Z) (rng : rngSource) : Z * rngSource :=
  match fuel with
  | O => (v, rng)
  | S fuel' =>
    if max <? v
    then let '(v', rng') := draw rng in redrawAbove draw fuel' max v' rng'
    else (v, rng)
  end.

Definition Int63n (rng : rngSource) (n : Z) : Z * rngSource :=
  if Z.land n (n - 1) =? 0
  then let '(v, rng') := Int63 rng in (Z.land v (n - 1), rng')
  else
    let max := 9223372036854775807 - Z.rem 9223372036854775808 n in
    let '(v, rng1) := Int63 rng in
    let '(v, rng2) := redrawAbove Int63 redraws max v rng1 in
    (Z.rem v n, rng2).

Definition Int31n (rng : rngSource) (n : Z) : Z * rngSource :=
  if Z.land n (n - 1) =? 0
  then let '(v, rng') := Int31 rng in (Z.land v (n - 1), rng')
  else
    let max := 2147483647 - Z.rem 2147483648 n in
    let '(v, rng1) := Int31 rng in
    let '(v, rng2) := redrawAbove Int31 redraws max v rng1 in
    (Z.rem v n, rng2).

(** [for low < thresh { v = r.Uint32(); prod = ...; low = uint32(prod) }];
    the loop carries [v], of which [prod] and [low] are functions. *)
Fixpoint redrawBelow (fuel : nat) (n thresh v : Z) (rng : rngSource)
    : Z * rngSource :=
  match fuel with
  | O => (v, rng)
  | S fuel' =>
    if wrap32 (v * n) <? thresh
    then let '(v', rng') := Uint32 rng in redrawBelow fuel' n thresh v' rng'
    else (v, rng)
  end.

(** [int31n]: the multiplication is in [uint64], [low] is its lower half
    and the result its upper half. *)
Definition int31n (rng : rngSource) (n : Z) : Z * rngSource :=
  let '(v, rng1) := Uint32 rng in
  let '(v, rng2) :=
    if wrap32 (v * n) <? n
    then redrawBelow redraws n (Z.rem (wrap32 (- n)) n) v rng1
    else (v, rng1) in
  (Z.shiftr (v * n) 32, rng2).

(** [Intn(n)] for [n > 0]; [n <= 0] is the panic, raised by the caller in
    this embedding. *)
Definition Intn (rng : rngSource) (n : Z) : Z * rngSource :=
  if n <=? 2147483647 then Int31n rng n else Int63n rng n.

(** The draw [j] that [Rand.Shuffle] makes for position [i = n - 1]. *)
Definition shuffleDraw (rng : rngSource) (n : Z) : Z * rngSource :=
  if 2147483646 <? n - 1 then Int63n rng n else int31n rng n.

End rand.

(** The draws stay in range, redrawn or not. *)
Lemma land_range (a b : Z) : 0 <= a -> 0 <= b -> 0 <= Z.land a b <= b.
Proof.
  intros Ha Hb. split; [apply Z.land_nonneg; auto|].
  assert (H : b = Z.land a b + Z.ldiff b a).
  { rewrite Z.add_nocarry_lxor.
    - apply Z.bits_inj'. intros i Hi.
      rewrite Z.lxor_spec, Z.land_spec, Z.ldiff_spec.
      destruct (Z.testbit a i), (Z.testbit b i); reflexivity.
    - apply Z.bits_inj'. intros i Hi.
      rewrite !Z.land_spec, Z.ldiff_spec, Z.bits_0.
      destruct (Z.testbit a i), (Z.testbit b i); reflexivity. }
  assert (0 <= Z.ldiff b a) by (apply Z.ldiff_nonneg; auto).
  lia.
Qed.

Lemma Int63_range (rng : rand.rngSource) :
  0 <= fst (rand.Int63 rng) < 9223372036854775808.
Proof.
  assert (E : fst (rand.Int63 rng)
              = Z.land (fst (rand.Uint64 rng)) rand.rngMask)
    by (unfold rand.Int63; destruct (rand.Uint64 rng); reflexivity).
  rewrite E. unfold rand.rngMask. rewrite Z.land_ones by lia.
  apply Z.mod_pos_bound. lia.
Qed.

Lemma Uint32_range (rng : rand.rngSource) :
  0 <= fst (rand.Uint32 rng) < 4294967296.
Proof.
  assert (E : fst (rand.Uint32 rng) = Z.shiftr (fst (rand.Int63 rng)) 31)
    by (unfold rand.Uint32; destruct (rand.Int63 rng); reflexivity).
  rewrite E. pose proof (Int63_range rng) as H.
  rewrite Z.shiftr_div_pow2 by lia. split.
  - apply Z.div_pos; lia.
  - apply Z.div_lt_upper_bound; lia.
Qed.

Lemma Int31_range (rng : rand.rngSource) :
  0 <= fst (rand.Int31 rng) < 2147483648.
Proof.
  assert (E : fst (rand.Int31 rng) = Z.shiftr (fst (rand.Int63 rng)) 32)
    by (unfold rand.Int31; destruct (rand.Int63 rng); reflexivity).
  rewrite E. pose proof (Int63_range rng) as H.
  rewrite Z.shiftr_div_pow2 by lia. split.
  - apply Z.div_pos; lia.
  - apply Z.div_lt_upper_bound; lia.
Qed.

Lemma redrawAbove_nonneg (draw : rand.rngSource -> Z * rand.rngSource)
    (fuel : nat) :
  (forall rng, 0 <= fst (draw rng)) ->
  forall (max v : Z) (rng : rand.rngSource),
  0 <= v -> 0 <= fst (rand.redrawAbove draw fuel max v rng).
Proof.
  intros Hdraw. induction fuel as [|fuel IH]; intros max v rng Hv;
    cbn [rand.redrawAbove].
  - exact Hv.
  - destruct (max <? v); [|exact Hv].
    pose proof (Hdraw rng) as Hd. destruct (draw rng) as [v' rng'].
    apply IH. exact Hd.
Qed.

Lemma redrawBelow_range (fuel : nat) :
  forall (n thresh v : Z) (rng : rand.rngSource),
  0 <= v < 4294967296 ->
  0 <= fst (rand.redrawBelow fuel n thresh v rng) < 4294967296.
Proof.
  induction fuel as [|fuel IH]; intros n thresh v rng Hv;
    cbn [rand.redrawBelow].
  - exact Hv.
  - destruct (wrap32 (v * n) <? thresh); [|exact Hv].
    pose proof (Uint32_range rng) as Hd.
    destruct (rand.Uint32 rng) as [v' rng']. apply IH. exact Hd.
Qed.

Lemma Int63n_range (rng : rand.rngSource) (n : Z) :
  0 < n -> 0 <= fst (rand.Int63n rng n) < n.
Proof.
  intros Hn. unfold rand.Int63n. pose proof (Int63_range rng) as Hv.
  destruct (Z.land n (n - 1) =? 0).
  - destruct (rand.Int63 rng) as [v rng']. cbn [fst] in *.
    pose proof (land_range v (n - 1)). lia.
  - destruct (rand.Int63 rng) as [v rng1]. cbn [fst] in Hv.
    pose proof (redrawAbove_nonneg rand.Int63 rand.redraws
                  (fun r => proj1 (Int63_range r))
                  (9223372036854775807 - Z.rem 9223372036854775808 n)
                  v rng1 (proj1 Hv)) as Hr.
    destruct (rand.redrawAbove _ _ _ _ _) as [v2 rng2]. cbn [fst] in *.
    apply Z.rem_bound_pos; lia.
Qed.

Lemma Int31n_range (rng : rand.rngSource) (n : Z) :
  0 < n -> 0 <= fst (rand.Int31n rng n) < n.
Proof.
  intros Hn. unfold rand.Int31n. pose proof (Int31_range rng) as Hv.
  destruct (Z.land n (n - 1) =? 0).
  - destruct (rand.Int31 rng) as [v rng']. cbn [fst] in *.
    pose proof (land_range v (n - 1)). lia.
  - destruct (rand.Int31 rng) as [v rng1]. cbn [fst] in Hv.
    pose proof (redrawAbove_nonneg rand.Int31 rand.redraws
                  (fun r => proj1 (Int31_range r))
                  (2147483647 - Z.rem 2147483648 n)
                  v rng1 (proj1 Hv)) as Hr.
    destruct (rand.redrawAbove _ _ _ _ _) as [v2 rng2]. cbn [fst] in *.
    apply Z.rem_bound_pos; lia.
Qed.

Lemma int31n_range (rng : rand.rngSource) (n : Z) :
  0 < n -> 0 <= fst (rand.int31n rng n) < n.
Proof.
  intros Hn. unfold rand.int31n. pose proof (Uint32_range rng) as Hv.
  destruct (rand.Uint32 rng) as [v rng1]. cbn [fst] in Hv.
  assert (Hr : forall p : Z * rand.rngSource,
            0 <= fst p < 4294967296 ->
            0 <= fst (let '(v, rng2) := p in (Z.shiftr (v * n) 32, rng2)) < n).
  { intros [v2 rng2] H2. cbn [fst] in *.
    rewrite Z.shiftr_div_pow2 by lia. split.
    - apply Z.div_pos; nia.
    - apply Z.div_lt_upper_bound; nia. }
  apply Hr. destruct (wrap32 (v * n) <? n); [|exact Hv].
  apply redrawBelow_range. exact Hv.
Qed.

Lemma shuffleDraw_in_range (rng : rand.rngSource) (n : Z) :
  0 < n -> 0 <= fst (rand.shuffleDraw rng n) < n.
Proof.
  intros Hn. unfold rand.shuffleDraw.
  destruct (2147483646 <? n - 1);
    [apply Int63n_range|apply int31n_range]; exact Hn.
Qed.

Lemma Intn_in_range (rng : rand.rngSource) (n : Z) :
  0 < n -> 0 <= fst (rand.Intn rng n) < n.
Proof.
  intros Hn. unfold rand.Intn.
  destruct (n <=? 2147483647);
    [apply Int31n_range|apply Int63n_range]; exact Hn.
Qed.

(** [math/rand] as the source of [Shuffle]. *)
Definition mathRand : RandSource :=
  mkRandSource rand.rngSource rand.Seed rand.shuffleDraw rand.Intn
    shuffleDraw_in_range Intn_in_range.

(** ** Closed forms used in the statements *)

(** [c] twin pairs from replica [rid] on, the network IDs counted from
    [nid]. *)
Fixpoint twinRoster (c : nat) (rid nid : Z) : list NodeID :=
  match c with
  | O => []
  | S c' =>
    mkNodeID rid nid :: mkNodeID rid (nid + 1)
      :: twinRoster c' (rid + 1) (nid + 2)
  end.

(** [c] nodes without a twin from replica [rid] on. *)
Fixpoint plainRoster (c : nat) (rid nid : Z) : list NodeID :=
  match c with
  | O => []
  | S c' => mkNodeID rid nid :: plainRoster c' (rid + 1) (nid + 1)
  end.

(** The swaps [Rand.Shuffle] asks for, in order, and the state of the source
    after them: both are fixed by the seed and the number of elements. *)
Fixpoint shuffleSwaps (R : RandSource) (count : nat) (r : rng R)
    : list (Z * Z) :=
  match count with
  | O => []
  | S count' =>
    let i := Z.of_nat count in
    (i, fst (shuffleDraw R r (i + 1)))
      :: shuffleSwaps R count' (snd (shuffleDraw R r (i + 1)))
  end.

Fixpoint shuffleRng (R : RandSource) (count : nat) (r : rng R) : rng R :=
  match count with
  | O => r
  | S count' =>
    shuffleRng R count' (snd (shuffleDraw R r (Z.of_nat count + 1)))
  end.

Fixpoint applySwaps {A : Type} (sw : list (Z * Z)) (l : list A)
    : result (list A) :=
  match sw with
  | [] => Ret l
  | (i, j) :: sw' => l' ← swap l i j; applySwaps sw' l'
  end.

(** The values [c, c-1, ..., 1] the loop variable [m] runs through. *)
Fixpoint downFrom (c : nat) : list Z :=
  match c with
  | O => []
  | S c' => Z.of_nat c :: downFrom c'
  end.

(** The size vectors read off the recursion, without the slots already
    fixed: [d] slots are left, the slot before them holds [bound] (255 when
    there is none) and [n] nodes remain to be placed. *)
Fixpoint sizeTails (d : nat) (bound n : Z) : list (list Z) :=
  match d with
  | O => []
  | S d' =>
    (if n <=? bound then [n :: replicate d' 0] else [])
    ++ flat_map (fun m => map (cons m) (sizeTails d' m (wrap8 (n - m))))
                (downFrom (Z.to_nat (Z.min (wrap8 (n - 1)) bound)))
  end.

Definition sumZ (s : list Z) : Z := foldr Z.add 0 s.

Definition non_increasing (s : list Z) : Prop :=
  forall (i : nat) (a b : Z), s !! i = Some a -> s !! S i = Some b -> b <= a.

(** The node sets of [parts] are pairwise disjoint and together hold exactly
    the nodes of [roster]. *)
Definition is_partition_of (roster : list NodeID) (parts : list NodeSet)
    : Prop :=
  (forall (i j : nat) (p q : NodeSet),
     i <> j -> parts !! i = Some p -> parts !! j = Some q ->
     NodeSet_members p ## NodeSet_members q) /\
  (forall x : NodeID,
     x ∈ roster <->
     exists (i : nat) (p : NodeSet),
       parts !! i = Some p /\ x ∈ NodeSet_members p).

(** Slot [i] holds exactly [sz[i]] nodes. *)
Definition sizes_match (sz : list Z) (parts : list NodeSet) : Prop :=
  map (fun p => Z.of_nat (NodeSet_len p)) parts = sz.

(** The state of a scenario under construction: [cap] is what is left of
    the sizes [sz] and [used] the nodes placed so far. *)
Record building (sz : list Z) (parts : list NodeSet) (cap : list Z)
    (used : gset NodeID) : Prop := mkBuilding {
  bld_parts_length : length parts = length sz;
  bld_cap_length : length cap = length sz;
  bld_sizes : forall (i : nat) (c r : Z) (p : NodeSet),
      sz !! i = Some c -> parts !! i = Some p -> cap !! i = Some r ->
      0 <= r /\ r + Z.of_nat (NodeSet_len p) = c /\ c <= 255 /\
      (p = None -> c = 0);
  bld_disjoint : forall (i j : nat) (p q : NodeSet),
      i <> j -> parts !! i = Some p -> parts !! j = Some q ->
      NodeSet_members p ## NodeSet_members q;
  bld_used : forall x : NodeID,
      x ∈ used <->
      exists (i : nat) (p : NodeSet),
        parts !! i = Some p /\ x ∈ NodeSet_members p;
  bld_sum : sumZ cap + Z.of_nat (size used) = sumZ sz
}.

(** The slot allocated for a size: a fresh map when the size is positive,
    nil otherwise. *)
Definition freshSlot (c : Z) : NodeSet := if 0 <? c then Some ∅ else None.

(** What is asked of a partition scenario of the generator: its slots have
    the sizes of one of the enumerated size vectors, and they partition the
    roster. *)
Definition scenario_ok (sizes : list (list Z)) (roster : list NodeID)
    (parts : list NodeSet) : Prop :=
  (exists sz, sz ∈ sizes /\ length parts = length sz /\ sizes_match sz parts)
  /\ is_partition_of roster parts.

(** The generator states a harness can reach from [g0] by calling
    [NextScenario] and [Shuffle]. *)
Inductive reachable (R : RandSource) (g0 : Generator) : Generator -> Prop :=
  | reach_start : reachable R g0 g0
  | reach_next (g g' : Generator) (out : Scenario * bool) :
      reachable R g0 g -> NextScenario g = Ret (g', out) ->
      reachable R g0 g'
  | reach_shuffle (g g' : Generator) (seed : Z) :
      reachable R g0 g -> Shuffle R seed g = Ret g' ->
      reachable R g0 g'.

(** The indices vector read as a numeral in base [len], position 0 the most
    significant. *)
Definition valIdx (len : Z) (idx : list Z) : Z :=
  fold_left (fun acc x => acc * len + x) idx 0.

Definition in_range (len : Z) (idx : list Z) : Prop :=
  Forall (fun x => 0 <= x < len) idx.

(** A well-formed state of the iterator: [count] rounds over a list of
    [len] view specs. *)
Definition iterating (len : Z) (count : nat) (g : Generator) : Prop :=
  Z.to_nat (rounds g) = count /\
  Z.of_nat (length (leadersPartitions g)) = len /\
  length (indices g) = count /\ in_range len (indices g) /\
  length (offsets g) = count /\ in_range len (offsets g).

(** What one enumerated tail looks like. *)
Definition sizeTail_ok (d : nat) (bound n : Z) (t : list Z) : Prop :=
  length t = d /\ sumZ t = n /\ non_increasing t /\
  (forall x, x ∈ t -> 0 <= x <= bound) /\
  exists x, t !! 0%nat = Some x /\ 1 <= x /\ x <= bound /\ x <= n.

(** The partitions a twin assignment asks for, in the order in which
    [isValidTwinAssignment] visits them, and how often it asks for
    partition [p]. *)
Definition slotsOf (ta : list twinAssignment) : list Z :=
  flat_map (fun ab => [fst ab; snd ab]) ta.

Definition demand (ta : list twinAssignment) (p : Z) : Z :=
  Z.of_nat (count_occ Z.eq_dec (slotsOf ta) p).

(** The capacity test taken one slot at a time. *)
Fixpoint placeAll (len : nat) (slots : list Z) (ps : list Z) : bool :=
  match slots with
  | [] => true
  | x :: rest =>
    match placeTwin len ps x with
    | None => false
    | Some ps1 => placeAll len rest ps1
    end
  end.

(** The number of twin assignments that pass the capacity test for the size
    vector [sz], and the number of pairs of a size vector and a twin
    assignment that pass it. *)
Definition feasible (sz : list Z) (tas : list (list twinAssignment)) : nat :=
  length (List.filter (fun ta => isValidTwinAssignment ta sz) tas).

Definition feasiblePairs (sizes : list (list Z))
    (tas : list (list twinAssignment)) : nat :=
  foldr (fun sz acc => (feasible sz tas + acc)%nat) 0%nat sizes.

(** Node [x] sits in partition [a] of the scenario [parts]. *)
Definition inSlot (parts : list NodeSet) (a : Z) (x : NodeID) : Prop :=
  exists p, parts !! Z.to_nat a = Some p /\ x ∈ NodeSet_members p.

(** Every slot of [parts'] holds at least the nodes of the same slot of
    [parts]. *)
Definition grows (parts parts' : list NodeSet) : Prop :=
  forall (i : nat) (p : NodeSet),
    parts !! i = Some p ->
    exists p', parts' !! i = Some p' /\
               NodeSet_members p ⊆ NodeSet_members p'.

(** The pairs of a size vector and a twin assignment that pass the capacity
    test, in the order of the two nested loops of
    [genPartitionScenarios]. *)
Definition validPairs (sizes : list (list Z))
    (tas : list (list twinAssignment))
    : list (list Z * list twinAssignment) :=
  flat_map (fun sz =>
              map (pair sz)
                  (List.filter (fun ta => isValidTwinAssignment ta sz) tas))
           sizes.

(** The scenario [parts] is the one built for the size vector and the twin
    assignment of the pair [p]: its slot [i] holds exactly [sz[i]] nodes,
    its slots are pairwise disjoint and together they hold the roster. *)
Definition built_from (k : Z) (twins nodes : list NodeID)
    (p : list Z * list twinAssignment) (parts : list NodeSet) : Prop :=
  buildPartitions k (fst p) (snd p) twins nodes = Ret parts /\
  sizes_match (fst p) parts /\
  is_partition_of (twins ++ nodes) parts.

#[global] Instance View_eq_dec : EqDecision View.
Proof. solve_decision. Defined.

(** * Properties *)

(** ** Reasoning about outcomes *)

Lemma bind_Ret_inv {A B : Type} (m : result A) (f : A -> result B) (b : B) :
  m ≫= f = Ret b -> exists a, m = Ret a /\ f a = Ret b.
Proof. destruct m as [a| |]; simpl; intros H; try discriminate; eauto. Qed.

Lemma bind_Ret_l {A B : Type} (a : A) (f : A -> result B) :
  Ret a ≫= f = f a.
Proof. reflexivity. Qed.

(** [bind_inv H as x Hx]: a bind that returned did so through a first run
    that returned [x] (equation [Hx]); [H] becomes the second run. *)
Tactic Notation "bind_inv" hyp(H) "as" simple_intropattern(x)
    simple_intropattern(Hx) :=
  apply bind_Ret_inv in H as (x & Hx & H).

(** Closes an equation between closed terms by evaluating both sides. *)
Ltac by_evaluation := vm_compute; reflexivity.

Lemma index_Ret {A : Type} (s : list A) (i : Z) (a : A) :
  index s i = Ret a <-> 0 <= i /\ s !! Z.to_nat i = Some a.
Proof.
  unfold index. destruct (Z.ltb_spec i 0).
  - split; [discriminate | lia].
  - destruct (s !! Z.to_nat i) eqn:E; split; intros H1;
      try discriminate; try (injection H1 as ->; auto).
    + destruct H1 as [_ [= ->]]. reflexivity.
    + destruct H1 as [_ [=]].
Qed.

Lemma index_nil {A : Type} (i : Z) : index (@nil A) i = Panic.
Proof. unfold index. destruct (i <? 0); reflexivity. Qed.

Lemma store_Ret {A : Type} (s : list A) (i : Z) (v : A) (s' : list A) :
  store s i v = Ret s' <->
  0 <= i /\ (Z.to_nat i < length s)%nat /\ s' = <[Z.to_nat i := v]> s.
Proof.
  unfold store. destruct (Z.ltb_spec i 0).
  - split; [discriminate | lia].
  - destruct (Nat.ltb_spec (Z.to_nat i) (length s)); split; intros H1;
      try discriminate; try lia.
    + injection H1 as <-. auto.
    + destruct H1 as (_ & _ & ->). reflexivity.
Qed.

Lemma store_in_range {A : Type} (s : list A) (i : Z) (v : A) :
  0 <= i -> (Z.to_nat i < length s)%nat ->
  store s i v = Ret (<[Z.to_nat i := v]> s).
Proof. intros. apply store_Ret. auto. Qed.

(** ** The iterator on the edge cases of [rounds] *)

(** With [rounds = 0] both loops of [NextScenario] are skipped: the call
    returns a scenario without views and [ok = true], and leaves the
    generator as it was. *)
Lemma NextScenario_no_rounds an p o lp :
  NextScenario (mkGenerator an 0 p [] o lp)
  = Ret (mkGenerator an 0 p [] o lp, (mkScenario an [], true)).
Proof. reflexivity. Qed.

Lemma NewGenerator_fields fuel replicas numTwins k r g :
  NewGenerator fuel replicas numTwins k r = Ret g ->
  rounds g = r /\ partitions g = k /\
  indices g = replicate (Z.to_nat r) 0 /\
  offsets g = replicate (Z.to_nat r) 0 /\
  allNodes g = st_twins (assignIDs replicas numTwins)
               ++ st_nodes (assignIDs replicas numTwins).
Proof.
  unfold NewGenerator. intros H.
  bind_inv H as ps _. injection H as <-.
  simpl. auto.
Qed.

(** A generator built with [rounds = 0] answers every call with
    [ok = true]; draining it never ends. *)
Lemma NextScenario_rounds_zero fuel replicas numTwins k g :
  NewGenerator fuel replicas numTwins k 0 = Ret g ->
  NextScenario g = Ret (g, (mkScenario (allNodes g) [], true)).
Proof.
  intros H. pose proof (NewGenerator_fields _ _ _ _ _ _ H) as (Hr & _ & Hi & _).
  destruct g as [an r p i o lp]. simpl in *. subst r i.
  apply NextScenario_no_rounds.
Qed.

Lemma drain_rounds_zero n fuel replicas numTwins k g :
  NewGenerator fuel replicas numTwins k 0 = Ret g ->
  drain n g = OutOfFuel.
Proof.
  intros H. apply NextScenario_rounds_zero in H.
  induction n as [|n IH]; simpl; [reflexivity|].
  rewrite H. simpl. rewrite IH. reflexivity.
Qed.

(** The run used as example: [NewGenerator(1, 1, 1, 0)] and one call. *)
Lemma run_no_rounds :
  exists g, NewGenerator 10 1 1 1 0 = Ret g.
Proof.
  assert (Hc : (g ← NewGenerator 10 1 1 1 0; Ret tt) = Ret tt)
    by by_evaluation.
  apply bind_Ret_inv in Hc as (g & E & _). eauto.
Qed.

(** C4, at the input [NewGenerator(1, 1, 1, 0)]: construction succeeds, and
    the first call of [NextScenario] returns [ok = true] with a scenario of
    no views, where the claim expects exhaustion ([ok = false]); the
    generator is unchanged, so every later call does the same. *)
Theorem NextScenario_rounds_zero_not_exhausted :
  exists g,
    NewGenerator 10 1 1 1 0 = Ret g /\
    NextScenario g = Ret (g, (mkScenario (allNodes g) [], true)) /\
    drain 1000 g = OutOfFuel.
Proof.
  destruct run_no_rounds as (g & E).
  exists g. split; [exact E|]. split.
  - eapply NextScenario_rounds_zero, E.
  - eapply drain_rounds_zero, E.
Qed.

(** ** Calling the iterator after exhaustion *)

Lemma advance_false len count idx idx' :
  advance len count idx = Ret (idx', false) -> idx' = [].
Proof.
  revert idx. induction count as [|i IH]; intros idx; simpl.
  - intros [=].
  - intros H.
    bind_inv H as v _.
    bind_inv H as idx1 _.
    destruct (wrapInt (v + 1) <? len); [congruence|].
    bind_inv H as idx2 _.
    destruct (Z.of_nat i <=? 0).
    + injection H as <-. reflexivity.
    + eapply IH, H.
Qed.

Lemma NextScenario_false g g1 s :
  NextScenario g = Ret (g1, (s, false)) ->
  g1 = setIndices g [] /\ s = zeroScenario.
Proof.
  unfold NextScenario. intros H.
  bind_inv H as p _.
  bind_inv H as [idx ok] Ha.
  destruct ok; simpl in H; [congruence|].
  injection H as <- <-. apply advance_false in Ha as ->. auto.
Qed.

Lemma NextScenario_empty_indices g :
  1 <= rounds g -> indices g = [] -> NextScenario g = Panic.
Proof.
  intros Hr Hi. unfold NextScenario. rewrite Hi. simpl.
  destruct (Z.to_nat (rounds g)) as [|i] eqn:E; [lia|].
  simpl. rewrite index_nil. reflexivity.
Qed.

(** C3 (as amended): once [NextScenario] has reported exhaustion the
    indices vector is the empty slice, and with [rounds >= 1] the next call
    returns nothing: it stops with an index-out-of-range panic at
    [g.indices[rounds-1]]. *)
Theorem NextScenario_after_exhaustion g g1 s :
  1 <= rounds g ->
  NextScenario g = Ret (g1, (s, false)) ->
  indices g1 = [] /\ s = zeroScenario /\ NextScenario g1 = Panic.
Proof.
  intros Hr H. apply NextScenario_false in H as [-> ->].
  split; [reflexivity|]. split; [reflexivity|].
  apply NextScenario_empty_indices; [exact Hr | reflexivity].
Qed.

(** The run used as example: [NewGenerator(1, 1, 1, 1)] reports exhaustion
    on its first call. *)
Lemma run_one_view :
  exists g g1 s,
    NewGenerator 10 1 1 1 1 = Ret g /\
    NextScenario g = Ret (g1, (s, false)).
Proof.
  assert (Hc : (g ← NewGenerator 10 1 1 1 1; r ← NextScenario g;
                Ret (snd (snd r))) = Ret false)
    by by_evaluation.
  bind_inv Hc as g E.
  bind_inv Hc as [g1 [s ok]] E1.
  simpl in Hc. injection Hc as ->. eauto.
Qed.

Lemma NextScenario_after_exhaustion_witness :
  exists g g1 s,
    NewGenerator 10 1 1 1 1 = Ret g /\
    NextScenario g = Ret (g1, (s, false)) /\
    indices g1 = [] /\ s = zeroScenario /\ NextScenario g1 = Panic.
Proof.
  destruct run_one_view as (g & g1 & s & E & E1).
  exists g, g1, s. split; [exact E|]. split; [exact E1|].
  apply (NextScenario_after_exhaustion g g1 s); [|exact E1].
  apply NewGenerator_fields in E as (-> & _). lia.
Defined.

(** C3, counterexample: the generator of [NewGenerator(1, 1, 1, 1)] reports
    exhaustion on its first call, and the second call panics instead of
    returning the all-zero-indices scenario. *)
Lemma NextScenario_after_exhaustion_panics :
  exists g g1 s,
    NewGenerator 10 1 1 1 1 = Ret g /\
    NextScenario g = Ret (g1, (s, false)) /\
    NextScenario g1 = Panic.
Proof.
  destruct run_one_view as (g & g1 & s & E & E1).
  exists g, g1, s. split; [exact E|]. split; [exact E1|].
  apply NextScenario_false in E1 as [-> ->].
  apply NextScenario_empty_indices; [|reflexivity].
  apply NewGenerator_fields in E as (Hr & _). simpl. lia.
Qed.

(** ** The roster built by [NewGenerator] *)

Lemma wrap8_small x : 0 <= x < 256 -> wrap8 x = x.
Proof. intros. unfold wrap8. apply Z.mod_small. lia. Qed.

Lemma wrap32_small x : 0 <= x < 4294967296 -> wrap32 x = x.
Proof. intros. unfold wrap32. apply Z.mod_small. lia. Qed.

Lemma wrapInt_small x :
  - 9223372036854775808 <= x < 9223372036854775808 -> wrapInt x = x.
Proof. intros. unfold wrapInt. rewrite Z.mod_small; lia. Qed.

(** While twins remain, each step of the loop emits one twin pair. *)
Lemma assignLoop_twins c : forall rid nid rem tw nd ids,
  Z.of_nat c <= rem < 256 ->
  0 <= rid -> rid + Z.of_nat c < 4294967296 ->
  0 <= nid -> nid + 2 * Z.of_nat c < 4294967296 ->
  assignLoop c (mkIdState rid nid rem tw nd ids)
  = mkIdState (rid + Z.of_nat c) (nid + 2 * Z.of_nat c) (rem - Z.of_nat c)
              (tw ++ twinRoster c rid nid) nd
              (ids ++ seqZ rid (Z.of_nat c)).
Proof.
  induction c as [|c IH]; intros rid nid rem tw nd ids Hrem Hr1 Hr2 Hn1 Hn2.
  - simpl. rewrite !app_nil_r. f_equal; lia.
  - cbn [assignLoop]. unfold assignStep. cbn [st_remainingTwins st_replicaID
      st_networkID st_twins st_nodes st_replicaIDs].
    destruct (Z.ltb_spec 0 rem); [|lia].
    rewrite (wrap32_small (nid + 1)) by lia.
    rewrite (wrap32_small (nid + 1 + 1)) by lia.
    rewrite (wrap32_small (rid + 1)) by lia.
    rewrite (wrap8_small (rem - 1)) by lia.
    rewrite IH by lia.
    rewrite (seqZ_cons rid (Z.of_nat (S c))) by lia.
    cbn [twinRoster]. rewrite <- !app_assoc. cbn [app].
    replace (Z.pred (Z.of_nat (S c))) with (Z.of_nat c) by lia.
    replace (Z.succ rid) with (rid + 1) by lia.
    replace (nid + 1 + 1) with (nid + 2) by lia.
    f_equal; lia.
Qed.

(** Once no twin remains, each step emits one plain node. *)
Lemma assignLoop_plain c : forall rid nid tw nd ids,
  0 <= rid -> rid + Z.of_nat c < 4294967296 ->
  0 <= nid -> nid + Z.of_nat c < 4294967296 ->
  assignLoop c (mkIdState rid nid 0 tw nd ids)
  = mkIdState (rid + Z.of_nat c) (nid + Z.of_nat c) 0
              tw (nd ++ plainRoster c rid nid)
              (ids ++ seqZ rid (Z.of_nat c)).
Proof.
  induction c as [|c IH]; intros rid nid tw nd ids Hr1 Hr2 Hn1 Hn2.
  - simpl. rewrite !app_nil_r. f_equal; lia.
  - cbn [assignLoop]. unfold assignStep. cbn [st_remainingTwins st_replicaID
      st_networkID st_twins st_nodes st_replicaIDs].
    destruct (Z.ltb_spec 0 0); [lia|].
    rewrite (wrap32_small (nid + 1)) by lia.
    rewrite (wrap32_small (rid + 1)) by lia.
    rewrite IH by lia.
    rewrite (seqZ_cons rid (Z.of_nat (S c))) by lia.
    cbn [plainRoster]. rewrite <- !app_assoc. cbn [app].
    replace (Z.pred (Z.of_nat (S c))) with (Z.of_nat c) by lia.
    replace (Z.succ rid) with (rid + 1) by lia.
    f_equal; lia.
Qed.

Lemma assignLoop_add a b st :
  assignLoop (a + b) st = assignLoop b (assignLoop a st).
Proof. revert st. induction a as [|a IH]; intros st; simpl; auto. Qed.

(** The three lists the loop hands to the rest of the constructor. *)
Lemma assignIDs_legal replicas numTwins :
  0 <= numTwins <= replicas -> replicas < 256 ->
  st_twins (assignIDs replicas numTwins)
    = twinRoster (Z.to_nat numTwins) 1 1 /\
  st_nodes (assignIDs replicas numTwins)
    = plainRoster (Z.to_nat (replicas - numTwins))
        (numTwins + 1) (2 * numTwins + 1) /\
  st_replicaIDs (assignIDs replicas numTwins) = seqZ 1 replicas.
Proof.
  intros Ht Hr. unfold assignIDs.
  replace (Z.to_nat replicas)
    with (Z.to_nat numTwins + Z.to_nat (replicas - numTwins))%nat by lia.
  rewrite assignLoop_add, assignLoop_twins by lia.
  replace (numTwins - Z.of_nat (Z.to_nat numTwins)) with 0 by lia.
  rewrite assignLoop_plain by lia. cbn.
  rewrite !Z2Nat.id by lia.
  split; [reflexivity|]. split.
  - f_equal; lia.
  - rewrite <- seqZ_app by lia. f_equal. lia.
Qed.

(** With more twins requested than replicas, every replica is twinned and
    the surplus is never used. *)
Lemma assignIDs_surplus replicas numTwins :
  0 <= replicas < numTwins -> numTwins < 256 ->
  st_twins (assignIDs replicas numTwins)
    = twinRoster (Z.to_nat replicas) 1 1 /\
  st_nodes (assignIDs replicas numTwins) = [] /\
  st_replicaIDs (assignIDs replicas numTwins) = seqZ 1 replicas.
Proof.
  intros Ht Hr. unfold assignIDs.
  rewrite assignLoop_twins by lia. cbn.
  rewrite !Z2Nat.id by lia. auto.
Qed.

Lemma twinRoster_length c rid nid :
  length (twinRoster c rid nid) = (2 * c)%nat.
Proof.
  revert rid nid. induction c as [|c IH]; intros; simpl; [reflexivity|].
  rewrite IH. lia.
Qed.

Lemma plainRoster_length c rid nid : length (plainRoster c rid nid) = c.
Proof.
  revert rid nid. induction c as [|c IH]; intros; simpl; [reflexivity|].
  rewrite IH. reflexivity.
Qed.

Lemma twinRoster_lookup c : forall rid nid (j : nat),
  (j < c)%nat ->
  twinRoster c rid nid !! (2 * j)%nat
    = Some (mkNodeID (rid + Z.of_nat j) (nid + 2 * Z.of_nat j)) /\
  twinRoster c rid nid !! (2 * j + 1)%nat
    = Some (mkNodeID (rid + Z.of_nat j) (nid + 2 * Z.of_nat j + 1)).
Proof.
  induction c as [|c IH]; intros rid nid j Hj; [lia|].
  destruct j as [|j].
  - simpl. rewrite !Z.add_0_r. auto.
  - replace (2 * S j)%nat with (S (S (2 * j))) by lia.
    replace (S (S (2 * j)) + 1)%nat with (S (S (2 * j + 1))) by lia.
    destruct (IH (rid + 1) (nid + 2) j ltac:(lia)) as [H0 H1].
    split.
    + transitivity (twinRoster c (rid + 1) (nid + 2) !! (2 * j)%nat);
        [reflexivity|]. rewrite H0. do 2 f_equal; lia.
    + transitivity (twinRoster c (rid + 1) (nid + 2) !! (2 * j + 1)%nat);
        [reflexivity|]. rewrite H1. do 2 f_equal; lia.
Qed.

Lemma plainRoster_lookup c : forall rid nid (i : nat),
  (i < c)%nat ->
  plainRoster c rid nid !! i
    = Some (mkNodeID (rid + Z.of_nat i) (nid + Z.of_nat i)).
Proof.
  induction c as [|c IH]; intros rid nid i Hi; [lia|].
  destruct i as [|i].
  - simpl. rewrite !Z.add_0_r. auto.
  - transitivity (plainRoster c (rid + 1) (nid + 1) !! i); [reflexivity|].
    rewrite IH by lia. do 2 f_equal; lia.
Qed.

Lemma twinRoster_NetworkID c : forall rid nid,
  NetworkID <$> twinRoster c rid nid = seqZ nid (2 * Z.of_nat c).
Proof.
  induction c as [|c IH]; intros rid nid; [reflexivity|].
  cbn [twinRoster fmap list_fmap NetworkID]. 
  change (list_fmap NodeID Z NetworkID) with (fmap (M:=list) NetworkID).
  rewrite IH.
  rewrite (seqZ_cons nid) by lia. rewrite (seqZ_cons (Z.succ nid)) by lia.
  do 2 f_equal. f_equal; lia.
Qed.

Lemma plainRoster_NetworkID c : forall rid nid,
  NetworkID <$> plainRoster c rid nid = seqZ nid (Z.of_nat c).
Proof.
  induction c as [|c IH]; intros rid nid; [reflexivity|].
  cbn [plainRoster fmap list_fmap NetworkID].
  change (list_fmap NodeID Z NetworkID) with (fmap (M:=list) NetworkID).
  rewrite IH. rewrite (seqZ_cons nid) by lia.
  f_equal. f_equal; lia.
Qed.

(** ** Order of the twin assignments *)

Lemma lookup_map {A B : Type} (f : A -> B) (l : list A) (i : nat) :
  map f l !! i = f <$> (l !! i).
Proof.
  revert i. induction l as [|a l IH]; intros [|i]; simpl; auto.
Qed.

(** Entry [j] of a product list: the block is [j / |r|], the place in the
    block is [j mod |r|]. *)
Lemma lookup_flat_map_map {A B C : Type} (f : A -> B -> C)
    (P : list A) (r : list B) (j : nat) :
  (0 < length r)%nat ->
  flat_map (fun v => map (f v) r) P !! j
  = match P !! (j / length r)%nat, r !! (j mod length r)%nat with
    | Some v, Some p => Some (f v p)
    | _, _ => None
    end.
Proof.
  intros Hr. revert j. induction P as [|v P IH]; intros j.
  - simpl. rewrite lookup_nil. reflexivity.
  - cbn [flat_map]. destruct (Nat.lt_ge_cases j (length r)) as [Hj|Hj].
    + rewrite lookup_app_l by (rewrite length_map; exact Hj).
      rewrite lookup_map, Nat.div_small, Nat.mod_small by exact Hj.
      simpl. destruct (r !! j) eqn:E; [reflexivity|].
      apply lookup_ge_None in E. lia.
    + rewrite lookup_app_r by (rewrite length_map; exact Hj).
      rewrite length_map, IH.
      assert (Hd : (j / length r = S ((j - length r) / length r))%nat).
      { replace j with ((j - length r) + 1 * length r)%nat at 1 by lia.
        rewrite Nat.div_add by lia. lia. }
      assert (Hmd : (j mod length r = (j - length r) mod length r)%nat).
      { replace j with ((j - length r) + 1 * length r)%nat at 1 by lia.
        apply Nat.Div0.mod_add. }
      rewrite Hd, Hmd. reflexivity.
Qed.

Lemma length_flat_map_map {A B C : Type} (f : A -> B -> C)
    (P : list A) (r : list B) :
  length (flat_map (fun v => map (f v) r) P) = (length P * length r)%nat.
Proof.
  induction P as [|v P IH]; simpl; [reflexivity|].
  rewrite length_app, length_map, IH. reflexivity.
Qed.

Lemma cartesianProduct_replicate_length (P : list twinAssignment) (t : nat) :
  length (cartesianProduct (replicate t P)) = (length P ^ t)%nat.
Proof.
  induction t as [|t IH]; [reflexivity|].
  cbn [replicate cartesianProduct].
  rewrite length_flat_map_map, IH. reflexivity.
Qed.

(** Dropping the high digits of [j] does not change a lower digit. *)
Lemma low_digit (j a m c : nat) :
  (0 < a)%nat -> (0 < m)%nat ->
  (((j mod (a * (m * c))) / a) mod m = (j / a) mod m)%nat.
Proof.
  intros Ha Hm.
  rewrite Nat.Div0.mod_mul_r.
  replace (j mod a + a * ((j / a) mod (m * c)))%nat
    with (j mod a + ((j / a) mod (m * c)) * a)%nat by lia.
  rewrite Nat.div_add by lia.
  rewrite (Nat.div_small (j mod a)) by (apply Nat.mod_upper_bound; lia).
  rewrite Nat.add_0_l, Nat.Div0.mod_mul_r.
  replace ((j / a) mod m + m * ((j / a / m) mod c))%nat
    with ((j / a) mod m + ((j / a / m) mod c) * m)%nat by lia.
  rewrite Nat.Div0.mod_add. apply Nat.Div0.mod_mod.
Qed.

(** The tuples of [P^t] are the base-[|P|] numerals of their position, most
    significant digit first. *)
Lemma cartesianProduct_replicate_lookup (P : list twinAssignment) (t : nat) :
  forall j : nat, (j < length P ^ t)%nat ->
  exists tuple,
    cartesianProduct (replicate t P) !! j = Some tuple /\
    length tuple = t /\
    forall q : nat, (q < t)%nat ->
      tuple !! q = P !! ((j / length P ^ (t - 1 - q)) mod length P)%nat.
Proof.
  induction t as [|t IH]; intros j Hj.
  - simpl in Hj. assert (j = 0%nat) as -> by lia.
    exists []. split; [reflexivity|]. split; [reflexivity|]. intros q Hq. lia.
  - cbn [replicate cartesianProduct].
    set (r := cartesianProduct (replicate t P)) in *.
    assert (Hlen : length r = (length P ^ t)%nat)
      by apply cartesianProduct_replicate_length.
    cbn [Nat.pow] in Hj.
    assert (Hm : (0 < length P)%nat) by (destruct (length P); lia).
    assert (Hr : (0 < length P ^ t)%nat) by (destruct (length P ^ t)%nat; lia).
    rewrite lookup_flat_map_map by lia. rewrite Hlen.
    assert (Hq0 : (j / length P ^ t < length P)%nat)
      by (apply Nat.Div0.div_lt_upper_bound; lia).
    destruct (P !! (j / length P ^ t)%nat) as [v|] eqn:Ev;
      [|apply lookup_ge_None in Ev; lia].
    destruct (IH (j mod length P ^ t)%nat) as (p & Ep & Hlp & Hp);
      [apply Nat.mod_upper_bound; lia|].
    rewrite Ep. exists (v :: p). split; [reflexivity|].
    split; [simpl; lia|].
    intros [|q] Hq.
    + replace (S t - 1 - 0)%nat with t by lia.
      rewrite Nat.mod_small by exact Hq0. simpl. auto.
    + transitivity (p !! q); [reflexivity|].
      rewrite Hp by lia.
      replace (S t - 1 - S q)%nat with (t - 1 - q)%nat by lia.
      replace (length P ^ t)%nat
        with (length P ^ (t - 1 - q) * (length P * length P ^ q))%nat.
      * rewrite low_digit; [reflexivity| |exact Hm].
        pose proof (Nat.pow_nonzero (length P) (t - 1 - q) ltac:(lia)). lia.
      * rewrite <- Nat.pow_succ_r', <- Nat.pow_add_r. f_equal. lia.
Qed.

Lemma generateTwinPartitionPairs_row_sum (n c : nat) : forall a : nat,
  (a + c = n)%nat ->
  (2 * length (flat_map (fun i : nat =>
                 map (fun j : nat => (Z.of_nat i, Z.of_nat j))
                     (seq i (n - i))) (seq a c))
   = c * (c + 1))%nat.
Proof.
  induction c as [|c IH]; intros a Ha; [reflexivity|].
  cbn [seq flat_map]. rewrite length_app, length_map, length_seq.
  specialize (IH (S a) ltac:(lia)). nia.
Qed.

Lemma generateTwinPartitionPairs_length (k : Z) :
  0 <= k ->
  2 * Z.of_nat (length (generateTwinPartitionPairs k)) = k * (k + 1).
Proof.
  intros Hk. unfold generateTwinPartitionPairs.
  pose proof (generateTwinPartitionPairs_row_sum (Z.to_nat k) (Z.to_nat k)
                0%nat ltac:(lia)) as H.
  apply (f_equal Z.of_nat) in H.
  rewrite !Nat2Z.inj_mul, Nat2Z.inj_add, Z2Nat.id in H by lia.
  exact H.
Qed.

(** C9: the product of the twin-pair list with itself [t] times lists the
    [|P|^t] tuples as the base-[|P|] numerals of their position with the
    most significant digit first: position [q] of tuple [j] is entry
    [(j / |P|^(t-1-q)) mod |P|] of the pair list.  The last position
    ([j mod |P|]) changes at every step, position [q] only every
    [|P|^(t-1-q)] steps. *)
Theorem cartesianProduct_last_position_fastest (t : nat) (k : Z) (j : nat) :
  (1 <= t)%nat -> 1 <= k ->
  (j < length (generateTwinPartitionPairs k) ^ t)%nat ->
  length (cartesianProduct (replicate t (generateTwinPartitionPairs k)))
    = (length (generateTwinPartitionPairs k) ^ t)%nat /\
  exists tuple,
    cartesianProduct (replicate t (generateTwinPartitionPairs k)) !! j
      = Some tuple /\
    length tuple = t /\
    (forall q : nat, (q < t)%nat ->
       tuple !! q
       = generateTwinPartitionPairs k
           !! ((j / length (generateTwinPartitionPairs k) ^ (t - 1 - q))
               mod length (generateTwinPartitionPairs k))%nat) /\
    tuple !! (t - 1)%nat
      = generateTwinPartitionPairs k
          !! (j mod length (generateTwinPartitionPairs k))%nat.
Proof.
  intros Ht Hk Hj.
  split; [apply cartesianProduct_replicate_length|].
  destruct (cartesianProduct_replicate_lookup _ t j Hj) as (tuple & E & Hl & Hq).
  exists tuple. split; [exact E|]. split; [exact Hl|]. split; [exact Hq|].
  rewrite Hq by lia.
  replace (t - 1 - (t - 1))%nat with 0%nat by lia.
  rewrite Nat.pow_0_r, Nat.div_1_r. reflexivity.
Qed.

Lemma cartesianProduct_last_position_fastest_witness :
  length (cartesianProduct (replicate 2 (generateTwinPartitionPairs 2)))
    = (length (generateTwinPartitionPairs 2) ^ 2)%nat /\
  exists tuple,
    cartesianProduct (replicate 2 (generateTwinPartitionPairs 2)) !! 4%nat
      = Some tuple /\
    length tuple = 2%nat /\
    (forall q : nat, (q < 2)%nat ->
       tuple !! q
       = generateTwinPartitionPairs 2
           !! ((4 / length (generateTwinPartitionPairs 2) ^ (2 - 1 - q))
               mod length (generateTwinPartitionPairs 2))%nat) /\
    tuple !! (2 - 1)%nat
      = generateTwinPartitionPairs 2
          !! (4 mod length (generateTwinPartitionPairs 2))%nat.
Proof.
  apply (cartesianProduct_last_position_fastest 2 2 4).
  - lia.
  - lia.
  - vm_compute. lia.
Defined.

(** The first tuples for two pairs of twins in two partitions. *)
Example cartesianProduct_two_pairs :
  cartesianProduct (replicate 2 (generateTwinPartitionPairs 2))
  = [ [(0, 0); (0, 0)]; [(0, 0); (0, 1)]; [(0, 0); (1, 1)];
      [(0, 1); (0, 0)]; [(0, 1); (0, 1)]; [(0, 1); (1, 1)];
      [(1, 1); (0, 0)]; [(1, 1); (0, 1)]; [(1, 1); (1, 1)] ].
Proof. reflexivity. Qed.

(** ** Shuffle *)

Lemma swap_Ret {A : Type} (l l' : list A) (i j : Z) :
  swap l i j = Ret l' ->
  exists a b,
    0 <= i /\ 0 <= j /\
    l !! Z.to_nat i = Some a /\ l !! Z.to_nat j = Some b /\
    l' = <[Z.to_nat j := a]> (<[Z.to_nat i := b]> l).
Proof.
  unfold swap. intros H.
  bind_inv H as a Ha.
  bind_inv H as b Hb.
  bind_inv H as l1 H1.
  apply index_Ret in Ha as [Hi Ha]. apply index_Ret in Hb as [Hj Hb].
  apply store_Ret in H1 as (_ & _ & ->).
  apply store_Ret in H as (_ & _ & ->).
  exists a, b. auto.
Qed.

Lemma swap_in_range {A : Type} (l : list A) (i j : Z) (a b : A) :
  0 <= i -> 0 <= j ->
  l !! Z.to_nat i = Some a -> l !! Z.to_nat j = Some b ->
  swap l i j = Ret (<[Z.to_nat j := a]> (<[Z.to_nat i := b]> l)).
Proof.
  intros Hi Hj Ha Hb. unfold swap.
  assert (Hia : index l i = Ret a) by (apply index_Ret; auto).
  assert (Hjb : index l j = Ret b) by (apply index_Ret; auto).
  rewrite Hia, Hjb. cbn [mbind result_bind].
  apply lookup_lt_Some in Ha. apply lookup_lt_Some in Hb.
  rewrite store_in_range by auto. cbn [mbind result_bind].
  apply store_in_range; [auto|]. rewrite length_insert. exact Hb.
Qed.

Lemma swap_length {A : Type} (l l' : list A) (i j : Z) :
  swap l i j = Ret l' -> length l' = length l.
Proof.
  intros H. apply swap_Ret in H as (a & b & _ & _ & _ & _ & ->).
  rewrite !length_insert. reflexivity.
Qed.

(** Swapping the same two positions again restores the list. *)
Lemma swap_swap {A : Type} (l l' : list A) (i j : Z) :
  swap l i j = Ret l' -> swap l' i j = Ret l.
Proof.
  intros H. apply swap_Ret in H as (a & b & Hi & Hj & Ha & Hb & ->).
  pose proof (lookup_lt_Some _ _ _ Ha) as Hli.
  pose proof (lookup_lt_Some _ _ _ Hb) as Hlj.
  destruct (decide (Z.to_nat i = Z.to_nat j)) as [e|ne].
  - rewrite e in *. assert (a = b) as -> by congruence.
    rewrite list_insert_insert_eq, list_insert_id by exact Hb.
    rewrite (swap_in_range l i j b b) by (rewrite ?e; auto).
    rewrite e, list_insert_insert_eq, list_insert_id by exact Hb.
    reflexivity.
  - rewrite (swap_in_range _ i j b a); auto.
    + f_equal.
      rewrite (list_insert_insert_ne _ (Z.to_nat i) (Z.to_nat j)) by auto.
      rewrite !list_insert_insert_eq.
      rewrite (list_insert_id l (Z.to_nat i)) by exact Ha.
      apply list_insert_id. exact Hb.
    + rewrite list_lookup_insert_ne by auto.
      apply list_lookup_insert_eq. exact Hli.
    + apply list_lookup_insert_eq. rewrite length_insert. exact Hlj.
Qed.

Lemma applySwaps_length {A : Type} (sw : list (Z * Z)) : forall l l' : list A,
  applySwaps sw l = Ret l' -> length l' = length l.
Proof.
  induction sw as [|[i j] sw IH]; intros l l' H; simpl in H.
  - injection H as <-. reflexivity.
  - bind_inv H as l1 H1.
    rewrite (IH _ _ H). eapply swap_length, H1.
Qed.

(** A sequence of swaps is one-to-one on lists. *)
Lemma applySwaps_inj {A : Type} (sw : list (Z * Z)) : forall l1 l2 l' : list A,
  applySwaps sw l1 = Ret l' -> applySwaps sw l2 = Ret l' -> l1 = l2.
Proof.
  induction sw as [|[i j] sw IH]; intros l1 l2 l' H1 H2; simpl in *.
  - congruence.
  - bind_inv H1 as m1 S1.
    bind_inv H2 as m2 S2.
    pose proof (IH _ _ _ H1 H2) as ->.
    apply swap_swap in S1, S2. congruence.
Qed.

Section WithSource.

(** The source is arbitrary: nothing below depends on how it draws. *)
Variable R : RandSource.

Lemma shuffleLoop_swaps (count : nat) :
  forall (r : rng R) (l : list View),
  shuffleLoop R count r l
  = (l' ← applySwaps (shuffleSwaps R count r) l;
     Ret (l', shuffleRng R count r)).
Proof.
  induction count as [|count IH]; intros r l.
  - reflexivity.
  - cbn [shuffleLoop shuffleSwaps shuffleRng applySwaps].
    destruct (shuffleDraw R r (Z.of_nat (S count) + 1)) as [j r'] eqn:E.
    cbn [fst snd].
    destruct (swap l (Z.of_nat (S count)) j) as [l1| |]; cbn [mbind result_bind];
      [apply IH | reflexivity | reflexivity].
Qed.

Lemma drawOffsets_length (count : nat) :
  forall (r : rng R) (n : Z) (offs : list Z),
  drawOffsets R count r n = Ret offs -> length offs = count.
Proof.
  induction count as [|count IH]; intros r n offs H; simpl in H.
  - injection H as <-. reflexivity.
  - destruct (n <=? 0); [discriminate|].
    destruct (Intn R r n) as [v r'].
    bind_inv H as rest Hrest. injection H as <-.
    simpl. f_equal. eapply IH, Hrest.
Qed.

(** What [Shuffle] does, in terms of the swaps drawn for the seed. *)
Lemma Shuffle_Ret (seed : Z) (g g1 : Generator) :
  Shuffle R seed g = Ret g1 ->
  applySwaps
    (shuffleSwaps R (Z.to_nat (Z.of_nat (length (leadersPartitions g)) - 1))
       (NewSource R seed))
    (leadersPartitions g) = Ret (leadersPartitions g1) /\
  drawOffsets R (length (offsets g))
    (shuffleRng R (Z.to_nat (Z.of_nat (length (leadersPartitions g)) - 1))
       (NewSource R seed))
    (Z.of_nat (length (leadersPartitions g))) = Ret (offsets g1) /\
  allNodes g1 = allNodes g /\ rounds g1 = rounds g /\
  partitions g1 = partitions g /\ indices g1 = indices g.
Proof.
  unfold Shuffle. intros H.
  rewrite shuffleLoop_swaps in H.
  bind_inv H as [lp r1] H1.
  bind_inv H1 as lp' Hsw. injection H1 as <- <-.
  bind_inv H as offs Ho. injection H as <-.
  cbn [leadersPartitions offsets allNodes rounds partitions indices].
  rewrite (applySwaps_length _ _ _ Hsw) in Ho. repeat split; auto.
Qed.

(** C6 (as amended): calling [Shuffle(s)] a second time draws the same
    offsets again, and leaves the roster, the parameters and the indices
    alone, but it applies the same swaps to the already shuffled list: the
    list after two calls equals the list after one call exactly when
    [Shuffle(s)] did not change the list in the first place. *)
Theorem Shuffle_twice (seed : Z) (g g1 g2 : Generator) :
  Shuffle R seed g = Ret g1 ->
  Shuffle R seed g1 = Ret g2 ->
  offsets g2 = offsets g1 /\
  allNodes g2 = allNodes g1 /\ rounds g2 = rounds g1 /\
  partitions g2 = partitions g1 /\ indices g2 = indices g1 /\
  (leadersPartitions g2 = leadersPartitions g1 <->
   leadersPartitions g1 = leadersPartitions g).
Proof.
  intros H1 H2.
  apply Shuffle_Ret in H1 as (Hs1 & Ho1 & Ha1 & Hr1 & Hp1 & Hi1).
  apply Shuffle_Ret in H2 as (Hs2 & Ho2 & Ha2 & Hr2 & Hp2 & Hi2).
  pose proof (applySwaps_length _ _ _ Hs1) as Hl1.
  pose proof (drawOffsets_length _ _ _ _ Ho1) as Hlo.
  rewrite Hl1, Hlo in *.
  split; [congruence|]. do 4 (split; [assumption|]).
  split; intros E.
  - rewrite E in Hs2. eapply applySwaps_inj; eassumption.
  - rewrite E in Hs2. congruence.
Qed.

Lemma shuffleSwaps_bound (count : nat) :
  forall (r : rng R) (a b : Z),
  (a, b) ∈ shuffleSwaps R count r ->
  1 <= a <= Z.of_nat count /\ 0 <= b <= a.
Proof.
  induction count as [|count IH]; intros r a b H.
  - inversion H.
  - cbn [shuffleSwaps] in H. apply elem_of_cons in H as [[= -> ->]|H].
    + pose proof (shuffleDraw_range R r (Z.of_nat (S count) + 1) ltac:(lia)).
      lia.
    + apply IH in H. lia.
Qed.

(** Swaps below position [m] leave position [m] alone. *)
Lemma applySwaps_above {A : Type} (sw : list (Z * Z)) (m : nat) :
  forall l l' : list A,
  (forall a b, (a, b) ∈ sw -> 0 <= a < Z.of_nat m /\ 0 <= b < Z.of_nat m) ->
  applySwaps sw l = Ret l' -> l' !! m = l !! m.
Proof.
  induction sw as [|[i j] sw IH]; intros l l' Hsw H; simpl in H.
  - injection H as <-. reflexivity.
  - bind_inv H as l1 H1.
    destruct (Hsw i j ltac:(constructor)) as [Hi Hj].
    assert (Hrest : l' !! m = l1 !! m).
    { apply IH; [|exact H]. intros a b Hab. apply Hsw. constructor. exact Hab. }
    rewrite Hrest.
    apply swap_Ret in H1 as (x & y & _ & _ & _ & _ & ->).
    rewrite !list_lookup_insert_ne by lia. reflexivity.
Qed.

(** Whenever the first draw of [Rand.Shuffle] moves the last view spec of a
    list without repetitions, [Shuffle] changes the list, whatever the
    source. *)
Lemma Shuffle_moves_last (seed : Z) (g g1 : Generator) :
  NoDup (leadersPartitions g) ->
  2 <= Z.of_nat (length (leadersPartitions g)) ->
  fst (shuffleDraw R (NewSource R seed)
         (Z.of_nat (length (leadersPartitions g))))
    <> Z.of_nat (length (leadersPartitions g)) - 1 ->
  Shuffle R seed g = Ret g1 ->
  leadersPartitions g1 <> leadersPartitions g.
Proof.
  intros Hnd Hn Hdraw Hsh Heq.
  apply Shuffle_Ret in Hsh as (Hsw & _). rewrite Heq in Hsw.
  set (lp := leadersPartitions g) in *.
  destruct (Z.to_nat (Z.of_nat (length lp) - 1)) as [|c] eqn:Ec; [lia|].
  cbn [shuffleSwaps applySwaps] in Hsw.
  replace (Z.of_nat (S c) + 1) with (Z.of_nat (length lp)) in Hsw by lia.
  set (r0 := NewSource R seed) in *.
  pose proof (shuffleDraw_range R r0 (Z.of_nat (length lp)) ltac:(lia)) as Hj.
  set (j := fst (shuffleDraw R r0 (Z.of_nat (length lp)))) in *.
  apply bind_Ret_inv in Hsw as (l1 & H1 & Hrest).
  apply (applySwaps_above _ (S c)) in Hrest.
  2:{ intros a b Hab. apply shuffleSwaps_bound in Hab. lia. }
  apply swap_Ret in H1 as (x & y & _ & _ & Hx & Hy & ->).
  rewrite Nat2Z.id in *.
  rewrite list_lookup_insert_ne in Hrest by lia.
  rewrite list_lookup_insert_eq in Hrest by lia.
  assert (Hij : S c = Z.to_nat j)
    by (eapply NoDup_lookup; [exact Hnd|exact Hrest|exact Hy]).
  lia.
Qed.

End WithSource.

(** The source replays [math/rand]: with seed 1 the first [Int63] is
    5577006791947779410, and the first ten values of [Intn(100)] are
    81, 87, 47, 59, 81, 18, 25, 40, 56 and 0. *)
Example rand_seed1_Int63 :
  fst (rand.Int63 (rand.Seed 1)) = 5577006791947779410.
Proof. vm_compute. reflexivity. Qed.

Example rand_seed1_Intn :
  drawOffsets mathRand 10 (NewSource mathRand 1) 100
  = Ret [81; 87; 47; 59; 81; 18; 25; 40; 56; 0].
Proof. vm_compute. reflexivity. Qed.

(** The run used as example: the generator of [NewGenerator(2, 1, 1, 1)],
    whose list holds the two leaders of one partition scenario, shuffled
    twice with seed 2 on [math/rand].  With seed 2 the one draw of
    [Rand.Shuffle] is 0, which swaps the two view specs; with seed 1 it
    is 1, which leaves them in place. *)
Lemma run_shuffle_twice :
  exists g g1 g2,
    NewGenerator 10 2 1 1 1 = Ret g /\
    Shuffle mathRand 2 g = Ret g1 /\
    Shuffle mathRand 2 g1 = Ret g2 /\
    Leader <$> leadersPartitions g = [1; 2] /\
    Leader <$> leadersPartitions g1 = [2; 1] /\
    Leader <$> leadersPartitions g2 = [1; 2].
Proof.
  assert (Hc : (g ← NewGenerator 10 2 1 1 1;
                g1 ← Shuffle mathRand 2 g;
                g2 ← Shuffle mathRand 2 g1;
                Ret (Leader <$> leadersPartitions g,
                     Leader <$> leadersPartitions g1,
                     Leader <$> leadersPartitions g2))
               = Ret ([1; 2], [2; 1], [1; 2]))
    by by_evaluation.
  bind_inv Hc as g E.
  bind_inv Hc as g1 E1.
  bind_inv Hc as g2 E2.
  injection Hc as H0 H1 H2.
  exists g, g1, g2. auto 10.
Qed.

Lemma run_shuffle_seed1 :
  exists g g1,
    NewGenerator 10 2 1 1 1 = Ret g /\
    Shuffle mathRand 1 g = Ret g1 /\
    leadersPartitions g1 = leadersPartitions g.
Proof.
  assert (Hc : (g ← NewGenerator 10 2 1 1 1;
                g1 ← Shuffle mathRand 1 g;
                Ret (bool_decide
                       (leadersPartitions g1 = leadersPartitions g)))
               = Ret true)
    by by_evaluation.
  bind_inv Hc as g E.
  bind_inv Hc as g1 E1.
  injection Hc as Hc. apply bool_decide_eq_true in Hc.
  exists g, g1. auto.
Qed.

Lemma Shuffle_twice_witness :
  exists g g1 g2,
    NewGenerator 10 2 1 1 1 = Ret g /\
    Shuffle mathRand 2 g = Ret g1 /\
    Shuffle mathRand 2 g1 = Ret g2 /\
    offsets g2 = offsets g1 /\
    allNodes g2 = allNodes g1 /\ rounds g2 = rounds g1 /\
    partitions g2 = partitions g1 /\ indices g2 = indices g1 /\
    (leadersPartitions g2 = leadersPartitions g1 <->
     leadersPartitions g1 = leadersPartitions g).
Proof.
  destruct run_shuffle_twice as (g & g1 & g2 & E & E1 & E2 & _).
  exists g, g1, g2. split; [exact E|]. split; [exact E1|].
  split; [exact E2|].
  exact (Shuffle_twice mathRand 2 g g1 g2 E1 E2).
Defined.

(** C6, counterexample: on the generator of [NewGenerator(2, 1, 1, 1)] with
    seed 2, one call of [Shuffle] leaves the leaders in the order 2, 1 and
    a second call puts them back in the order 1, 2: the state after two
    calls is not the state after one. *)
Lemma Shuffle_not_idempotent :
  exists g g1 g2,
    NewGenerator 10 2 1 1 1 = Ret g /\
    Shuffle mathRand 2 g = Ret g1 /\
    Shuffle mathRand 2 g1 = Ret g2 /\
    Leader <$> leadersPartitions g1 = [2; 1] /\
    Leader <$> leadersPartitions g2 = [1; 2] /\
    leadersPartitions g2 <> leadersPartitions g1.
Proof.
  destruct run_shuffle_twice as (g & g1 & g2 & E & E1 & E2 & _ & H1 & H2).
  exists g, g1, g2. do 5 (split; [assumption|]).
  intros e. rewrite e, H1 in H2. discriminate.
Qed.

(** ** The partition sizes *)

Lemma min_Zmin a b : min a b = Z.min a b.
Proof. unfold min. destruct (Z.ltb_spec a b); lia. Qed.

Lemma store_app_mid {A : Type} (pre : list A) (x v : A) (rest : list A) :
  store (pre ++ x :: rest) (Z.of_nat (length pre)) v = Ret (pre ++ v :: rest).
Proof.
  rewrite store_in_range; [|lia|rewrite Nat2Z.id, length_app; simpl; lia].
  rewrite Nat2Z.id, insert_app_r_alt, Nat.sub_diag by lia. reflexivity.
Qed.

Lemma index_app_l {A : Type} (pre rest : list A) (i : nat) (a : A) :
  pre !! i = Some a -> index (pre ++ rest) (Z.of_nat i) = Ret a.
Proof.
  intros H. apply index_Ret. split; [lia|].
  rewrite Nat2Z.id. apply lookup_app_l_Some. exact H.
Qed.

Lemma flat_map_nil_body {A B : Type} (l : list A) :
  flat_map (fun _ : A => @nil B) l = [].
Proof. induction l; simpl; auto. Qed.

Lemma downFrom_pos (m : Z) :
  1 <= m -> downFrom (Z.to_nat m) = m :: downFrom (Z.to_nat (m - 1)).
Proof.
  intros Hm. replace (Z.to_nat m) with (S (Z.to_nat (m - 1))) by lia.
  cbn [downFrom]. f_equal. lia.
Qed.

(** With fuel for [257] steps per slot, the recursion and its loop return,
    and what they append is the enumeration [sizeTails] behind the slots
    already fixed. *)
Lemma genPartitionSizes_fuel (fuel : nat) :
  (forall (pre : list Z) (d : nat) (n bound : Z) (sizes : list (list Z)),
     (1 <= d)%nat -> (length pre + d <= 255)%nat -> 0 <= n <= 255 ->
     match length pre with
     | O => bound = 255
     | S i' => pre !! i' = Some bound /\ 0 <= bound <= 255
     end ->
     (257 * d <= fuel)%nat ->
     genPartitionSizesRecursive fuel (Z.of_nat (length pre)) n 1
       (pre ++ replicate d 0) sizes
     = Ret (sizes ++ map (app pre) (sizeTails d bound n))) /\
  (forall (pre : list Z) (d : nat) (n m x : Z) (sizes : list (list Z)),
     (2 <= d)%nat -> (length pre + d <= 255)%nat -> 0 <= n <= 255 ->
     0 <= m <= 255 ->
     (257 * (d - 1) + Z.to_nat m + 1 <= fuel)%nat ->
     genPartitionSizesLoop fuel (Z.of_nat (length pre)) n 1 m
       (pre ++ x :: replicate (d - 1) 0) sizes
     = Ret (sizes ++ map (app pre)
              (flat_map (fun m' => map (cons m')
                                     (sizeTails (d - 1) m' (wrap8 (n - m'))))
                        (downFrom (Z.to_nat m))))).
Proof.
  induction fuel as [|fuel [IHrec IHloop]]; [split; intros; lia|].
  split.
  - intros pre d n bound sizes Hd Hlen Hn Hprev Hfuel.
    destruct d as [|d']; [lia|].
    cbn [genPartitionSizesRecursive replicate sizeTails].
    rewrite store_app_mid. cbn [mbind result_bind].
    assert (Hprev' :
      (if Z.of_nat (length pre) =? 0 then Ret 0
       else index (pre ++ n :: replicate d' 0) (Z.of_nat (length pre) - 1))
      = Ret (if Z.of_nat (length pre) =? 0 then 0 else bound)).
    { destruct (length pre) as [|i'] eqn:Ei; [reflexivity|].
      destruct (Z.eqb_spec (Z.of_nat (S i')) 0); [lia|].
      replace (Z.of_nat (S i') - 1) with (Z.of_nat i') by lia.
      apply index_app_l. apply Hprev. }
    rewrite Hprev'. cbn [mbind result_bind]. clear Hprev'.
    rewrite (wrap8_small (Z.of_nat (length pre) + 1)) by lia.
    rewrite length_app. cbn [length]. rewrite length_replicate.
    pose proof (Z.mod_pos_bound (n - 1) 256 ltac:(lia)) as Hw.
    fold (wrap8 (n - 1)) in Hw.
    set (m0 := Z.min (wrap8 (n - 1)) bound).
    assert (Hm0 : (if 0 <? Z.of_nat (length pre)
                   then min (wrap8 (n - 1))
                          (if Z.of_nat (length pre) =? 0 then 0 else bound)
                   else wrap8 (n - 1)) = m0).
    { unfold m0. destruct (length pre) as [|i'] eqn:Ei.
      - simpl. subst bound. lia.
      - destruct (Z.ltb_spec 0 (Z.of_nat (S i'))); [|lia].
        destruct (Z.eqb_spec (Z.of_nat (S i')) 0); [lia|].
        apply min_Zmin. }
    rewrite Hm0. clear Hm0.
    assert (Hemit :
      (if (Z.of_nat (length pre) =? 0)
          || (n <=? (if Z.of_nat (length pre) =? 0 then 0 else bound))
       then sizes ++ [pre ++ n :: replicate d' 0] else sizes)
      = sizes ++ map (app pre)
                   (if n <=? bound then [n :: replicate d' 0] else [])).
    { destruct (length pre) as [|i'] eqn:Ei.
      - simpl. subst bound. destruct (Z.leb_spec n 255); [reflexivity|lia].
      - destruct (Z.eqb_spec (Z.of_nat (S i')) 0); [lia|]. simpl.
        destruct (n <=? bound); simpl; [reflexivity|].
        rewrite app_nil_r. reflexivity. }
    rewrite Hemit. clear Hemit.
    assert (Hm0r : 0 <= m0 <= 255).
    { unfold m0. destruct (length pre) as [|i']; [subst bound|]; lia. }
    destruct (Z.ltb_spec (Z.of_nat (length pre) + 1)
                (Z.of_nat (length pre + S d'))) as [Hlt|Hge].
    + pose proof (IHloop pre (S d') n m0 n) as HL.
      replace (S d' - 1)%nat with d' in HL by lia.
      rewrite HL by lia.
      rewrite List.map_app, app_assoc. reflexivity.
    + assert (d' = 0%nat) as -> by lia. cbn [sizeTails map].
      rewrite flat_map_nil_body, app_nil_r. reflexivity.
  - intros pre d n m x sizes Hd Hlen Hn Hm Hfuel.
    cbn [genPartitionSizesLoop].
    destruct (Z.le_gt_cases 1 m) as [Hpos|Hzero].
    + assert (Hcond :
        ((Z.of_nat (length pre) =? 0) && (1 <=? m)
         || negb (Z.of_nat (length pre) =? 0) && (0 <? m)) = true).
      { destruct (Z.of_nat (length pre) =? 0); simpl; lia. }
      rewrite Hcond. clear Hcond.
      rewrite store_app_mid. cbn [mbind result_bind].
      rewrite (wrap8_small (Z.of_nat (length pre) + 1)) by lia.
      rewrite (wrap8_small (m - 1)) by lia.
      pose proof (Z.mod_pos_bound (n - m) 256 ltac:(lia)) as Hw.
      fold (wrap8 (n - m)) in Hw.
      replace (pre ++ m :: replicate (d - 1) 0)
        with ((pre ++ [m]) ++ replicate (d - 1) 0)
        by (rewrite <- app_assoc; reflexivity).
      replace (Z.of_nat (length pre) + 1)
        with (Z.of_nat (length (pre ++ [m])))
        by (rewrite length_app; simpl; lia).
      rewrite (IHrec (pre ++ [m]) (d - 1)%nat (wrap8 (n - m)) m).
      * cbn [mbind result_bind].
        replace ((pre ++ [m]) ++ replicate (d - 1) 0)
          with (pre ++ m :: replicate (d - 1) 0)
          by (rewrite <- app_assoc; reflexivity).
        replace (Z.of_nat (length (pre ++ [m])))
          with (Z.of_nat (length pre) + 1)
          by (rewrite length_app; simpl; lia).
        replace (Z.of_nat (length pre) + 1 - 1)
          with (Z.of_nat (length pre)) by lia.
        rewrite (IHloop pre d n (m - 1) m) by lia.
        rewrite (downFrom_pos m Hpos). cbn [flat_map].
        f_equal. rewrite <- app_assoc. f_equal.
        rewrite List.map_app. f_equal.
        rewrite List.map_map. apply List.map_ext. intros t.
        rewrite <- app_assoc. reflexivity.
      * lia.
      * rewrite length_app. simpl. lia.
      * lia.
      * rewrite length_app. simpl.
        replace (length pre + 1)%nat with (S (length pre)) by lia.
        split; [|lia]. rewrite lookup_app_r by lia.
        rewrite Nat.sub_diag. reflexivity.
      * lia.
    + assert (m = 0) as -> by lia.
      assert (Hcond :
        ((Z.of_nat (length pre) =? 0) && (1 <=? 0)
         || negb (Z.of_nat (length pre) =? 0) && (0 <? 0)) = false).
      { destruct (Z.of_nat (length pre) =? 0); reflexivity. }
      rewrite Hcond. simpl. rewrite app_nil_r. reflexivity.
Qed.

Lemma genPartitionSizes_Ret (fuel : nat) (n k : Z) :
  0 <= n <= 255 -> 1 <= k <= 255 -> (257 * Z.to_nat k <= fuel)%nat ->
  genPartitionSizes fuel n k 1 = Ret (sizeTails (Z.to_nat k) 255 n).
Proof.
  intros Hn Hk Hfuel. unfold genPartitionSizes.
  pose proof (proj1 (genPartitionSizes_fuel fuel) [] (Z.to_nat k) n 255 [])
    as Hrec.
  cbn [length app] in Hrec. change (Z.of_nat 0) with 0 in Hrec.
  rewrite Hrec by (auto; lia).
  f_equal. rewrite <- (List.map_id (sizeTails _ _ _)) at 2.
  apply List.map_ext. reflexivity.
Qed.

Lemma elem_of_map_cons (m : Z) (T : list (list Z)) (v : list Z) :
  v ∈ map (cons m) T <-> exists t, v = m :: t /\ t ∈ T.
Proof.
  induction T as [|t0 T IH]; simpl.
  - split; [intros H; inversion H | intros (t & _ & H); inversion H].
  - rewrite elem_of_cons, IH. split.
    + intros [->|(t & -> & Ht)]; eexists; split; eauto; constructor; auto.
    + intros (t & -> & Ht). apply elem_of_cons in Ht as [->|Ht]; eauto.
Qed.

Lemma elem_of_flat_map_cons (F : Z -> list (list Z)) (ms : list Z)
    (v : list Z) :
  v ∈ flat_map (fun m => map (cons m) (F m)) ms
  <-> exists m t, v = m :: t /\ m ∈ ms /\ t ∈ F m.
Proof.
  induction ms as [|m0 ms IH]; simpl.
  - split; [intros H; inversion H | intros (m & t & _ & H & _); inversion H].
  - rewrite elem_of_app, elem_of_map_cons, IH. split.
    + intros [(t & -> & Ht)|(m & t & -> & Hm & Ht)].
      * exists m0, t. split; [reflexivity|]. split; [constructor|exact Ht].
      * exists m, t. split; [reflexivity|]. split; [constructor|]; assumption.
    + intros (m & t & -> & Hm & Ht).
      apply elem_of_cons in Hm as [->|Hm]; [left|right]; eauto.
Qed.

Lemma NoDup_map_cons (m : Z) (T : list (list Z)) :
  NoDup T -> NoDup (map (cons m) T).
Proof.
  induction 1 as [|t T Hnotin Hnd IH]; simpl; constructor; auto.
  rewrite elem_of_map_cons. intros (t' & [= ->] & Ht'). contradiction.
Qed.

Lemma NoDup_flat_map_cons (F : Z -> list (list Z)) (ms : list Z) :
  NoDup ms -> (forall m, m ∈ ms -> NoDup (F m)) ->
  NoDup (flat_map (fun m => map (cons m) (F m)) ms).
Proof.
  induction 1 as [|m ms Hnotin Hnd IH]; intros HF; simpl; [constructor|].
  apply list.NoDup_app. split; [|split].
  - apply NoDup_map_cons, HF. constructor.
  - intros v Hv1 Hv2.
    apply elem_of_map_cons in Hv1 as (t & -> & _).
    apply elem_of_flat_map_cons in Hv2 as (m' & t' & [= <- <-] & Hm' & _).
    contradiction.
  - apply IH. intros m' Hm'. apply HF. constructor. exact Hm'.
Qed.

Lemma elem_of_downFrom (c : nat) (m : Z) :
  m ∈ downFrom c <-> 1 <= m <= Z.of_nat c.
Proof.
  induction c as [|c IH]; simpl.
  - split; [intros H; inversion H | lia].
  - rewrite elem_of_cons, IH. lia.
Qed.

Lemma NoDup_downFrom (c : nat) : NoDup (downFrom c).
Proof.
  induction c as [|c IH]; simpl; constructor; auto.
  rewrite elem_of_downFrom. lia.
Qed.

Lemma sumZ_replicate_0 (d : nat) : sumZ (replicate d 0) = 0.
Proof. induction d as [|d IH]; simpl; auto. Qed.

Lemma non_increasing_cons (a : Z) (t : list Z) :
  (forall x, t !! 0%nat = Some x -> x <= a) -> non_increasing t ->
  non_increasing (a :: t).
Proof.
  intros Hhd Ht [|i] x y Hx Hy; simpl in *.
  - injection Hx as <-. apply Hhd. exact Hy.
  - eapply Ht; eassumption.
Qed.

Lemma non_increasing_replicate_0 (d : nat) : non_increasing (replicate d 0).
Proof.
  intros i a b Ha Hb.
  apply lookup_replicate in Ha as [-> _].
  apply lookup_replicate in Hb as [-> _]. lia.
Qed.

Lemma sizeTails_ok (d : nat) : forall (bound n : Z),
  1 <= n <= 255 ->
  (forall t, t ∈ sizeTails d bound n -> sizeTail_ok d bound n t) /\
  NoDup (sizeTails d bound n).
Proof.
  induction d as [|d IH]; intros bound n Hn.
  - simpl. split; [intros t H; inversion H | constructor].
  - cbn [sizeTails]. rewrite (wrap8_small (n - 1)) by lia.
    set (ms := downFrom (Z.to_nat (Z.min (n - 1) bound))).
    assert (Hms : forall m, m ∈ ms -> 1 <= m /\ m <= n - 1 /\ m <= bound).
    { intros m Hm. apply elem_of_downFrom in Hm. lia. }
    assert (Hemit : forall t,
      t ∈ (if n <=? bound then [n :: replicate d 0] else []) ->
      t = n :: replicate d 0 /\ n <= bound).
    { intros t Ht. destruct (Z.leb_spec n bound); [|inversion Ht].
      apply list_elem_of_singleton in Ht. auto. }
    split.
    + intros t Ht. apply elem_of_app in Ht as [Ht|Ht].
      * apply Hemit in Ht as [-> Hb]. unfold sizeTail_ok.
        split; [simpl; rewrite length_replicate; reflexivity|].
        split; [simpl; rewrite sumZ_replicate_0; lia|].
        split.
        { apply non_increasing_cons; [|apply non_increasing_replicate_0].
          intros x Hx. apply lookup_replicate in Hx as [-> _]. lia. }
        split.
        { intros x Hx. apply elem_of_cons in Hx as [->|Hx]; [lia|].
          apply elem_of_replicate in Hx as [-> _]. lia. }
        exists n. simpl. split; [reflexivity|lia].
      * apply elem_of_flat_map_cons in Ht as (m & t' & -> & Hm & Ht').
        apply Hms in Hm as (Hm1 & Hm2 & Hm3).
        rewrite (wrap8_small (n - m)) in Ht' by lia.
        destruct (IH m (n - m) ltac:(lia)) as [Hok _].
        destruct (Hok t' Ht') as (Hl & Hs & Hni & Hnn & x & Hx & Hx1 & Hx2 & Hx3).
        unfold sizeTail_ok.
        split; [simpl; lia|]. split; [simpl; fold (sumZ t'); lia|].
        split.
        { apply non_increasing_cons; [|exact Hni].
          intros y Hy. rewrite Hx in Hy. injection Hy as <-. exact Hx2. }
        split.
        { intros y Hy. apply elem_of_cons in Hy as [->|Hy]; [lia|].
          apply Hnn in Hy. lia. }
        exists m. simpl. split; [reflexivity|lia].
    + apply list.NoDup_app. split; [|split].
      * destruct (n <=? bound); [apply NoDup_singleton|constructor].
      * intros t Ht1 Ht2. apply Hemit in Ht1 as [-> _].
        apply elem_of_flat_map_cons in Ht2 as (m & t' & [= <- _] & Hm & _).
        apply Hms in Hm. lia.
      * apply NoDup_flat_map_cons; [apply NoDup_downFrom|].
        intros m Hm. apply Hms in Hm.
        rewrite (wrap8_small (n - m)) by lia. apply IH. lia.
Qed.

(** C8: for [1 <= n <= 255], [1 <= k <= 255] and [minSize = 1] the
    enumerator returns (given [257] units of fuel per slot) a list of size
    vectors of length [k] in which every vector is non-increasing, has no
    negative entry, sums to [n] and starts with an entry of at least
    [minSize = 1], and in which no vector occurs twice. *)
Theorem genPartitionSizes_sound (n k : Z) :
  1 <= n <= 255 -> 1 <= k <= 255 ->
  exists sizes,
    (forall fuel, (257 * Z.to_nat k <= fuel)%nat ->
       genPartitionSizes fuel n k 1 = Ret sizes) /\
    (forall s, s ∈ sizes ->
       length s = Z.to_nat k /\ non_increasing s /\
       (forall x, x ∈ s -> 0 <= x) /\ sumZ s = n /\
       exists x, s !! 0%nat = Some x /\ 1 <= x) /\
    NoDup sizes.
Proof.
  intros Hn Hk. exists (sizeTails (Z.to_nat k) 255 n).
  destruct (sizeTails_ok (Z.to_nat k) 255 n ltac:(lia)) as [Hok Hnd].
  split; [|split].
  - intros fuel Hfuel. apply genPartitionSizes_Ret; [lia|assumption..].
  - intros s Hs.
    destruct (Hok s Hs) as (Hl & Hsum & Hni & Hnn & x & Hx & Hx1 & _).
    split; [exact Hl|]. split; [exact Hni|].
    split; [intros y Hy; apply Hnn in Hy; lia|].
    split; [exact Hsum|]. eauto.
  - exact Hnd.
Qed.

Lemma genPartitionSizes_sound_witness :
  genPartitionSizes 600 6 2 1 = Ret [[6; 0]; [5; 1]; [4; 2]; [3; 3]] /\
  exists sizes,
    (forall fuel, (257 * Z.to_nat 2 <= fuel)%nat ->
       genPartitionSizes fuel 6 2 1 = Ret sizes) /\
    (forall s, s ∈ sizes ->
       length s = Z.to_nat 2 /\ non_increasing s /\
       (forall x, x ∈ s -> 0 <= x) /\ sumZ s = 6 /\
       exists x, s !! 0%nat = Some x /\ 1 <= x) /\
    NoDup sizes.
Proof.
  split; [vm_compute; reflexivity|].
  apply (genPartitionSizes_sound 6 2); lia.
Defined.

(** With [n = 0] the loop variable starts from [0 - 1 = 255]: besides the
    all-zero vector, the vectors listed sum to 256. *)
Lemma sizeTails_zero (d : nat) (t : list Z) :
  t ∈ sizeTails d 255 0 ->
  length t = d /\ (forall x, x ∈ t -> 0 <= x <= 255) /\
  (sumZ t = 0 \/ sumZ t = 256).
Proof.
  destruct d as [|d]; [intros H; inversion H|].
  cbn [sizeTails]. change (0 <=? 255) with true. cbv iota.
  change (Z.to_nat (Z.min (wrap8 (0 - 1)) 255)) with 255%nat.
  intros Ht. apply elem_of_app in Ht as [Ht|Ht].
  - apply list_elem_of_singleton in Ht as ->.
    split; [simpl; rewrite length_replicate; reflexivity|].
    split.
    + intros x Hx. apply elem_of_cons in Hx as [->|Hx]; [lia|].
      apply elem_of_replicate in Hx as [-> _]. lia.
    + left. simpl. apply sumZ_replicate_0.
  - apply elem_of_flat_map_cons in Ht as (m & t' & -> & Hm & Ht').
    apply elem_of_downFrom in Hm.
    replace (wrap8 (0 - m)) with (256 - m) in Ht'
      by (unfold wrap8; rewrite <- (Z.mod_add (0 - m) 1 256) by lia;
          rewrite Z.mod_small; lia).
    destruct (sizeTails_ok d m (256 - m) ltac:(lia)) as [Hok _].
    destruct (Hok t' Ht') as (Hl & Hs & _ & Hnn & _).
    split; [simpl; lia|]. split.
    + intros x Hx. apply elem_of_cons in Hx as [->|Hx]; [lia|].
      apply Hnn in Hx. lia.
    + right. simpl. fold (sumZ t'). lia.
Qed.

(** What the scenario builder needs of an enumerated size vector. *)
Lemma sizeTails_top (k : nat) (n : Z) (sz : list Z) :
  0 <= n <= 255 -> sz ∈ sizeTails k 255 n ->
  length sz = k /\ (forall x, x ∈ sz -> 0 <= x <= 255) /\
  (sumZ sz = n \/ (n = 0 /\ sumZ sz = 256)).
Proof.
  intros Hn Hsz. destruct (Z.eq_dec n 0) as [->|Hne].
  - apply sizeTails_zero in Hsz as (Hl & Hr & [Hs|Hs]); auto.
  - destruct (sizeTails_ok k 255 n ltac:(lia)) as [Hok _].
    destruct (Hok sz Hsz) as (Hl & Hs & _ & Hnn & _). auto.
Qed.

(** ** Building one partition scenario *)

Lemma sumZ_insert (l : list Z) (i : nat) (r v : Z) :
  l !! i = Some r -> sumZ (<[i := v]> l) = sumZ l - r + v.
Proof.
  revert i. induction l as [|a l IH]; intros [|i] H; simpl in *;
    try discriminate.
  - injection H as ->. lia.
  - fold (sumZ (<[i := v]> l)). fold (sumZ l). rewrite (IH i H). lia.
Qed.

Lemma sumZ_nonneg (l : list Z) : Forall (fun x => 0 <= x) l -> 0 <= sumZ l.
Proof. induction 1 as [|a l Ha Hl IH]; simpl; [lia|]. fold (sumZ l). lia. Qed.

Lemma sumZ_lookup_le (l : list Z) (i : nat) (r : Z) :
  Forall (fun x => 0 <= x) l -> l !! i = Some r -> r <= sumZ l.
Proof.
  intros H. revert i. induction H as [|a l Ha Hl IH]; intros [|i] Hi;
    simpl in *; try discriminate; fold (sumZ l).
  - injection Hi as ->. pose proof (sumZ_nonneg l Hl). lia.
  - specialize (IH i Hi). lia.
Qed.

(** Placing a node that is not yet placed into a slot with capacity
    left. *)
Lemma building_add (sz : list Z) (parts : list NodeSet) (cap : list Z)
    (used : gset NodeID) (i : nat) (r : Z) (x : NodeID) :
  building sz parts cap used ->
  cap !! i = Some r -> r <> 0 -> x ∉ used ->
  exists p p',
    parts !! i = Some p /\
    NodeSet_Add p x = Ret p' /\
    building sz (<[i := p']> parts) (<[i := r - 1]> cap) ({[x]} ∪ used).
Proof.
  intros [Hpl Hcl Hsz Hdj Hus Hsum] Hr Hr0 Hx.
  pose proof (lookup_lt_Some _ _ _ Hr) as Hi.
  destruct (lookup_lt_is_Some_2 parts i ltac:(lia)) as [p Hp].
  destruct (lookup_lt_is_Some_2 sz i ltac:(lia)) as [c Hc].
  destruct (Hsz i c r p Hc Hp Hr) as (Hr1 & Hrc & Hc255 & Hnone).
  destruct p as [s|]; [|specialize (Hnone eq_refl); simpl in Hrc; lia].
  assert (Hxs : x ∉ s).
  { intros Hin. apply Hx, Hus. exists i, (Some s). auto. }
  exists (Some s), (Some ({[x]} ∪ s)).
  split; [exact Hp|]. split; [reflexivity|].
  constructor.
  - rewrite length_insert. exact Hpl.
  - rewrite length_insert. exact Hcl.
  - intros j c' r' p' Hc' Hp' Hr'.
    destruct (decide (i = j)) as [<-|Hne].
    + rewrite list_lookup_insert_eq in Hp' by lia.
      rewrite list_lookup_insert_eq in Hr' by lia.
      injection Hp' as <-. injection Hr' as <-.
      assert (c' = c) as -> by congruence.
      simpl in *.
      rewrite size_union by (apply disjoint_singleton_l; exact Hxs).
      rewrite size_singleton.
      split; [lia|]. split; [lia|]. split; [lia|]. discriminate.
    + rewrite list_lookup_insert_ne in Hp' by exact Hne.
      rewrite list_lookup_insert_ne in Hr' by exact Hne.
      eapply Hsz; eassumption.
  - intros a b pa pb Hab Hpa Hpb.
    assert (Hother : forall (j : nat) (q : NodeSet),
              i <> j -> parts !! j = Some q ->
              ({[x]} ∪ s) ## NodeSet_members q).
    { intros j q Hij Hq.
      pose proof (Hdj i j (Some s) q Hij Hp Hq) as Hd. simpl in Hd.
      assert (Hxq : x ∉ NodeSet_members q).
      { intros Hin. apply Hx, Hus. exists j, q. auto. }
      apply disjoint_union_l. split; [|exact Hd].
      apply disjoint_singleton_l. exact Hxq. }
    destruct (decide (i = a)) as [<-|Hia];
      destruct (decide (i = b)) as [<-|Hib]; [contradiction| | |].
    + rewrite list_lookup_insert_eq in Hpa by lia.
      rewrite list_lookup_insert_ne in Hpb by exact Hib.
      injection Hpa as <-. simpl. eapply Hother; eassumption.
    + rewrite list_lookup_insert_ne in Hpa by exact Hia.
      rewrite list_lookup_insert_eq in Hpb by lia.
      injection Hpb as <-. simpl.
      pose proof (Hother a pa Hia Hpa) as Hd.
      apply elem_of_disjoint. intros y Hy1 Hy2.
      apply elem_of_disjoint in Hd. exact (Hd y Hy2 Hy1).
    + rewrite list_lookup_insert_ne in Hpa by exact Hia.
      rewrite list_lookup_insert_ne in Hpb by exact Hib.
      exact (Hdj a b pa pb Hab Hpa Hpb).
  - intros y. rewrite elem_of_union, elem_of_singleton, Hus. split.
    + intros [->|(j & q & Hq & Hy)].
      * exists i, (Some ({[x]} ∪ s)).
        rewrite list_lookup_insert_eq by lia. split; [reflexivity|].
        simpl. apply elem_of_union_l, elem_of_singleton. reflexivity.
      * destruct (decide (i = j)) as [<-|Hne].
        -- exists i, (Some ({[x]} ∪ s)).
           rewrite list_lookup_insert_eq by lia. split; [reflexivity|].
           assert (q = Some s) as -> by congruence.
           simpl in *. apply elem_of_union_r. exact Hy.
        -- exists j, q. rewrite list_lookup_insert_ne by exact Hne. auto.
    + intros (j & q & Hq & Hy).
      destruct (decide (i = j)) as [<-|Hne].
      * rewrite list_lookup_insert_eq in Hq by lia. injection Hq as <-.
        simpl in Hy. apply elem_of_union in Hy as [Hy|Hy].
        -- left. apply elem_of_singleton in Hy. exact Hy.
        -- right. exists i, (Some s). auto.
      * rewrite list_lookup_insert_ne in Hq by exact Hne.
        right. exists j, q. auto.
  - rewrite (sumZ_insert _ _ r) by exact Hr.
    rewrite size_union by (apply disjoint_singleton_l; exact Hx).
    rewrite size_singleton. lia.
Qed.

Lemma allocPartitions_app (sz : list Z) : forall done : list NodeSet,
  allocPartitions sz (Z.of_nat (length done))
    (done ++ replicate (length sz) None)
  = Ret (done ++ map freshSlot sz).
Proof.
  induction sz as [|c sz IH]; intros done.
  - reflexivity.
  - cbn [allocPartitions length replicate map].
    assert (Hst :
      (if 0 <? c
       then store (done ++ None :: replicate (length sz) None)
              (Z.of_nat (length done)) (Some ∅)
       else Ret (done ++ None :: replicate (length sz) None))
      = Ret ((done ++ [freshSlot c]) ++ replicate (length sz) None)).
    { unfold freshSlot. rewrite <- app_assoc.
      destruct (0 <? c); [apply store_app_mid|reflexivity]. }
    rewrite Hst. cbn [mbind result_bind].
    replace (Z.of_nat (length done) + 1)
      with (Z.of_nat (length (done ++ [freshSlot c])))
      by (rewrite length_app; simpl; lia).
    rewrite IH, <- app_assoc. reflexivity.
Qed.

Lemma allocPartitions_Ret (k : Z) (sz : list Z) :
  length sz = Z.to_nat k ->
  allocPartitions sz 0 (replicate (Z.to_nat k) None)
  = Ret (map freshSlot sz).
Proof. intros <-. apply (allocPartitions_app sz []). Qed.

Lemma lookup_map_Some {A B : Type} (f : A -> B) (l : list A) (i : nat) (b : B) :
  map f l !! i = Some b -> exists a, l !! i = Some a /\ b = f a.
Proof.
  rewrite lookup_map. destruct (l !! i) as [a|]; simpl; [|discriminate].
  intros [= <-]. eauto.
Qed.

Lemma building_start (sz : list Z) :
  (forall c, c ∈ sz -> 0 <= c <= 255) ->
  building sz (map freshSlot sz) sz ∅.
Proof.
  intros Hsz.
  assert (Hmem : forall (i : nat) (p : NodeSet),
            map freshSlot sz !! i = Some p -> NodeSet_members p = ∅).
  { intros i p Hp. apply lookup_map_Some in Hp as (c & _ & ->).
    unfold freshSlot. destruct (0 <? c); reflexivity. }
  constructor.
  - apply length_map.
  - reflexivity.
  - intros i c r p Hc Hp Hr.
    apply lookup_map_Some in Hp as (c' & Hc' & ->).
    assert (c' = c) as -> by congruence.
    assert (r = c) as -> by congruence.
    pose proof (Hsz c (list_elem_of_lookup_2 _ _ _ Hc)) as Hcr.
    unfold freshSlot. destruct (Z.ltb_spec 0 c); cbn [NodeSet_len].
    + rewrite size_empty. split; [lia|]. split; [lia|]. split; [lia|].
      discriminate.
    + split; [lia|]. split; [lia|]. split; lia.
  - intros i j p q _ Hp Hq.
    rewrite (Hmem i p Hp). apply disjoint_empty_l.
  - intros x. split; [intros H; apply not_elem_of_empty in H; contradiction|].
    intros (i & p & Hp & Hx). rewrite (Hmem i p Hp) in Hx. exact Hx.
  - rewrite size_empty. lia.
Qed.

Lemma placeTwin_Some (len : nat) (ps ps1 : list Z) (x : Z) :
  placeTwin len ps x = Some ps1 ->
  exists c, x < Z.of_nat len /\ ps !! Z.to_nat x = Some c /\ c <> 0 /\
            ps1 = <[Z.to_nat x := wrap8 (c - 1)]> ps.
Proof.
  unfold placeTwin.
  destruct (Z.leb_spec (Z.of_nat len) x); [discriminate|].
  destruct (ps !! Z.to_nat x) as [c|]; [|discriminate].
  destruct (Z.eqb_spec c 0); [discriminate|].
  intros [= <-]. eauto.
Qed.

(** One twin goes where the feasibility filter has reserved its place. *)
Lemma addTwin_building (sz : list Z) (parts : list NodeSet) (cap cap1 : list Z)
    (used : gset NodeID) (t : Z) (x : NodeID) (twins : list NodeID) :
  building sz parts cap used ->
  0 <= t -> placeTwin (length sz) cap t = Some cap1 -> x ∉ used ->
  exists parts1,
    addTwin parts t (x :: twins) = Ret (parts1, twins) /\
    building sz parts1 cap1 ({[x]} ∪ used).
Proof.
  intros Hb Ht Hplace Hx.
  apply placeTwin_Some in Hplace as (r & Hlt & Hr & Hr0 & ->).
  destruct (building_add _ _ _ _ _ _ x Hb Hr Hr0 Hx) as (p & p' & Hp & Hadd & Hb').
  pose proof (lookup_lt_Some _ _ _ Hp) as Hi.
  pose proof (lookup_lt_Some _ _ _ Hr) as Hi'.
  destruct (lookup_lt_is_Some_2 sz (Z.to_nat t)) as [c Hc];
    [rewrite <- (bld_cap_length _ _ _ _ Hb); exact Hi'|].
  destruct (bld_sizes _ _ _ _ Hb _ _ _ _ Hc Hp Hr) as (Hr1 & Hrc & Hc255 & _).
  rewrite (wrap8_small (r - 1)) by lia.
  exists (<[Z.to_nat t := p']> parts). split; [|exact Hb'].
  unfold addTwin.
  assert (Hix : index parts t = Ret p) by (apply index_Ret; auto).
  rewrite Hix. cbn [mbind result_bind]. rewrite Hadd. cbn [mbind result_bind].
  rewrite store_in_range by auto. reflexivity.
Qed.

Lemma placeTwins_building (sz : list Z) (ta : list twinAssignment) :
  forall (parts : list NodeSet) (cap : list Z) (used : gset NodeID)
         (twins : list NodeID),
  building sz parts cap used ->
  Forall (fun ab : twinAssignment => 0 <= fst ab /\ 0 <= snd ab) ta ->
  isValidLoop (length sz) ta cap = true ->
  length twins = (2 * length ta)%nat ->
  NoDup twins -> (forall x, x ∈ twins -> x ∉ used) ->
  exists parts' cap',
    placeTwins ta parts twins = Ret parts' /\
    building sz parts' cap' (list_to_set twins ∪ used).
Proof.
  induction ta as [|[a b] ta IH];
    intros parts cap used twins Hb Hnn Hvalid Hlen Hnd Hfresh.
  - destruct twins; [|simpl in Hlen; lia]. exists parts, cap.
    split; [reflexivity|]. simpl.
    replace (∅ ∪ used) with used; [exact Hb|].
    apply set_eq. intros z. rewrite elem_of_union.
    split; [auto|]. intros [H|H]; [|exact H].
    apply not_elem_of_empty in H. contradiction.
  - destruct twins as [|x [|y twins]]; [simpl in Hlen; lia..|].
    pose proof (Forall_inv Hnn) as [Ha0 Hb0]. simpl in Ha0, Hb0.
    apply Forall_inv_tail in Hnn.
    cbn [isValidLoop] in Hvalid.
    destruct (placeTwin (length sz) cap a) as [cap1|] eqn:E1; [|discriminate].
    destruct (placeTwin (length sz) cap1 b) as [cap2|] eqn:E2; [|discriminate].
    apply list.NoDup_cons in Hnd as [Hxy Hnd].
    apply list.NoDup_cons in Hnd as [Hy Hnd].
    destruct (addTwin_building _ _ _ _ _ _ x (y :: twins) Hb Ha0 E1)
      as (parts1 & Hadd1 & Hb1).
    { apply Hfresh. constructor. }
    destruct (addTwin_building _ _ _ _ _ _ y twins Hb1 Hb0 E2)
      as (parts2 & Hadd2 & Hb2).
    { rewrite elem_of_union, elem_of_singleton. intros [->|Hin].
      - apply Hxy. constructor.
      - apply (Hfresh y); [constructor; constructor|exact Hin]. }
    destruct (IH parts2 cap2 _ twins Hb2 Hnn Hvalid) as (parts' & cap' & Hpl & Hb').
    + simpl in Hlen. lia.
    + exact Hnd.
    + intros z Hz. rewrite !elem_of_union, !elem_of_singleton.
      intros [->|[->|Hin]].
      * contradiction.
      * apply Hxy. constructor. exact Hz.
      * apply (Hfresh z); [do 2 constructor; exact Hz|exact Hin].
    + exists parts', cap'. split.
      * cbn [placeTwins]. rewrite Hadd1. cbn [mbind result_bind].
        rewrite Hadd2. cbn [mbind result_bind]. exact Hpl.
      * replace (list_to_set (x :: y :: twins) ∪ used)
          with (list_to_set twins ∪ ({[y]} ∪ ({[x]} ∪ used))); [exact Hb'|].
        simpl. apply set_eq. intros z.
        rewrite !elem_of_union, !elem_of_singleton. tauto.
Qed.

Lemma building_cap_nonneg (sz : list Z) (parts : list NodeSet) (cap : list Z)
    (used : gset NodeID) :
  building sz parts cap used -> Forall (fun r => 0 <= r) cap.
Proof.
  intros Hb. apply Forall_forall. intros r Hr.
  apply list_elem_of_In, list_elem_of_lookup in Hr as [i Hi].
  pose proof (lookup_lt_Some _ _ _ Hi) as Hlt.
  rewrite (bld_cap_length _ _ _ _ Hb) in Hlt.
  destruct (lookup_lt_is_Some_2 sz i Hlt) as [c Hc].
  destruct (lookup_lt_is_Some_2 parts i) as [p Hp];
    [rewrite (bld_parts_length _ _ _ _ Hb); exact Hlt|].
  apply (bld_sizes _ _ _ _ Hb i c r p Hc Hp Hi).
Qed.

(** The test of the inner filling loop is "capacity left". *)
Lemma fill_test (sz : list Z) (parts : list NodeSet) (cap : list Z)
    (used : gset NodeID) (kk : nat) (c r : Z) (p : NodeSet) :
  building sz parts cap used ->
  sz !! kk = Some c -> parts !! kk = Some p -> cap !! kk = Some r ->
  (0 <? wrap8 (c - wrap8 (Z.of_nat (NodeSet_len p)))) = (0 <? r).
Proof.
  intros Hb Hc Hp Hr.
  destruct (bld_sizes _ _ _ _ Hb kk c r p Hc Hp Hr) as (H0 & Hrc & H255 & _).
  rewrite (wrap8_small (Z.of_nat (NodeSet_len p))) by lia.
  rewrite wrap8_small by lia. f_equal. lia.
Qed.

Lemma fillPartition_building (sz : list Z) (kk : nat) (c : Z) (r : nat) :
  forall (parts : list NodeSet) (cap : list Z) (used : gset NodeID)
         (p : NodeSet) (nodes : list NodeID),
  building sz parts cap used ->
  sz !! kk = Some c -> parts !! kk = Some p ->
  cap !! kk = Some (Z.of_nat r) ->
  (r <= length nodes)%nat -> NoDup nodes ->
  (forall x, x ∈ nodes -> x ∉ used) ->
  exists p',
    fillPartition c p nodes = Ret (p', drop r nodes) /\
    building sz (<[kk := p']> parts) (<[kk := 0]> cap)
             (list_to_set (take r nodes) ∪ used).
Proof.
  induction r as [|r IH]; intros parts cap used p nodes Hb Hc Hp Hr Hlen Hnd Hfresh.
  - exists p. split.
    + pose proof (fill_test _ _ _ _ _ _ _ _ Hb Hc Hp Hr) as Ht.
      change (0 <? Z.of_nat 0) with false in Ht.
      destruct nodes; cbn [fillPartition]; rewrite Ht; reflexivity.
    + rewrite list_insert_id by exact Hp.
      rewrite list_insert_id by exact Hr.
      rewrite take_0. simpl.
      replace (∅ ∪ used) with used; [exact Hb|].
      apply set_eq. intros z. rewrite elem_of_union.
      split; [auto|]. intros [H|H]; [|exact H].
      apply not_elem_of_empty in H. contradiction.
  - destruct nodes as [|x nodes]; [simpl in Hlen; lia|].
    pose proof (fill_test _ _ _ _ _ _ _ _ Hb Hc Hp Hr) as Ht.
    assert (Hpos : (0 <? Z.of_nat (S r)) = true) by (apply Z.ltb_lt; lia).
    rewrite Hpos in Ht.
    apply list.NoDup_cons in Hnd as [Hx Hnd].
    destruct (building_add _ _ _ _ kk (Z.of_nat (S r)) x Hb Hr ltac:(lia))
      as (p0 & p1 & Hp0 & Hadd & Hb1).
    { apply Hfresh. constructor. }
    assert (p0 = p) as -> by congruence.
    replace (Z.of_nat (S r) - 1) with (Z.of_nat r) in Hb1 by lia.
    pose proof (lookup_lt_Some _ _ _ Hp) as Hkp.
    pose proof (lookup_lt_Some _ _ _ Hr) as Hkc.
    destruct (IH (<[kk := p1]> parts) (<[kk := Z.of_nat r]> cap)
                 ({[x]} ∪ used) p1 nodes Hb1 Hc) as (p' & Hfill & Hb').
    + apply list_lookup_insert_eq. exact Hkp.
    + apply list_lookup_insert_eq. exact Hkc.
    + simpl in Hlen. lia.
    + exact Hnd.
    + intros z Hz. rewrite elem_of_union, elem_of_singleton.
      intros [->|Hin]; [contradiction|].
      apply (Hfresh z); [constructor; exact Hz|exact Hin].
    + exists p'. split.
      * cbn [fillPartition]. rewrite Ht, Hadd. cbn [mbind result_bind].
        exact Hfill.
      * rewrite !list_insert_insert_eq in Hb'.
        replace (list_to_set (take (S r) (x :: nodes)) ∪ used)
          with (list_to_set (take r nodes) ∪ ({[x]} ∪ used)); [exact Hb'|].
        simpl. apply set_eq. intros z.
        rewrite !elem_of_union, !elem_of_singleton. tauto.
Qed.

Lemma fillPartitions_building (sz : list Z) (todo : list NodeSet) :
  forall (done : list NodeSet) (cap : list Z) (used : gset NodeID)
         (nodes : list NodeID),
  building sz (done ++ todo) cap used ->
  (forall i : nat, (i < length done)%nat -> cap !! i = Some 0) ->
  NoDup nodes -> (forall x, x ∈ nodes -> x ∉ used) ->
  Z.of_nat (length nodes) = sumZ cap ->
  exists rest,
    fillPartitions sz (Z.of_nat (length done)) todo nodes = Ret rest /\
    building sz (done ++ rest) (replicate (length sz) 0)
             (list_to_set nodes ∪ used).
Proof.
  induction todo as [|p todo IH];
    intros done cap used nodes Hb Hzero Hnd Hfresh Hsum.
  - exists []. split; [reflexivity|].
    pose proof (bld_parts_length _ _ _ _ Hb) as Hpl.
    pose proof (bld_cap_length _ _ _ _ Hb) as Hcl.
    rewrite app_nil_r in Hpl.
    assert (Hcap : cap = replicate (length sz) 0).
    { apply list_eq. intros i.
      destruct (Nat.lt_ge_cases i (length sz)) as [Hi|Hi].
      - rewrite Hzero by lia. symmetry. apply lookup_replicate. auto.
      - rewrite (lookup_ge_None_2 cap) by lia.
        symmetry. apply lookup_ge_None_2. rewrite length_replicate. lia. }
    assert (Hs0 : sumZ cap = 0) by (rewrite Hcap; apply sumZ_replicate_0).
    destruct nodes; [|simpl in Hsum; lia].
    simpl. rewrite <- Hcap.
    replace (∅ ∪ used) with used; [exact Hb|].
    apply set_eq. intros z. rewrite elem_of_union.
    split; [auto|]. intros [H|H]; [|exact H].
    apply not_elem_of_empty in H. contradiction.
  - pose proof (bld_parts_length _ _ _ _ Hb) as Hpl.
    pose proof (bld_cap_length _ _ _ _ Hb) as Hcl.
    rewrite length_app in Hpl. simpl in Hpl.
    set (kk := length done) in *.
    destruct (lookup_lt_is_Some_2 sz kk ltac:(lia)) as [c Hc].
    destruct (lookup_lt_is_Some_2 cap kk ltac:(lia)) as [r0 Hr0].
    assert (Hp : (done ++ p :: todo) !! kk = Some p).
    { rewrite lookup_app_r by (unfold kk; lia).
      unfold kk. rewrite Nat.sub_diag. reflexivity. }
    pose proof (building_cap_nonneg _ _ _ _ Hb) as Hnn.
    pose proof (sumZ_lookup_le _ _ _ Hnn Hr0) as Hle.
    destruct (bld_sizes _ _ _ _ Hb kk c r0 p Hc Hp Hr0) as (Hr0nn & _).
    assert (Hr : cap !! kk = Some (Z.of_nat (Z.to_nat r0)))
      by (rewrite Z2Nat.id by lia; exact Hr0).
    destruct (fillPartition_building sz kk c (Z.to_nat r0) _ _ _ p nodes
                Hb Hc Hp Hr ltac:(lia) Hnd Hfresh) as (p' & Hfill & Hb1).
    replace (<[kk := p']> (done ++ p :: todo)) with ((done ++ [p']) ++ todo)
      in Hb1.
    2:{ rewrite insert_app_r_alt by (unfold kk; lia).
        unfold kk. rewrite Nat.sub_diag, <- app_assoc. reflexivity. }
    rewrite <- (take_drop (Z.to_nat r0) nodes) in Hnd.
    apply list.NoDup_app in Hnd as (_ & Hdisj & Hnd2).
    destruct (IH (done ++ [p']) (<[kk := 0]> cap) _ (drop (Z.to_nat r0) nodes)
                 Hb1) as (rest & Hrest & Hb2).
    + intros i Hi. rewrite length_app in Hi. simpl in Hi.
      destruct (decide (kk = i)) as [<-|Hne].
      * apply list_lookup_insert_eq. lia.
      * rewrite list_lookup_insert_ne by exact Hne.
        apply Hzero. unfold kk in *. lia.
    + exact Hnd2.
    + intros z Hz. rewrite elem_of_union, elem_of_list_to_set.
      intros [Hin|Hin].
      * exact (Hdisj z Hin Hz).
      * apply (Hfresh z); [|exact Hin].
        rewrite <- (take_drop (Z.to_nat r0) nodes).
        apply elem_of_app. right. exact Hz.
    + rewrite length_drop, (sumZ_insert _ _ r0) by exact Hr0. lia.
    + exists (p' :: rest). split.
      * cbn [fillPartitions].
        assert (Hix : index sz (Z.of_nat kk) = Ret c)
          by (apply index_Ret; rewrite Nat2Z.id; split; [lia|exact Hc]).
        rewrite Hix. cbn [mbind result_bind].
        rewrite Hfill. cbn [mbind result_bind].
        replace (Z.of_nat kk + 1) with (Z.of_nat (length (done ++ [p'])))
          by (rewrite length_app; simpl; unfold kk; lia).
        rewrite Hrest. reflexivity.
      * rewrite <- app_assoc in Hb2. cbn [app] in Hb2.
        replace (list_to_set nodes ∪ used)
          with (list_to_set (drop (Z.to_nat r0) nodes)
                ∪ (list_to_set (take (Z.to_nat r0) nodes) ∪ used));
          [exact Hb2|].
        apply set_eq. intros z.
        rewrite !elem_of_union, !elem_of_list_to_set.
        rewrite <- (take_drop (Z.to_nat r0) nodes) at 3.
        rewrite elem_of_app. tauto.
Qed.

(** For a size vector and a twin assignment that passes the filter, the
    builder returns a scenario whose slots have the sizes asked for and
    partition the roster. *)
Lemma buildPartitions_ok (k : Z) (sz : list Z) (ta : list twinAssignment)
    (twins nodes : list NodeID) :
  length sz = Z.to_nat k ->
  (forall c, c ∈ sz -> 0 <= c <= 255) ->
  Forall (fun ab : twinAssignment => 0 <= fst ab /\ 0 <= snd ab) ta ->
  isValidTwinAssignment ta sz = true ->
  length twins = (2 * length ta)%nat ->
  NoDup (twins ++ nodes) ->
  sumZ sz = Z.of_nat (length twins + length nodes) ->
  exists parts,
    buildPartitions k sz ta twins nodes = Ret parts /\
    length parts = length sz /\
    sizes_match sz parts /\
    is_partition_of (twins ++ nodes) parts.
Proof.
  intros Hk Hsz Hnn Hvalid Hlen Hnd Hsum.
  apply list.NoDup_app in Hnd as (Hnd1 & Hdisj & Hnd2).
  unfold buildPartitions.
  rewrite allocPartitions_Ret by exact Hk. cbn [mbind result_bind].
  destruct (placeTwins_building sz ta _ sz ∅ twins (building_start sz Hsz)
              Hnn Hvalid Hlen Hnd1) as (parts1 & cap1 & Hpl & Hb1).
  { intros x _. apply not_elem_of_empty. }
  rewrite Hpl. cbn [mbind result_bind].
  assert (Hsize : size (list_to_set twins ∪ (∅ : gset NodeID)) = length twins).
  { replace (list_to_set twins ∪ (∅ : gset NodeID))
      with (list_to_set twins : gset NodeID).
    - apply size_list_to_set. exact Hnd1.
    - apply set_eq. intros z. rewrite elem_of_union.
      split; [auto|]. intros [H|H]; [exact H|].
      apply not_elem_of_empty in H. contradiction. }
  destruct (fillPartitions_building sz parts1 [] cap1 _ nodes Hb1)
    as (parts & Hfill & Hb).
  - intros i Hi. simpl in Hi. lia.
  - exact Hnd2.
  - intros x Hx. rewrite elem_of_union, elem_of_list_to_set.
    intros [Hin|Hin]; [exact (Hdisj x Hin Hx)|].
    apply not_elem_of_empty in Hin. exact Hin.
  - pose proof (bld_sum _ _ _ _ Hb1) as Hs. rewrite Hsize in Hs. lia.
  - exists parts. split; [exact Hfill|]. simpl in Hb.
    split; [apply (bld_parts_length _ _ _ _ Hb)|]. split.
    + unfold sizes_match. apply list_eq. intros i. rewrite lookup_map.
      destruct (sz !! i) as [c|] eqn:Hc.
      * pose proof (lookup_lt_Some _ _ _ Hc) as Hi.
        destruct (lookup_lt_is_Some_2 parts i) as [p Hp];
          [rewrite (bld_parts_length _ _ _ _ Hb); exact Hi|].
        rewrite Hp. simpl. f_equal.
        assert (Hz : replicate (length sz) 0 !! i = Some 0)
          by (apply lookup_replicate; auto).
        destruct (bld_sizes _ _ _ _ Hb i c 0 p Hc Hp Hz) as (_ & Hrc & _).
        lia.
      * apply lookup_ge_None in Hc.
        rewrite (lookup_ge_None_2 parts); [reflexivity|].
        rewrite (bld_parts_length _ _ _ _ Hb). exact Hc.
    + split; [apply (bld_disjoint _ _ _ _ Hb)|].
      intros x. rewrite <- (bld_used _ _ _ _ Hb x).
      rewrite !elem_of_union, !elem_of_list_to_set, elem_of_app.
      split; [tauto|]. intros [H|[H|H]]; auto.
      apply not_elem_of_empty in H. contradiction.
Qed.

(** Every pair placed by the filter takes two units of capacity. *)
Lemma isValidLoop_capacity (len : nat) (ta : list twinAssignment) :
  forall ps : list Z,
  Forall (fun c => 0 <= c <= 255) ps ->
  isValidLoop len ta ps = true ->
  2 * Z.of_nat (length ta) <= sumZ ps.
Proof.
  assert (Hstep : forall (ps ps1 : list Z) (x : Z),
            Forall (fun c => 0 <= c <= 255) ps ->
            placeTwin len ps x = Some ps1 ->
            Forall (fun c => 0 <= c <= 255) ps1 /\ sumZ ps1 = sumZ ps - 1).
  { intros ps ps1 x Hps Hpl.
    apply placeTwin_Some in Hpl as (c & _ & Hc & Hc0 & ->).
    pose proof (Forall_forall (fun c => 0 <= c <= 255) ps) as [Hf _].
    pose proof (Hf Hps c (proj1 (list_elem_of_In _ _)
                            (list_elem_of_lookup_2 _ _ _ Hc))) as Hcr.
    rewrite (wrap8_small (c - 1)) by lia. split.
    - apply Forall_insert; [exact Hps|lia].
    - rewrite (sumZ_insert _ _ c) by exact Hc. lia. }
  induction ta as [|[a b] ta IH]; intros ps Hps Hvalid.
  - simpl. apply sumZ_nonneg. eapply Forall_impl; [|exact Hps].
    intros c Hc. simpl in Hc. lia.
  - cbn [isValidLoop] in Hvalid.
    destruct (placeTwin len ps a) as [ps1|] eqn:E1; [|discriminate].
    destruct (placeTwin len ps1 b) as [ps2|] eqn:E2; [|discriminate].
    destruct (Hstep _ _ _ Hps E1) as [Hps1 Hs1].
    destruct (Hstep _ _ _ Hps1 E2) as [Hps2 Hs2].
    specialize (IH ps2 Hps2 Hvalid). simpl length. lia.
Qed.

Lemma cartesianProduct_replicate_elem (P : list twinAssignment) (t : nat)
    (tuple : list twinAssignment) :
  tuple ∈ cartesianProduct (replicate t P) ->
  length tuple = t /\ Forall (fun ab => ab ∈ P) tuple.
Proof.
  revert tuple. induction t as [|t IH]; intros tuple Ht.
  - simpl in Ht. apply list_elem_of_singleton in Ht as ->. auto.
  - cbn [replicate cartesianProduct] in Ht.
    apply list_elem_of_In, in_flat_map in Ht as (v & Hv & Ht).
    apply in_map_iff in Ht as (p & <- & Hp).
    apply list_elem_of_In, IH in Hp as [Hl Hf].
    split; [simpl; lia|]. constructor; [apply list_elem_of_In, Hv|exact Hf].
Qed.

Lemma generateTwinPartitionPairs_nonneg (k : Z) (ab : twinAssignment) :
  ab ∈ generateTwinPartitionPairs k -> 0 <= fst ab /\ 0 <= snd ab.
Proof.
  unfold generateTwinPartitionPairs. intros H.
  apply list_elem_of_In, in_flat_map in H as (i & _ & H).
  apply in_map_iff in H as (j & <- & _). simpl. lia.
Qed.

Lemma scenariosForSize_ok (k : Z) (sizes : list (list Z)) (sz : list Z)
    (twins nodes : list NodeID) (tas : list (list twinAssignment)) :
  forall acc : list (list NodeSet),
  (forall ta, ta ∈ tas -> isValidTwinAssignment ta sz = true ->
     exists parts, buildPartitions k sz ta twins nodes = Ret parts /\
                   scenario_ok sizes (twins ++ nodes) parts) ->
  Forall (scenario_ok sizes (twins ++ nodes)) acc ->
  exists acc',
    scenariosForSize k sz tas twins nodes acc = Ret acc' /\
    Forall (scenario_ok sizes (twins ++ nodes)) acc'.
Proof.
  induction tas as [|ta tas IH]; intros acc Hbuild Hacc.
  - exists acc. auto.
  - cbn [scenariosForSize].
    assert (Hrest : forall ta', ta' ∈ tas ->
              isValidTwinAssignment ta' sz = true ->
              exists parts, buildPartitions k sz ta' twins nodes = Ret parts /\
                            scenario_ok sizes (twins ++ nodes) parts).
    { intros ta' Hin. apply Hbuild. constructor. exact Hin. }
    destruct (isValidTwinAssignment ta sz) eqn:Ev.
    + destruct (Hbuild ta ltac:(constructor) Ev) as (parts & Hp & Hok).
      rewrite Hp. cbn [mbind result_bind].
      apply IH; [exact Hrest|].
      apply Forall_app. split; [exact Hacc|]. constructor; [exact Hok|constructor].
    + apply IH; assumption.
Qed.

Lemma scenariosForSizes_ok (k : Z) (sizes : list (list Z))
    (twins nodes : list NodeID) (tas : list (list twinAssignment))
    (todo : list (list Z)) :
  forall acc : list (list NodeSet),
  (forall sz ta, sz ∈ todo -> ta ∈ tas -> isValidTwinAssignment ta sz = true ->
     exists parts, buildPartitions k sz ta twins nodes = Ret parts /\
                   scenario_ok sizes (twins ++ nodes) parts) ->
  Forall (scenario_ok sizes (twins ++ nodes)) acc ->
  exists acc',
    scenariosForSizes k todo tas twins nodes acc = Ret acc' /\
    Forall (scenario_ok sizes (twins ++ nodes)) acc'.
Proof.
  induction todo as [|sz todo IH]; intros acc Hbuild Hacc.
  - exists acc. auto.
  - cbn [scenariosForSizes].
    destruct (scenariosForSize_ok k sizes sz twins nodes tas acc)
      as (acc1 & H1 & Hok1).
    + intros ta Hta. apply Hbuild; [constructor|exact Hta].
    + exact Hacc.
    + rewrite H1. cbn [mbind result_bind]. apply IH; [|exact Hok1].
      intros sz' ta Hsz'. apply Hbuild. constructor. exact Hsz'.
Qed.

Lemma roster_NoDup (t c : nat) (rid rid' : Z) :
  NoDup (twinRoster t rid 1 ++ plainRoster c rid' (2 * Z.of_nat t + 1)).
Proof.
  apply (NoDup_fmap_1 NetworkID).
  rewrite fmap_app, twinRoster_NetworkID, plainRoster_NetworkID.
  replace (2 * Z.of_nat t + 1) with (1 + 2 * Z.of_nat t) by lia.
  rewrite <- seqZ_app by lia. apply NoDup_seqZ.
Qed.

Lemma twinAssignmentsOf_twinRoster (t : nat) (rid nid k : Z) :
  (1 <= t)%nat ->
  twinAssignmentsOf (twinRoster t rid nid) k
  = cartesianProduct (replicate t (generateTwinPartitionPairs k)).
Proof.
  intros Ht. unfold twinAssignmentsOf. rewrite twinRoster_length.
  assert (H2 : (2 * t / 2 = t)%nat)
    by (rewrite Nat.mul_comm; apply Nat.div_mul; lia).
  rewrite H2.
  destruct (Nat.ltb_spec 0 t); [reflexivity|lia].
Qed.

(** With a legal configuration and enough fuel the scenario generator
    returns, and every scenario it lists has the sizes of an enumerated size
    vector and partitions the roster. *)
Lemma genPartitionScenarios_ok (fuel : nat) (replicas numTwins k : Z) :
  1 <= numTwins <= replicas -> replicas <= 255 -> 1 <= k <= 255 ->
  (257 * Z.to_nat k <= fuel)%nat ->
  exists sizes scenarios,
    genPartitionSizes fuel (wrap8 (replicas + numTwins)) k 1 = Ret sizes /\
    genPartitionScenarios fuel
      (twinRoster (Z.to_nat numTwins) 1 1)
      (plainRoster (Z.to_nat (replicas - numTwins))
         (numTwins + 1) (2 * numTwins + 1)) k 1 = Ret scenarios /\
    Forall (scenario_ok sizes
              (twinRoster (Z.to_nat numTwins) 1 1
               ++ plainRoster (Z.to_nat (replicas - numTwins))
                    (numTwins + 1) (2 * numTwins + 1)))
           scenarios.
Proof.
  intros Ht Hr Hk Hfuel.
  set (twins := twinRoster (Z.to_nat numTwins) 1 1).
  set (nodes := plainRoster (Z.to_nat (replicas - numTwins))
                  (numTwins + 1) (2 * numTwins + 1)).
  assert (Hlt : length twins = (2 * Z.to_nat numTwins)%nat)
    by apply twinRoster_length.
  assert (Hln : length nodes = Z.to_nat (replicas - numTwins))
    by apply plainRoster_length.
  assert (Hn : Z.of_nat (length twins + length nodes) = replicas + numTwins)
    by lia.
  pose proof (Z.mod_pos_bound (replicas + numTwins) 256 ltac:(lia)) as Hw.
  fold (wrap8 (replicas + numTwins)) in Hw.
  set (sizes := sizeTails (Z.to_nat k) 255 (wrap8 (replicas + numTwins))).
  assert (Hsizes : genPartitionSizes fuel (wrap8 (replicas + numTwins)) k 1
                   = Ret sizes)
    by (apply genPartitionSizes_Ret; [lia|assumption..]).
  assert (Hnd : NoDup (twins ++ nodes)).
  { unfold twins, nodes.
    replace (2 * numTwins + 1) with (2 * Z.of_nat (Z.to_nat numTwins) + 1)
      by lia.
    apply roster_NoDup. }
  destruct (scenariosForSizes_ok k sizes twins nodes
              (twinAssignmentsOf twins k) sizes []) as (ps & Hps & Hok).
  - intros sz ta Hsz Hta Hvalid.
    unfold twins in Hta.
    rewrite twinAssignmentsOf_twinRoster in Hta by lia.
    apply cartesianProduct_replicate_elem in Hta as [Hlta Hta].
    destruct (sizeTails_top (Z.to_nat k) (wrap8 (replicas + numTwins)) sz
                ltac:(lia) Hsz) as (Hlsz & Hrange & Hsum).
    assert (Hcap : 2 * Z.of_nat (length ta) <= sumZ sz).
    { apply (isValidLoop_capacity (length sz)); [|exact Hvalid].
      apply Forall_forall. intros c Hc. apply Hrange, list_elem_of_In, Hc. }
    assert (Hsum' : sumZ sz = Z.of_nat (length twins + length nodes)).
    { rewrite Hn. unfold wrap8 in Hsum, Hw.
      pose proof (Z.div_mod (replicas + numTwins) 256 ltac:(lia)) as Hdm.
      assert (0 <= (replicas + numTwins) / 256 <= 1).
      { split; [apply Z.div_pos; lia|].
        apply Z.lt_succ_r, Z.div_lt_upper_bound; lia. }
      lia. }
    destruct (buildPartitions_ok k sz ta twins nodes) as (parts & Hb & Hl & Hm & Hp);
      try assumption.
    + eapply Forall_impl; [|exact Hta].
      intros ab Hab. apply (generateTwinPartitionPairs_nonneg k), Hab.
    + lia.
    + exists parts. split; [exact Hb|]. split; [|exact Hp].
      exists sz. auto.
  - constructor.
  - exists sizes, ps. split; [exact Hsizes|]. split; [|exact Hok].
    unfold genPartitionScenarios. fold twins nodes.
    rewrite Hn, Hsizes. cbn [mbind result_bind]. exact Hps.
Qed.

Lemma elem_of_leaderCross (scenarios : list (list NodeSet)) (ids : list Z)
    (v : View) :
  v ∈ leaderCross scenarios ids ->
  PartitionScenario v ∈ scenarios /\ Leader v ∈ ids.
Proof.
  unfold leaderCross. intros H.
  apply list_elem_of_In, in_flat_map in H as (p & Hp & H).
  apply in_map_iff in H as (id & <- & Hid). simpl.
  split; apply list_elem_of_In; assumption.
Qed.

(** Construction with a legal configuration: the generator is returned, and
    every view spec of its list holds a scenario that partitions the roster
    and a leader among the replicas. *)
Lemma NewGenerator_ok (fuel : nat) (replicas numTwins k r : Z) :
  1 <= numTwins <= replicas -> replicas <= 255 -> 1 <= k <= 255 ->
  (257 * Z.to_nat k <= fuel)%nat ->
  exists g sizes,
    NewGenerator fuel replicas numTwins k r = Ret g /\
    genPartitionSizes fuel (wrap8 (replicas + numTwins)) k 1 = Ret sizes /\
    forall v, v ∈ leadersPartitions g ->
      scenario_ok sizes (allNodes g) (PartitionScenario v) /\
      1 <= Leader v <= replicas.
Proof.
  intros Ht Hr Hk Hfuel.
  destruct (genPartitionScenarios_ok fuel replicas numTwins k Ht Hr Hk Hfuel)
    as (sizes & ps & Hsizes & Hps & Hok).
  destruct (assignIDs_legal replicas numTwins) as (Htw & Hnd & Hids); [lia..|].
  unfold NewGenerator. rewrite Htw, Hnd, Hids, Hps. cbn [mbind result_bind].
  eexists _, sizes. split; [reflexivity|]. split; [exact Hsizes|].
  cbn [leadersPartitions allNodes]. intros v Hv.
  apply elem_of_leaderCross in Hv as [Hp Hl]. split.
  - pose proof (Forall_forall (scenario_ok sizes
        (twinRoster (Z.to_nat numTwins) 1 1
         ++ plainRoster (Z.to_nat (replicas - numTwins))
              (numTwins + 1) (2 * numTwins + 1))) ps) as [Hf _].
    apply (Hf Hok). apply list_elem_of_In. exact Hp.
  - apply elem_of_seqZ in Hl. lia.
Qed.

(** ** The roster of a legal configuration *)

(** C10: with [1 <= numTwins <= replicas] the constructor returns (for
    [partitions >= 1], given fuel) and the roster of the generator is the
    twinned NodeIDs in allocation order followed by the others; twin pair
    [j] is replica [j+1] with the consecutive network IDs [2j+1] and
    [2j+2]; the network IDs along the roster are 1, 2, ...,
    [replicas + numTwins]. *)
Theorem NewGenerator_roster replicas numTwins :
  1 <= numTwins <= replicas -> replicas < 256 ->
  exists twins nodes,
    st_twins (assignIDs replicas numTwins) = twins /\
    st_nodes (assignIDs replicas numTwins) = nodes /\
    (forall fuel k r,
       1 <= k <= 255 -> (257 * Z.to_nat k <= fuel)%nat ->
       exists g, NewGenerator fuel replicas numTwins k r = Ret g) /\
    (forall fuel k r g,
       NewGenerator fuel replicas numTwins k r = Ret g ->
       allNodes g = twins ++ nodes) /\
    Z.of_nat (length twins) = 2 * numTwins /\
    Z.of_nat (length nodes) = replicas - numTwins /\
    (forall j, 0 <= j < numTwins ->
       (twins ++ nodes) !! Z.to_nat (2 * j)
         = Some (mkNodeID (j + 1) (2 * j + 1)) /\
       (twins ++ nodes) !! Z.to_nat (2 * j + 1)
         = Some (mkNodeID (j + 1) (2 * j + 2))) /\
    (forall i, numTwins <= i < replicas ->
       (twins ++ nodes) !! Z.to_nat (numTwins + i)
         = Some (mkNodeID (i + 1) (numTwins + i + 1))) /\
    NetworkID <$> (twins ++ nodes) = seqZ 1 (replicas + numTwins).
Proof.
  intros Ht Hr.
  destruct (assignIDs_legal replicas numTwins) as (Htw & Hnd & _); [lia..|].
  eexists _, _. split; [exact Htw|]. split; [exact Hnd|].
  split; [|split; [|split; [|split; [|split; [|split]]]]].
  - intros fuel k r Hk Hfuel.
    destruct (NewGenerator_ok fuel replicas numTwins k r Ht ltac:(lia)
                Hk Hfuel) as (g & _ & Hg & _).
    exists g. exact Hg.
  - intros fuel k r g H. apply NewGenerator_fields in H as (_ & _ & _ & _ & ->).
    rewrite Htw, Hnd. reflexivity.
  - rewrite twinRoster_length. lia.
  - rewrite plainRoster_length. lia.
  - intros j Hj.
    assert (Hlt : (Z.to_nat j < Z.to_nat numTwins)%nat) by lia.
    destruct (twinRoster_lookup _ 1 1 _ Hlt) as [H0 H1].
    replace (Z.to_nat (2 * j)) with (2 * Z.to_nat j)%nat by lia.
    replace (Z.to_nat (2 * j + 1)) with (2 * Z.to_nat j + 1)%nat by lia.
    rewrite !lookup_app_l by (rewrite twinRoster_length; lia).
    rewrite H0, H1. split; do 2 f_equal; lia.
  - intros i Hi.
    rewrite lookup_app_r by (rewrite twinRoster_length; lia).
    rewrite twinRoster_length.
    replace (Z.to_nat (numTwins + i) - 2 * Z.to_nat numTwins)%nat
      with (Z.to_nat (i - numTwins)) by lia.
    rewrite plainRoster_lookup by lia. do 2 f_equal; lia.
  - rewrite fmap_app, twinRoster_NetworkID, plainRoster_NetworkID.
    rewrite !Z2Nat.id by lia.
    replace (2 * numTwins + 1) with (1 + 2 * numTwins) by lia.
    rewrite <- seqZ_app by lia. f_equal. lia.
Qed.

(** At [replicas = 4], [numTwins = 1]: the twin pair is (1, net 1) and
    (1, net 2). *)
Lemma NewGenerator_roster_witness :
  exists g,
    NewGenerator 10 4 1 2 1 = Ret g /\
    allNodes g = [mkNodeID 1 1; mkNodeID 1 2; mkNodeID 2 3; mkNodeID 3 4;
                  mkNodeID 4 5] /\
    exists twins nodes,
      st_twins (assignIDs 4 1) = twins /\
      st_nodes (assignIDs 4 1) = nodes /\
      (forall fuel k r,
         1 <= k <= 255 -> (257 * Z.to_nat k <= fuel)%nat ->
         exists g, NewGenerator fuel 4 1 k r = Ret g) /\
      (forall fuel k r g,
         NewGenerator fuel 4 1 k r = Ret g -> allNodes g = twins ++ nodes) /\
      Z.of_nat (length twins) = 2 * 1 /\
      Z.of_nat (length nodes) = 4 - 1 /\
      (forall j, 0 <= j < 1 ->
         (twins ++ nodes) !! Z.to_nat (2 * j)
           = Some (mkNodeID (j + 1) (2 * j + 1)) /\
         (twins ++ nodes) !! Z.to_nat (2 * j + 1)
           = Some (mkNodeID (j + 1) (2 * j + 2))) /\
      (forall i, 1 <= i < 4 ->
         (twins ++ nodes) !! Z.to_nat (1 + i)
           = Some (mkNodeID (i + 1) (1 + i + 1))) /\
      NetworkID <$> (twins ++ nodes) = seqZ 1 (4 + 1).
Proof.
  assert (Hc : (g ← NewGenerator 10 4 1 2 1; Ret (allNodes g))
               = Ret [mkNodeID 1 1; mkNodeID 1 2; mkNodeID 2 3; mkNodeID 3 4;
                      mkNodeID 4 5])
    by by_evaluation.
  bind_inv Hc as g E. injection Hc as Hc.
  exists g. split; [exact E|]. split; [exact Hc|].
  apply (NewGenerator_roster 4 1); lia.
Defined.

(** ** Construction with more twins than replicas *)

(** C5 (as amended): [numTwins > replicas] is not rejected.  The
    constructor does exactly what it does for [numTwins = replicas]: every
    replica gets a twin and the surplus is ignored; with at least one
    replica and one partition it returns a generator. *)
Theorem NewGenerator_surplus_twins fuel replicas numTwins k r :
  0 <= replicas < numTwins -> numTwins < 256 ->
  NewGenerator fuel replicas numTwins k r
    = NewGenerator fuel replicas replicas k r /\
  (1 <= replicas -> 1 <= k <= 255 -> (257 * Z.to_nat k <= fuel)%nat ->
   exists g,
     NewGenerator fuel replicas numTwins k r = Ret g /\
     allNodes g = twinRoster (Z.to_nat replicas) 1 1).
Proof.
  intros Ht Hr.
  assert (Heq : NewGenerator fuel replicas numTwins k r
                = NewGenerator fuel replicas replicas k r).
  { unfold NewGenerator.
    destruct (assignIDs_surplus replicas numTwins) as (H1 & H2 & H3); [lia..|].
    destruct (assignIDs_legal replicas replicas) as (H4 & H5 & H6); [lia..|].
    cbv zeta. rewrite H1, H2, H3, H4, H5, H6.
    replace (replicas - replicas) with 0 by lia. reflexivity. }
  split; [exact Heq|].
  intros Hrep Hk Hfuel. rewrite Heq.
  destruct (NewGenerator_ok fuel replicas replicas k r ltac:(lia) ltac:(lia)
              Hk Hfuel) as (g & _ & Hg & _).
  exists g. split; [exact Hg|].
  apply NewGenerator_fields in Hg as (_ & _ & _ & _ & ->).
  destruct (assignIDs_legal replicas replicas) as (H4 & H5 & _); [lia..|].
  rewrite H4, H5. replace (replicas - replicas) with 0 by lia.
  simpl. apply app_nil_r.
Qed.

Lemma NewGenerator_surplus_twins_witness :
  NewGenerator 600 1 2 1 1 = NewGenerator 600 1 1 1 1 /\
  (1 <= 1 -> 1 <= 1 <= 255 -> (257 * Z.to_nat 1 <= 600)%nat ->
   exists g,
     NewGenerator 600 1 2 1 1 = Ret g /\
     allNodes g = twinRoster (Z.to_nat 1) 1 1).
Proof.
  apply (NewGenerator_surplus_twins 600 1 2 1 1); lia.
Defined.

(** C5, counterexample: [NewGenerator(1, 2, 1, 1)], with two twins asked for
    one replica, returns a generator (its roster is the one twin pair). *)
Lemma NewGenerator_surplus_twins_succeeds :
  exists g,
    NewGenerator 10 1 2 1 1 = Ret g /\
    allNodes g = [mkNodeID 1 1; mkNodeID 1 2].
Proof.
  assert (Hc : (g ← NewGenerator 10 1 2 1 1; Ret (allNodes g))
               = Ret [mkNodeID 1 1; mkNodeID 1 2])
    by by_evaluation.
  bind_inv Hc as g E. injection Hc as Hc. eauto.
Qed.

(** ** The scenarios handed out by the iterator *)

Lemma elem_of_insert_inv {A : Type} (l : list A) (i : nat) (x v : A) :
  v ∈ <[i := x]> l -> v = x \/ v ∈ l.
Proof.
  intros H. apply list_elem_of_lookup in H as [j Hj].
  apply list_lookup_insert_Some in Hj as [(-> & -> & _)|(_ & Hj)]; [auto|].
  right. eapply list_elem_of_lookup_2, Hj.
Qed.

Lemma swap_elem {A : Type} (l l' : list A) (i j : Z) (v : A) :
  swap l i j = Ret l' -> v ∈ l' -> v ∈ l.
Proof.
  intros H Hv. apply swap_Ret in H as (a & b & _ & _ & Ha & Hb & ->).
  apply elem_of_insert_inv in Hv as [->|Hv];
    [eapply list_elem_of_lookup_2, Ha|].
  apply elem_of_insert_inv in Hv as [->|Hv];
    [eapply list_elem_of_lookup_2, Hb|exact Hv].
Qed.

Lemma applySwaps_elem {A : Type} (sw : list (Z * Z)) :
  forall (l l' : list A) (v : A),
  applySwaps sw l = Ret l' -> v ∈ l' -> v ∈ l.
Proof.
  induction sw as [|[i j] sw IH]; intros l l' v H Hv; simpl in H.
  - injection H as <-. exact Hv.
  - bind_inv H as l1 H1.
    eapply swap_elem; [exact H1|]. eapply IH; eassumption.
Qed.

(** The views selected for a scenario are view specs of the list; only the
    positions past the indices vector keep their zero value. *)
Lemma selectViews_elem (lp : list View) (offs : list Z) (idx : list Z) :
  forall (i : nat) (p p' : list View),
  selectViews lp offs (Z.of_nat i) idx p = Ret p' ->
  length p' = length p /\
  forall (j : nat) (v : View),
    p' !! j = Some v ->
    v ∈ lp \/ (p !! j = Some v /\ ~ (i <= j < i + length idx)%nat).
Proof.
  induction idx as [|ii idx IH]; intros i p p' H.
  - simpl in H. injection H as <-. split; [reflexivity|].
    intros j v Hv. right. split; [exact Hv|simpl; lia].
  - cbn [selectViews] in H.
    bind_inv H as off _.
    bind_inv H as v0 Hv0.
    bind_inv H as p1 Hp1.
    apply index_Ret in Hv0 as [_ Hv0].
    apply store_Ret in Hp1 as (_ & Hi & ->).
    rewrite Nat2Z.id in *.
    replace (Z.of_nat i + 1) with (Z.of_nat (S i)) in H by lia.
    apply IH in H as [Hlen Hel]. rewrite length_insert in Hlen.
    split; [exact Hlen|].
    intros j v Hv. destruct (Hel j v Hv) as [Hin|[Hpj Hrange]]; [auto|].
    destruct (decide (i = j)) as [<-|Hne].
    + rewrite list_lookup_insert_eq in Hpj by exact Hi.
      injection Hpj as <-. left. eapply list_elem_of_lookup_2, Hv0.
    + rewrite list_lookup_insert_ne in Hpj by exact Hne.
      right. split; [exact Hpj|]. simpl. lia.
Qed.

Lemma advance_length (len : Z) (count : nat) :
  forall (idx idx' : list Z) (ok : bool),
  advance len count idx = Ret (idx', ok) ->
  if ok then length idx' = length idx else idx' = [].
Proof.
  induction count as [|i IH]; intros idx idx' ok H; simpl in H.
  - injection H as <- <-. reflexivity.
  - bind_inv H as v _.
    bind_inv H as idx1 H1.
    apply store_Ret in H1 as (_ & _ & ->).
    destruct (wrapInt (v + 1) <? len).
    + injection H as <- <-. apply length_insert.
    + bind_inv H as idx2 H2.
      apply store_Ret in H2 as (_ & _ & ->).
      destruct (Z.of_nat i <=? 0).
      * injection H as <- <-. reflexivity.
      * apply IH in H. destruct ok; [|exact H].
        rewrite H, !length_insert. reflexivity.
Qed.

(** One call of [NextScenario]: what it returns and what it leaves. *)
Lemma NextScenario_Ret (g g' : Generator) (s : Scenario) (ok : bool) :
  NextScenario g = Ret (g', (s, ok)) ->
  allNodes g' = allNodes g /\ rounds g' = rounds g /\
  offsets g' = offsets g /\
  leadersPartitions g' = leadersPartitions g /\
  (if ok then length (indices g') = length (indices g) else indices g' = []) /\
  (ok = true ->
   Nodes s = allNodes g /\
   (length (indices g) = Z.to_nat (rounds g) ->
    forall v, v ∈ Views s -> v ∈ leadersPartitions g)).
Proof.
  unfold NextScenario. intros H.
  bind_inv H as p Hp.
  bind_inv H as [idx ok'] Ha.
  apply advance_length in Ha.
  assert (Hg : g' = setIndices g idx /\ ok = ok' /\
               (ok' = true -> s = mkScenario (allNodes g) p)).
  { destruct ok'; simpl in H; injection H as <- <- <-; auto.
    split; [reflexivity|]. split; [reflexivity|]. discriminate. }
  destruct Hg as (-> & -> & Hs). cbn [setIndices allNodes rounds offsets
    leadersPartitions indices].
  do 4 (split; [reflexivity|]). split; [exact Ha|].
  intros Hok. rewrite (Hs Hok). cbn [Nodes Views]. split; [reflexivity|].
  intros Hlen v Hv.
  change 0 with (Z.of_nat 0) in Hp.
  apply selectViews_elem in Hp as [Hl Hel].
  rewrite length_replicate in Hl.
  apply list_elem_of_lookup in Hv as [j Hj].
  destruct (Hel j v Hj) as [Hin|[_ Hrange]]; [exact Hin|].
  apply lookup_lt_Some in Hj. lia.
Qed.

(** What stays true along every run of a harness. *)
Lemma reachable_invariant (R : RandSource) (g0 g : Generator) :
  length (indices g0) = Z.to_nat (rounds g0) ->
  reachable R g0 g ->
  allNodes g = allNodes g0 /\ rounds g = rounds g0 /\
  (forall v, v ∈ leadersPartitions g -> v ∈ leadersPartitions g0) /\
  (length (indices g) = Z.to_nat (rounds g0) \/ indices g = []).
Proof.
  intros H0. induction 1 as [|g g' [s ok] Hreach IH Hnext
                              |g g' seed Hreach IH Hsh].
  - auto.
  - destruct IH as (Ha & Hr & Hlp & Hidx).
    destruct (NextScenario_Ret _ _ _ _ Hnext) as (Ha' & Hr' & _ & Hlp' & Hi' & _).
    rewrite Ha', Hr', Hlp'. do 3 (split; [assumption|]).
    destruct ok; [|right; exact Hi'].
    rewrite Hi'. destruct Hidx as [Hidx|Hidx]; [left; exact Hidx|].
    left. rewrite Hidx.
    unfold NextScenario in Hnext. rewrite Hidx in Hnext. simpl in Hnext.
    destruct (Z.to_nat (rounds g)) as [|c] eqn:E.
    + rewrite <- Hr, E. reflexivity.
    + simpl in Hnext. rewrite index_nil in Hnext. discriminate.
  - destruct IH as (Ha & Hr & Hlp & Hidx).
    apply Shuffle_Ret in Hsh as (Hsw & _ & Ha' & Hr' & _ & Hi').
    rewrite Ha', Hr', Hi'. do 2 (split; [assumption|]).
    split; [|exact Hidx].
    intros v Hv. apply Hlp. eapply applySwaps_elem; eassumption.
Qed.

(** ** Construction without twins *)

Lemma scenariosForSizes_no_assignment (k : Z) (sizes : list (list Z))
    (twins nodes : list NodeID) (acc : list (list NodeSet)) :
  scenariosForSizes k sizes [] twins nodes acc = Ret acc.
Proof. induction sizes as [|sz sizes IH]; simpl; auto. Qed.

(** C2 (as amended): [cartesianProduct] of no list is the single empty
    tuple, but [genPartitionScenarios] calls it only when there is at least
    one pair of twins.  With [numTwins = 0] the list of twin assignments is
    empty, so no partition scenario is built for any size vector and the
    list of view specs of the generator is empty. *)
Theorem NewGenerator_no_twins (fuel : nat) (replicas k r : Z) :
  1 <= replicas <= 255 -> 1 <= k <= 255 -> (257 * Z.to_nat k <= fuel)%nat ->
  cartesianProduct [] = [ [] ] /\
  twinAssignmentsOf [] k = [] /\
  exists g sizes,
    NewGenerator fuel replicas 0 k r = Ret g /\
    genPartitionSizes fuel replicas k 1 = Ret sizes /\
    genPartitionScenarios fuel [] (allNodes g) k 1 = Ret [] /\
    leadersPartitions g = [].
Proof.
  intros Hr Hk Hfuel. split; [reflexivity|]. split; [reflexivity|].
  destruct (assignIDs_legal replicas 0) as (Htw & Hnd & Hids); [lia..|].
  simpl in Htw.
  assert (Hps : genPartitionScenarios fuel [] (st_nodes (assignIDs replicas 0))
                  k 1 = Ret []).
  { unfold genPartitionScenarios. rewrite Hnd, plainRoster_length.
    cbn [length Nat.add].
    replace (Z.of_nat (Z.to_nat (replicas - 0))) with replicas by lia.
    rewrite (wrap8_small replicas) by lia.
    rewrite genPartitionSizes_Ret by (assumption || lia).
    cbn [mbind result_bind]. apply scenariosForSizes_no_assignment. }
  unfold NewGenerator. rewrite Htw, Hps. cbn [mbind result_bind].
  eexists _, _. split; [reflexivity|].
  split; [apply genPartitionSizes_Ret; assumption || lia|].
  split; [exact Hps|]. reflexivity.
Qed.

Lemma NewGenerator_no_twins_witness :
  genPartitionSizes 600 3 2 1 = Ret [[3; 0]; [2; 1]] /\
  cartesianProduct [] = [ [] ] /\
  twinAssignmentsOf [] 2 = [] /\
  exists g sizes,
    NewGenerator 600 3 0 2 2 = Ret g /\
    genPartitionSizes 600 3 2 1 = Ret sizes /\
    genPartitionScenarios 600 [] (allNodes g) 2 1 = Ret [] /\
    leadersPartitions g = [].
Proof.
  split; [vm_compute; reflexivity|].
  apply (NewGenerator_no_twins 600 3 2 2).
  - lia.
  - lia.
  - vm_compute. lia.
Defined.

(** C2, counterexample: for [replicas = 3], [numTwins = 0],
    [partitions = 2], [rounds = 2] the two size vectors [3,0] and [2,1] are
    enumerated, but the generator holds no view spec at all, where the claim
    expects six. *)
Lemma NewGenerator_no_twins_empty :
  exists g,
    NewGenerator 600 3 0 2 2 = Ret g /\
    genPartitionSizes 600 3 2 1 = Ret [[3; 0]; [2; 1]] /\
    length (leadersPartitions g) = 0%nat.
Proof.
  assert (Hc : (g ← NewGenerator 600 3 0 2 2;
                Ret (length (leadersPartitions g))) = Ret 0%nat)
    by by_evaluation.
  bind_inv Hc as g E. injection Hc as Hc.
  exists g. split; [exact E|]. split; [vm_compute; reflexivity|exact Hc].
Qed.

(** ** The number of scenarios handed out *)

Lemma valIdx_snoc (len : Z) (idx : list Z) (x : Z) :
  valIdx len (idx ++ [x]) = valIdx len idx * len + x.
Proof. unfold valIdx. rewrite fold_left_app. reflexivity. Qed.

Lemma in_range_snoc (len : Z) (idx : list Z) (x : Z) :
  in_range len (idx ++ [x]) <-> in_range len idx /\ 0 <= x < len.
Proof.
  unfold in_range. rewrite Forall_app. split.
  - intros [H1 H2]. split; [exact H1|]. apply (Forall_inv H2).
  - intros [H1 H2]. split; [exact H1|]. constructor; [exact H2|constructor].
Qed.

Lemma valIdx_bound (len : Z) (idx : list Z) :
  0 < len -> in_range len idx ->
  0 <= valIdx len idx < len ^ Z.of_nat (length idx).
Proof.
  intros Hlen. induction idx as [|x idx IH] using rev_ind; intros Hr.
  - simpl. unfold valIdx. simpl. lia.
  - apply in_range_snoc in Hr as [Hr Hx]. specialize (IH Hr).
    rewrite valIdx_snoc, length_app. simpl length.
    replace (Z.of_nat (length idx + 1)) with (Z.succ (Z.of_nat (length idx)))
      by lia.
    rewrite Z.pow_succ_r by lia. nia.
Qed.

Lemma valIdx_zeros (len : Z) (c : nat) : valIdx len (replicate c 0) = 0.
Proof.
  induction c as [|c IH] using nat_ind; [reflexivity|].
  replace (replicate (S c) 0) with (replicate c 0 ++ [0]).
  - rewrite valIdx_snoc, IH. lia.
  - clear IH. induction c as [|c IH]; simpl; [reflexivity|].
    f_equal. exact IH.
Qed.

(** The odometer adds one to the numeral held by the first [count]
    positions, and reports [false] when that numeral was the largest. *)
Lemma advance_spec (len : Z) (count : nat) :
  1 <= len < 4611686018427387904 ->
  forall idx : list Z,
  (count <= length idx)%nat -> in_range len (take count idx) ->
  (valIdx len (take count idx) + 1 < len ^ Z.of_nat count ->
   exists pre',
     advance len count idx = Ret (pre' ++ drop count idx, true) /\
     length pre' = count /\ in_range len pre' /\
     valIdx len pre' = valIdx len (take count idx) + 1) /\
  (valIdx len (take count idx) + 1 = len ^ Z.of_nat count ->
   (1 <= count)%nat -> advance len count idx = Ret ([], false)).
Proof.
  intros Hlen. induction count as [|i IH]; intros idx Hc Hr.
  - rewrite take_0. unfold valIdx. simpl. split; [lia|lia].
  - destruct (lookup_lt_is_Some_2 idx i ltac:(lia)) as [v Hv].
    rewrite (take_S_r _ _ _ Hv) in *.
    apply in_range_snoc in Hr as [Hr Hvr].
    rewrite valIdx_snoc.
    pose proof (valIdx_bound len (take i idx) ltac:(lia) Hr) as HV.
    rewrite length_take, Nat.min_l in HV by lia.
    replace (Z.of_nat (S i)) with (Z.succ (Z.of_nat i)) by lia.
    rewrite Z.pow_succ_r by lia.
    set (V := valIdx len (take i idx)) in *.
    set (P := len ^ Z.of_nat i) in *.
    cbn [advance].
    assert (Hix : index idx (Z.of_nat i) = Ret v)
      by (apply index_Ret; rewrite Nat2Z.id; split; [lia|exact Hv]).
    rewrite Hix. cbn [mbind result_bind].
    rewrite (wrapInt_small (v + 1)) by lia.
    rewrite store_in_range by (rewrite ?Nat2Z.id; lia).
    cbn [mbind result_bind]. rewrite Nat2Z.id.
    destruct (Z.ltb_spec (v + 1) len) as [Hlt|Hge].
    + split; [|intros; nia].
      intros _. exists (take i idx ++ [v + 1]).
      split; [|split; [|split]].
      * rewrite insert_take_drop by lia. rewrite <- app_assoc. reflexivity.
      * rewrite length_app, length_take. simpl. lia.
      * apply in_range_snoc. split; [exact Hr|lia].
      * rewrite valIdx_snoc. fold V. lia.
    + assert (v = len - 1) as -> by lia.
      rewrite store_in_range by (rewrite ?Nat2Z.id, ?length_insert; lia).
      cbn [mbind result_bind]. rewrite Nat2Z.id, list_insert_insert_eq.
      destruct (Z.leb_spec (Z.of_nat i) 0) as [Hi0|Hipos].
      * assert (i = 0%nat) as -> by lia.
        split; [|reflexivity].
        unfold V, P. rewrite take_0. unfold valIdx. simpl. lia.
      * assert (Hc2 : (i <= length (<[i := 0%Z]> idx))%nat)
          by (rewrite length_insert; lia).
        assert (Hr2 : in_range len (take i (<[i := 0]> idx)))
          by (rewrite take_insert_ge by lia; exact Hr).
        destruct (IH (<[i := 0]> idx) Hc2 Hr2) as [IH1 IH2].
        rewrite take_insert_ge in IH1, IH2 by lia. fold V P in IH1, IH2.
        split.
        -- intros Hsmall. destruct IH1 as (pre & Hadv & Hl & Hrp & Hval);
             [nia|].
           exists (pre ++ [0]). split; [|split; [|split]].
           ++ rewrite Hadv. f_equal. f_equal.
              rewrite <- app_assoc. f_equal.
              rewrite (drop_S _ 0 i) by (apply list_lookup_insert_eq; lia).
              f_equal. rewrite drop_insert_lt by lia. reflexivity.
           ++ rewrite length_app. simpl. lia.
           ++ apply in_range_snoc. split; [exact Hrp|lia].
           ++ rewrite valIdx_snoc, Hval. lia.
        -- intros Hlast _. apply IH2; [nia|lia].
Qed.

(** The views of a well-formed generator state can always be selected. *)
Lemma selectViews_total (lp : list View) (offs : list Z) (idx : list Z) :
  1 <= Z.of_nat (length lp) < 4611686018427387904 ->
  in_range (Z.of_nat (length lp)) offs ->
  in_range (Z.of_nat (length lp)) idx ->
  forall (i : nat) (p : list View),
  (i + length idx <= length offs)%nat -> (i + length idx <= length p)%nat ->
  exists p', selectViews lp offs (Z.of_nat i) idx p = Ret p'.
Proof.
  intros Hlen Hoffs. induction idx as [|ii idx IH]; intros Hidx i p Ho Hp.
  - eexists. reflexivity.
  - pose proof (Forall_inv Hidx) as Hii. apply Forall_inv_tail in Hidx.
    simpl in Ho, Hp, Hii.
    destruct (lookup_lt_is_Some_2 offs i ltac:(lia)) as [off Hoff].
    pose proof (Forall_forall (fun x => 0 <= x < Z.of_nat (length lp)) offs)
      as [Hf _].
    pose proof (Hf Hoffs off (proj1 (list_elem_of_In _ _)
                                (list_elem_of_lookup_2 _ _ _ Hoff))) as Hor.
    simpl in Hor.
    cbn [selectViews].
    assert (Hix : index offs (Z.of_nat i) = Ret off)
      by (apply index_Ret; rewrite Nat2Z.id; split; [lia|exact Hoff]).
    rewrite Hix. cbn [mbind result_bind].
    rewrite (wrapInt_small (ii + off)) by lia.
    set (ix := if Z.of_nat (length lp) <=? ii + off
               then wrapInt (ii + off - Z.of_nat (length lp))
               else ii + off).
    assert (Hixr : 0 <= ix < Z.of_nat (length lp)).
    { unfold ix. destruct (Z.leb_spec (Z.of_nat (length lp)) (ii + off)).
      - rewrite wrapInt_small by lia. lia.
      - lia. }
    destruct (lookup_lt_is_Some_2 lp (Z.to_nat ix) ltac:(lia)) as [v Hv].
    assert (Hlv : index lp ix = Ret v)
      by (apply index_Ret; split; [lia|exact Hv]).
    rewrite Hlv. cbn [mbind result_bind].
    rewrite store_in_range by (rewrite ?Nat2Z.id; lia).
    cbn [mbind result_bind].
    replace (Z.of_nat i + 1) with (Z.of_nat (S i)) by lia.
    apply IH; [exact Hidx| lia |rewrite length_insert; lia].
Qed.

Lemma NextScenario_step (len : Z) (count : nat) (g : Generator) :
  1 <= len < 4611686018427387904 -> (1 <= count)%nat ->
  iterating len count g ->
  (valIdx len (indices g) + 1 < len ^ Z.of_nat count ->
   exists g' s,
     NextScenario g = Ret (g', (s, true)) /\ iterating len count g' /\
     valIdx len (indices g') = valIdx len (indices g) + 1) /\
  (valIdx len (indices g) + 1 = len ^ Z.of_nat count ->
   NextScenario g = Ret (setIndices g [], (zeroScenario, false))).
Proof.
  intros Hlen Hcount (Hr & Hl & Hil & Hir & Hol & Hor).
  destruct (selectViews_total (leadersPartitions g) (offsets g) (indices g))
    with (i := 0%nat) (p := replicate (Z.to_nat (rounds g)) zeroView)
    as (p & Hp); try (rewrite Hl; assumption).
  { simpl. lia. }
  { rewrite length_replicate. simpl. lia. }
  destruct (advance_spec len count Hlen (indices g)) as [Hadv1 Hadv2].
  { lia. }
  { rewrite <- Hil, firstn_all. exact Hir. }
  rewrite <- Hil, firstn_all, Hil in Hadv1, Hadv2.
  unfold NextScenario. change (Z.of_nat 0) with 0 in Hp.
  rewrite Hp. cbn [mbind result_bind].
  rewrite Hl, Hr. split.
  - intros Hsmall. destruct (Hadv1 Hsmall) as (pre & Hadv & Hpl & Hpr & Hval).
    rewrite Hadv. cbn [mbind result_bind].
    rewrite <- Hil, skipn_all, app_nil_r.
    eexists _, _. split; [reflexivity|]. split; [|exact Hval].
    unfold iterating. cbn [setIndices rounds leadersPartitions indices offsets].
    rewrite Hil. auto 10.
  - intros Hlast. rewrite (Hadv2 Hlast Hcount). reflexivity.
Qed.

(** Draining a well-formed state whose indices hold the numeral [v] hands
    out the scenarios of the numerals [v], ..., [len^count - 2]: the call
    made at the last numeral [len^count - 1] is the one that reports
    exhaustion. *)
Lemma drain_count (len : Z) (count : nat) :
  1 <= len < 4611686018427387904 -> (1 <= count)%nat ->
  forall (n : nat) (g : Generator),
  iterating len count g ->
  Z.of_nat n = len ^ Z.of_nat count - 1 - valIdx len (indices g) ->
  exists ss g',
    (forall fuel, (n < fuel)%nat -> drain fuel g = Ret (ss, g')) /\
    length ss = n /\ indices g' = [].
Proof.
  intros Hlen Hcount. induction n as [|n IH]; intros g Hg Hn.
  - destruct (NextScenario_step len count g Hlen Hcount Hg) as [_ Hlast].
    specialize (Hlast ltac:(lia)).
    exists [], (setIndices g []). split; [|auto].
    intros [|fuel] Hf; [lia|]. cbn [drain]. rewrite Hlast. reflexivity.
  - destruct (NextScenario_step len count g Hlen Hcount Hg) as [Hstep _].
    destruct (Hstep ltac:(lia)) as (g1 & s & Hnext & Hg1 & Hval).
    destruct (IH g1 Hg1 ltac:(lia)) as (ss & g' & Hdrain & Hlen' & Hidx).
    exists (s :: ss), g'. split; [|split; [simpl; lia|exact Hidx]].
    intros [|fuel] Hf; [lia|]. cbn [drain]. rewrite Hnext.
    cbn [mbind result_bind]. rewrite (Hdrain fuel) by lia. reflexivity.
Qed.

(** C1, what the code does: a fresh iterator over [len >= 1] view specs and
    [count >= 1] rounds hands out [len^count - 1] scenarios with
    [ok = true], one fewer than the [len^count] of the claim: the call made
    at the all-max indices computes the views of the last combination and
    then reports exhaustion with the zero scenario. *)
Theorem drain_stops_one_short (len : Z) (count : nat) (g : Generator) :
  1 <= len < 4611686018427387904 -> (1 <= count)%nat ->
  iterating len count g -> indices g = replicate count 0 ->
  exists ss g',
    (forall fuel, (Z.to_nat (len ^ Z.of_nat count) <= fuel)%nat ->
       drain fuel g = Ret (ss, g')) /\
    Z.of_nat (length ss) = len ^ Z.of_nat count - 1 /\
    indices g' = [].
Proof.
  intros Hlen Hcount Hg Hfresh.
  assert (Hpow : 0 < len ^ Z.of_nat count)
    by (apply Z.pow_pos_nonneg; lia).
  destruct (drain_count len count Hlen Hcount
              (Z.to_nat (len ^ Z.of_nat count - 1)) g Hg)
    as (ss & g' & Hdrain & Hl & Hidx).
  { rewrite Hfresh, valIdx_zeros. lia. }
  exists ss, g'. split; [|split; [lia|exact Hidx]].
  intros fuel Hf. apply Hdrain. lia.
Qed.

(** The run used as example: [NewGenerator(2, 1, 2, 2)], six view specs
    and two rounds. *)
Lemma run_six_views :
  exists g,
    NewGenerator 600 2 1 2 2 = Ret g /\
    length (leadersPartitions g) = 6%nat.
Proof.
  assert (Hc : (g ← NewGenerator 600 2 1 2 2;
                Ret (length (leadersPartitions g))) = Ret 6%nat)
    by by_evaluation.
  bind_inv Hc as g E. injection Hc as Hc. eauto.
Qed.

Lemma drain_stops_one_short_witness :
  exists g ss g',
    NewGenerator 600 2 1 2 2 = Ret g /\
    length (leadersPartitions g) = 6%nat /\
    (forall fuel, (Z.to_nat (6 ^ Z.of_nat 2) <= fuel)%nat ->
       drain fuel g = Ret (ss, g')) /\
    Z.of_nat (length ss) = 6 ^ Z.of_nat 2 - 1 /\
    indices g' = [].
Proof.
  destruct run_six_views as (g & E & Hl).
  pose proof (NewGenerator_fields _ _ _ _ _ _ E) as (Hr & _ & Hi & Ho & _).
  destruct (drain_stops_one_short 6 2 g) as (ss & g' & H).
  - lia.
  - lia.
  - unfold iterating. rewrite Hr, Hl, Hi, Ho.
    split; [reflexivity|]. split; [reflexivity|].
    split; [reflexivity|]. split; [repeat constructor; lia|].
    split; [reflexivity|]. repeat constructor; lia.
  - rewrite Hi. reflexivity.
  - exists g, ss, g'. split; [exact E|]. split; [exact Hl|]. exact H.
Defined.

(** C1, at the input [NewGenerator(1, 1, 1, 1)]: one view spec and one
    round, so one scenario is expected; the first call of [NextScenario]
    already returns [ok = false], and draining yields no scenario. *)
Lemma drain_single_view_empty :
  exists g g',
    NewGenerator 10 1 1 1 1 = Ret g /\
    length (leadersPartitions g) = 1%nat /\
    drain 5 g = Ret ([], g').
Proof.
  assert (Hc : (g ← NewGenerator 10 1 1 1 1;
                '(ss, g') ← drain 5 g;
                Ret (length (leadersPartitions g), length ss))
               = Ret (1%nat, 0%nat))
    by by_evaluation.
  bind_inv Hc as g E.
  bind_inv Hc as [ss g'] Ed.
  injection Hc as Hl Hs. destruct ss; [|discriminate].
  exists g, g'. auto.
Qed.

(** * Further properties of the generator *)

(** ** The enumerators of twin assignments *)

Lemma flat_map_elem {A B : Type} (f : A -> list B) (l : list A) (y : B) :
  y ∈ flat_map f l <-> exists x, x ∈ l /\ y ∈ f x.
Proof.
  rewrite list_elem_of_In, in_flat_map.
  split; intros (x & H1 & H2); exists x; split;
    first [apply list_elem_of_In; assumption | assumption
          | apply list_elem_of_In in H1; assumption
          | apply list_elem_of_In in H2; assumption].
Qed.

Lemma flat_map_NoDup {A B : Type} (f : A -> list B) (l : list A) :
  (forall x1 x2 y, x1 ∈ l -> x2 ∈ l -> y ∈ f x1 -> y ∈ f x2 -> x1 = x2) ->
  (forall x, x ∈ l -> NoDup (f x)) -> NoDup l -> NoDup (flat_map f l).
Proof.
  intros Hinj Hf Hl. induction Hl as [|x l Hx Hl IH]; simpl; [constructor|].
  apply list.NoDup_app. split; [apply Hf; left|]. split.
  - intros y Hy Hy'. apply flat_map_elem in Hy' as (x' & Hx' & Hy').
    assert (x = x') by (eapply Hinj; [left|right; eassumption|eassumption..]).
    subst. contradiction.
  - apply IH.
    + intros x1 x2 y H1 H2. apply Hinj; right; assumption.
    + intros x' Hx'. apply Hf. right. assumption.
Qed.

Lemma generateTwinPartitionPairs_elem (n a b : Z) :
  (a, b) ∈ generateTwinPartitionPairs n <-> 0 <= a <= b /\ b < n.
Proof.
  unfold generateTwinPartitionPairs. rewrite flat_map_elem. split.
  - intros (i & Hi & Hab).
    apply list_elem_of_fmap in Hab as (j & [= -> ->] & Hj).
    apply elem_of_seq in Hi. apply elem_of_seq in Hj. lia.
  - intros [Ha Hb]. exists (Z.to_nat a). split.
    + apply elem_of_seq. lia.
    + apply list_elem_of_fmap. exists (Z.to_nat b).
      split; [f_equal; lia|]. apply elem_of_seq. lia.
Qed.

Lemma generateTwinPartitionPairs_NoDup (n : Z) :
  NoDup (generateTwinPartitionPairs n).
Proof.
  unfold generateTwinPartitionPairs. apply flat_map_NoDup.
  - intros i j x _ _ Hi Hj.
    apply list_elem_of_fmap in Hi as (a & -> & _).
    apply list_elem_of_fmap in Hj as (b & [= E _] & _).
    lia.
  - intros i _. apply NoDup_fmap_2; [|apply NoDup_seq].
    intros a b [= E]. lia.
  - apply NoDup_seq.
Qed.

(** X1: [generateTwinPartitionPairs(n)] lists every pair [(a, b)] with
    [0 <= a <= b < n], each of them once, and nothing else (for [n = 0] it
    is empty). *)
Theorem generateTwinPartitionPairs_exact (n : Z) :
  NoDup (generateTwinPartitionPairs n) /\
  forall a b : Z,
    (a, b) ∈ generateTwinPartitionPairs n <-> 0 <= a <= b /\ b < n.
Proof.
  split.
  - apply generateTwinPartitionPairs_NoDup.
  - intros a b. apply generateTwinPartitionPairs_elem.
Qed.

(** X2: [cartesianProduct] returns exactly the tuples that take their
    entry [i] from the list [input[i]]: as many as the product of the
    lengths of the lists, so none as soon as one list is empty and the one
    empty tuple for no list at all. *)
Theorem cartesianProduct_exact (input : list (list twinAssignment)) :
  length (cartesianProduct input)
    = foldr (fun l acc => (length l * acc)%nat) 1%nat input /\
  forall tuple : list twinAssignment,
    tuple ∈ cartesianProduct input
    <-> Forall2 (fun v l => v ∈ l) tuple input.
Proof.
  split.
  - induction input as [|l rest IH]; [reflexivity|].
    cbn [cartesianProduct foldr]. rewrite <- IH.
    apply length_flat_map_map.
  - induction input as [|l rest IH]; intros tuple.
    + simpl. rewrite list_elem_of_singleton. split.
      * intros ->. constructor.
      * intros H. inversion H. reflexivity.
    + cbn [cartesianProduct]. rewrite flat_map_elem. split.
      * intros (v & Hv & Ht).
        apply list_elem_of_fmap in Ht as (p & -> & Hp).
        constructor; [exact Hv|]. apply IH. exact Hp.
      * intros H. inversion H as [|v l' p rest' Hv Hp]; subst.
        exists v. split; [exact Hv|]. apply list_elem_of_fmap.
        exists p. split; [reflexivity|]. apply IH. exact Hp.
Qed.

(** ** The capacity test *)

Lemma isValidLoop_placeAll (len : nat) (ta : list twinAssignment) :
  forall ps, isValidLoop len ta ps = placeAll len (slotsOf ta) ps.
Proof.
  induction ta as [|[a b] ta IH]; intros ps; [reflexivity|].
  cbn [isValidLoop slotsOf flat_map fst snd app placeAll].
  destruct (placeTwin len ps a) as [ps1|]; [|reflexivity].
  destruct (placeTwin len ps1 b) as [ps2|]; [|reflexivity].
  apply IH.
Qed.

Lemma placeTwin_exact (ps : list Z) (x : Z) (r : option (list Z)) :
  0 <= x -> Forall (fun c => 0 <= c <= 255) ps ->
  placeTwin (length ps) ps x = r ->
  match r with
  | Some ps1 =>
    exists c, ps !! Z.to_nat x = Some c /\ 1 <= c /\
              ps1 = <[Z.to_nat x := c - 1]> ps
  | None => forall c, ps !! Z.to_nat x = Some c -> c = 0
  end.
Proof.
  intros Hx Hps <-. unfold placeTwin.
  destruct (Z.leb_spec (Z.of_nat (length ps)) x) as [Hge|Hlt].
  - intros c Hc. apply lookup_lt_Some in Hc. lia.
  - destruct (ps !! Z.to_nat x) as [c|] eqn:E; [|intros c [=]].
    pose proof (proj1 (Forall_lookup _ _) Hps _ _ E) as Hc. simpl in Hc.
    destruct (Z.eqb_spec c 0) as [->|Hne].
    + intros c [= <-]. reflexivity.
    + exists c. split; [reflexivity|]. split; [lia|].
      rewrite wrap8_small by lia. reflexivity.
Qed.

Lemma placeAll_exact (slots : list Z) :
  forall ps : list Z,
  Forall (fun x => 0 <= x) slots ->
  Forall (fun c => 0 <= c <= 255) ps ->
  placeAll (length ps) slots ps = true <->
  forall p, p ∈ slots ->
    exists c, ps !! Z.to_nat p = Some c /\
              Z.of_nat (count_occ Z.eq_dec slots p) <= c.
Proof.
  induction slots as [|x slots IH]; intros ps Hs Hps.
  - simpl. split; [intros _ p Hp; inversion Hp | reflexivity].
  - pose proof (Forall_inv Hs) as Hx. pose proof (Forall_inv_tail Hs) as Hs'.
    cbn [placeAll].
    pose proof (placeTwin_exact ps x _ Hx Hps eq_refl) as Hpt.
    destruct (placeTwin (length ps) ps x) as [ps1|].
    + destruct Hpt as (c & Hc & Hc1 & ->).
      assert (Hps1 : Forall (fun c => 0 <= c <= 255)
                       (<[Z.to_nat x := c - 1]> ps)).
      { apply Forall_insert; [exact Hps|].
        pose proof (proj1 (Forall_lookup _ _) Hps _ _ Hc) as Hr.
        simpl in Hr. lia. }
      pose proof (IH (<[Z.to_nat x := c - 1]> ps) Hs' Hps1) as IH'.
      rewrite length_insert in IH'. rewrite IH'. clear IH'.
      split.
      * intros H p Hp. destruct (Z.eq_dec p x) as [->|Hne].
        -- exists c. split; [exact Hc|].
           rewrite count_occ_cons_eq by reflexivity.
           destruct (decide (x ∈ slots)) as [Hin|Hnin].
           ++ destruct (H x Hin) as (c' & Hc' & Hle).
              rewrite list_lookup_insert_eq in Hc'
                by (eapply lookup_lt_Some; eassumption).
              injection Hc' as <-. lia.
           ++ assert (count_occ Z.eq_dec slots x = 0%nat) as ->
                by (apply count_occ_not_In; rewrite <- list_elem_of_In;
                    exact Hnin).
              lia.
        -- apply elem_of_cons in Hp as [->|Hp]; [contradiction|].
           destruct (H p Hp) as (c' & Hc' & Hle).
           rewrite list_lookup_insert_ne in Hc'.
           ++ exists c'. split; [exact Hc'|].
              rewrite count_occ_cons_neq by congruence. exact Hle.
           ++ pose proof (proj1 (list.Forall_forall _ _) Hs' p Hp). simpl in *. lia.
      * intros H p Hp. destruct (Z.eq_dec p x) as [->|Hne].
        -- destruct (H x ltac:(left)) as (c' & Hc' & Hle).
           rewrite Hc in Hc'. injection Hc' as <-.
           rewrite count_occ_cons_eq in Hle by reflexivity.
           exists (c - 1). split; [|lia].
           apply list_lookup_insert_eq. eapply lookup_lt_Some; eassumption.
        -- destruct (H p ltac:(right; exact Hp)) as (c' & Hc' & Hle).
           rewrite count_occ_cons_neq in Hle by congruence.
           exists c'. split; [|exact Hle].
           rewrite list_lookup_insert_ne; [exact Hc'|].
           pose proof (proj1 (list.Forall_forall _ _) Hs' p Hp). simpl in *. lia.
    + split; [discriminate|]. intros H.
      destruct (H x ltac:(left)) as (c & Hc & Hle).
      rewrite count_occ_cons_eq in Hle by reflexivity.
      apply Hpt in Hc. lia.
Qed.

(** X3: [isValidTwinAssignment] accepts a twin assignment exactly when
    every partition it names exists and is named at most as many times as
    its size allows; a partition index past the end of the size vector is
    rejected, not a panic. *)
Theorem isValidTwinAssignment_exact (ta : list twinAssignment)
    (partitionSizes : list Z) :
  Forall (fun c => 0 <= c <= 255) partitionSizes ->
  Forall (fun ab : twinAssignment => 0 <= fst ab /\ 0 <= snd ab) ta ->
  (isValidTwinAssignment ta partitionSizes = true <->
   forall p, p ∈ slotsOf ta ->
     exists c, partitionSizes !! Z.to_nat p = Some c /\ demand ta p <= c).
Proof.
  intros Hps Hta. unfold isValidTwinAssignment, demand.
  rewrite isValidLoop_placeAll. apply placeAll_exact; [|exact Hps].
  clear Hps. induction Hta as [|[a b] ta [Ha Hb] _ IH]; simpl; auto.
Qed.

Lemma isValidTwinAssignment_exact_witness :
  isValidTwinAssignment [(0, 0); (0, 1)] [3; 1] = true <->
  forall p, p ∈ slotsOf [(0, 0); (0, 1)] ->
    exists c, [3; 1] !! Z.to_nat p = Some c /\
              demand [(0, 0); (0, 1)] p <= c.
Proof.
  apply (isValidTwinAssignment_exact [(0, 0); (0, 1)] [3; 1]).
  - repeat constructor; lia.
  - repeat constructor; simpl; lia.
Defined.

(** ** Completeness of the partition sizes *)

Lemma sumZ_zero_replicate (t : list Z) :
  (forall x, x ∈ t -> 0 <= x) -> sumZ t = 0 -> t = replicate (length t) 0.
Proof.
  induction t as [|x t IH]; intros Hnn Hs; [reflexivity|].
  simpl in Hs. fold (sumZ t) in Hs.
  assert (0 <= x) by (apply Hnn; left).
  assert (0 <= sumZ t).
  { apply sumZ_nonneg, list.Forall_forall. intros y Hy. apply Hnn. right. exact Hy. }
  simpl. f_equal; [lia|]. apply IH; [|lia].
  intros y Hy. apply Hnn. right. exact Hy.
Qed.

Lemma non_increasing_tail (a : Z) (t : list Z) :
  non_increasing (a :: t) ->
  non_increasing t /\ forall x, t !! 0%nat = Some x -> x <= a.
Proof.
  intros H. split.
  - intros i x y Hx Hy. apply (H (S i) x y); assumption.
  - intros x Hx. apply (H 0%nat a x); [reflexivity|exact Hx].
Qed.

Lemma sizeTails_complete (d : nat) : forall (bound n : Z) (t : list Z),
  1 <= n <= 255 -> length t = d ->
  non_increasing t -> (forall x, x ∈ t -> 0 <= x) -> sumZ t = n ->
  (forall x, t !! 0%nat = Some x -> x <= bound) ->
  t ∈ sizeTails d bound n.
Proof.
  induction d as [|d IH]; intros bound n t Hn Hl Hni Hnn Hs Hb.
  - destruct t; [|discriminate]. simpl in Hs. lia.
  - destruct t as [|x t]; [discriminate|]. injection Hl as Hl.
    simpl in Hs. fold (sumZ t) in Hs.
    apply non_increasing_tail in Hni as [Hni Hhd].
    assert (Hx0 : 0 <= x) by (apply Hnn; left).
    assert (Hnn' : forall y, y ∈ t -> 0 <= y)
      by (intros y Hy; apply Hnn; right; exact Hy).
    assert (Ht0 : 0 <= sumZ t)
      by (apply sumZ_nonneg, list.Forall_forall; exact Hnn').
    specialize (Hb x eq_refl).
    cbn [sizeTails]. rewrite (wrap8_small (n - 1)) by lia.
    apply elem_of_app.
    destruct (Z.eq_dec (sumZ t) 0) as [Hz|Hnz].
    + left. assert (x = n) as -> by lia.
      destruct (Z.leb_spec n bound); [|lia].
      rewrite (sumZ_zero_replicate t Hnn' Hz), Hl. constructor.
    + right. apply elem_of_flat_map_cons. exists x, t.
      split; [reflexivity|].
      assert (Hx1 : 1 <= x).
      { destruct t as [|y t']; [simpl in Hnz; lia|].
        specialize (Hhd y eq_refl).
        destruct (Z.eq_dec x 0) as [->|]; [|lia].
        exfalso. apply Hnz.
        assert (Hall : forall z, z ∈ y :: t' -> z = 0).
        { clear -Hni Hhd Hnn'. intros z Hz.
          apply list_elem_of_lookup in Hz as [i Hi].
          assert (Hle : forall (i : nat) z, (y :: t') !! i = Some z -> z <= 0).
          { clear -Hni Hhd. induction i as [|i IHi]; intros z Hz.
            - injection Hz as <-. exact Hhd.
            - destruct ((y :: t') !! i) as [w|] eqn:Ew.
              + pose proof (Hni i w z Ew Hz). specialize (IHi w eq_refl). lia.
              + apply lookup_ge_None in Ew. apply lookup_lt_Some in Hz. lia. }
          pose proof (Hle i z Hi).
          assert (0 <= z) by (apply Hnn'; eapply list_elem_of_lookup_2; eassumption).
          lia. }
        clear -Hall. induction (y :: t') as [|z l IHl]; [reflexivity|].
        simpl. fold (sumZ l). rewrite (Hall z) by (left).
        rewrite IHl; [reflexivity|]. intros w Hw. apply Hall. right. exact Hw. }
      split; [apply elem_of_downFrom; lia|].
      rewrite (wrap8_small (n - x)) by lia.
      apply IH; auto; lia.
Qed.

(** X4: for [1 <= n <= 255] and [1 <= k <= 255] the enumerator with
    [minSize = 1] misses nothing: every vector of [k] non-negative sizes
    that is non-increasing and sums to [n] is in the list it returns. *)
Theorem genPartitionSizes_complete (n k : Z) (s : list Z) :
  1 <= n <= 255 -> 1 <= k <= 255 ->
  length s = Z.to_nat k -> non_increasing s ->
  (forall x, x ∈ s -> 0 <= x) -> sumZ s = n ->
  exists sizes,
    (forall fuel, (257 * Z.to_nat k <= fuel)%nat ->
       genPartitionSizes fuel n k 1 = Ret sizes) /\
    s ∈ sizes.
Proof.
  intros Hn Hk Hl Hni Hnn Hs. exists (sizeTails (Z.to_nat k) 255 n).
  split.
  - intros fuel Hfuel. apply genPartitionSizes_Ret; [lia|assumption..].
  - apply sizeTails_complete; auto.
    intros x Hx. apply list_elem_of_lookup_2 in Hx.
    assert (0 <= sumZ s - x); [|lia].
    clear -Hx Hnn. induction s as [|y s IH]; [inversion Hx|].
    simpl. fold (sumZ s).
    assert (Hs0 : 0 <= sumZ s).
    { apply sumZ_nonneg, list.Forall_forall. intros z Hz. apply Hnn. right. exact Hz. }
    apply elem_of_cons in Hx as [->|Hx]; [lia|].
    assert (0 <= y) by (apply Hnn; left).
    specialize (IH ltac:(intros z Hz; apply Hnn; right; exact Hz) Hx). lia.
Qed.

Lemma genPartitionSizes_complete_witness :
  exists sizes,
    (forall fuel, (257 * Z.to_nat 3 <= fuel)%nat ->
       genPartitionSizes fuel 5 3 1 = Ret sizes) /\
    [2; 2; 1] ∈ sizes.
Proof.
  apply (genPartitionSizes_complete 5 3 [2; 2; 1]).
  - lia.
  - lia.
  - reflexivity.
  - intros [|[|[|i]]] a b Ha Hb; simpl in *; try discriminate;
      injection Ha as <-; injection Hb as <-; lia.
  - intros x Hx. repeat (apply elem_of_cons in Hx as [->|Hx]; [lia|]).
    inversion Hx.
  - reflexivity.
Defined.

(** ** When the constructor returns *)

Lemma wrap8_range (x : Z) : 0 <= wrap8 x <= 255.
Proof. unfold wrap8. pose proof (Z.mod_pos_bound x 256). lia. Qed.

(** Without twins no scenario is built, whatever the nodes. *)
Lemma genPartitionScenarios_no_twins (fuel : nat) (nodes : list NodeID)
    (k : Z) :
  1 <= k <= 255 -> (257 * Z.to_nat k <= fuel)%nat ->
  genPartitionScenarios fuel [] nodes k 1 = Ret [].
Proof.
  intros Hk Hfuel. unfold genPartitionScenarios.
  rewrite genPartitionSizes_Ret by (apply wrap8_range || assumption).
  cbn [mbind result_bind]. apply scenariosForSizes_no_assignment.
Qed.

Lemma assignIDs_no_twins (replicas numTwins : Z) :
  0 <= replicas <= 255 -> 0 <= numTwins <= 255 ->
  replicas = 0 \/ numTwins = 0 ->
  st_twins (assignIDs replicas numTwins) = [].
Proof.
  intros Hr Ht [->| ->].
  - reflexivity.
  - destruct (assignIDs_legal replicas 0) as (H & _); [lia..|]. exact H.
Qed.

Lemma assignIDs_replicaIDs (replicas numTwins : Z) :
  0 <= replicas <= 255 -> 0 <= numTwins <= 255 ->
  st_replicaIDs (assignIDs replicas numTwins) = seqZ 1 replicas.
Proof.
  intros Hr Ht. destruct (Z.le_gt_cases numTwins replicas).
  - destruct (assignIDs_legal replicas numTwins) as (_ & _ & E); [lia..|].
    exact E.
  - destruct (assignIDs_surplus replicas numTwins) as (_ & _ & E); [lia..|].
    exact E.
Qed.

Lemma NewGenerator_surplus_eq (fuel : nat) (replicas numTwins k r : Z) :
  0 <= replicas < numTwins -> numTwins < 256 ->
  NewGenerator fuel replicas numTwins k r
  = NewGenerator fuel replicas replicas k r.
Proof.
  intros Ht Hr. unfold NewGenerator.
  destruct (assignIDs_surplus replicas numTwins) as (H1 & H2 & H3); [lia..|].
  destruct (assignIDs_legal replicas replicas) as (H4 & H5 & H6); [lia..|].
  cbv zeta. rewrite H1, H2, H3, H4, H5, H6.
  replace (replicas - replicas) with 0 by lia. reflexivity.
Qed.

Lemma NewGenerator_inv (fuel : nat) (replicas numTwins k r : Z)
    (g : Generator) :
  NewGenerator fuel replicas numTwins k r = Ret g ->
  exists scenarios,
    genPartitionScenarios fuel (st_twins (assignIDs replicas numTwins))
      (st_nodes (assignIDs replicas numTwins)) k 1 = Ret scenarios /\
    leadersPartitions g
    = leaderCross scenarios (st_replicaIDs (assignIDs replicas numTwins)).
Proof.
  unfold NewGenerator. intros H. bind_inv H as scenarios Hs.
  injection H as <-. exists scenarios. split; [exact Hs|reflexivity].
Qed.

(** X5: for [uint8] arguments the constructor panics exactly when
    [partitions = 0] (the size enumerator writes [s[0]] into an empty
    slice); with [partitions >= 1] it returns a generator for every
    [replicas] and [numTwins], and the list of view specs of that generator
    is empty when there is no replica or no twin. *)
Theorem NewGenerator_panics_iff (fuel : nat) (replicas numTwins k r : Z) :
  0 <= replicas <= 255 -> 0 <= numTwins <= 255 -> 0 <= k <= 255 ->
  (1 + 257 * Z.to_nat k <= fuel)%nat ->
  if k =? 0 then NewGenerator fuel replicas numTwins k r = Panic
  else exists g,
    NewGenerator fuel replicas numTwins k r = Ret g /\
    (replicas = 0 \/ numTwins = 0 -> leadersPartitions g = []).
Proof.
  intros Hr Ht Hk Hfuel. destruct (Z.eqb_spec k 0) as [->|Hk0].
  - destruct fuel as [|fuel]; [lia|]. reflexivity.
  - destruct (decide (replicas = 0 \/ numTwins = 0)) as [H0|H0].
    + unfold NewGenerator.
      rewrite (assignIDs_no_twins replicas numTwins Hr Ht H0).
      rewrite genPartitionScenarios_no_twins by lia.
      cbn [mbind result_bind]. eexists. split; reflexivity.
    + destruct (Z.le_gt_cases numTwins replicas) as [Hle|Hgt].
      * destruct (NewGenerator_ok fuel replicas numTwins k r)
          as (g & _ & Hg & _); try lia.
        exists g. split; [exact Hg|]. intros H. contradiction.
      * rewrite NewGenerator_surplus_eq by lia.
        destruct (NewGenerator_ok fuel replicas replicas k r)
          as (g & _ & Hg & _); try lia.
        exists g. split; [exact Hg|]. intros H. contradiction.
Qed.

Lemma NewGenerator_panics_iff_witness :
  NewGenerator 600 4 1 0 2 = Panic /\
  exists g,
    NewGenerator 600 3 0 2 2 = Ret g /\
    (3 = 0 \/ 0 = 0 -> leadersPartitions g = []).
Proof.
  split.
  - apply (NewGenerator_panics_iff 600 4 1 0 2); lia.
  - apply (NewGenerator_panics_iff 600 3 0 2 2); lia.
Defined.

(** ** The list of view specs *)

(** X6: the list of view specs holds, for every partition scenario in the
    order of [genPartitionScenarios], one view spec per replica in the
    order of the replica IDs: entry [i * replicas + j] is replica [j + 1]
    leading partition scenario [i]. *)
Theorem NewGenerator_leaders (fuel : nat) (replicas numTwins k r : Z)
    (g : Generator) :
  0 <= replicas <= 255 -> 0 <= numTwins <= 255 ->
  NewGenerator fuel replicas numTwins k r = Ret g ->
  exists scenarios,
    genPartitionScenarios fuel (st_twins (assignIDs replicas numTwins))
      (st_nodes (assignIDs replicas numTwins)) k 1 = Ret scenarios /\
    Z.of_nat (length (leadersPartitions g))
      = Z.of_nat (length scenarios) * replicas /\
    forall (i : nat) (j : Z) (p : list NodeSet),
      scenarios !! i = Some p -> 0 <= j < replicas ->
      leadersPartitions g !! (i * Z.to_nat replicas + Z.to_nat j)%nat
        = Some (mkView (j + 1) p).
Proof.
  intros Hr Ht Hg.
  apply NewGenerator_inv in Hg as (scenarios & Hs & Hlp).
  rewrite assignIDs_replicaIDs in Hlp by assumption.
  exists scenarios. split; [exact Hs|]. rewrite Hlp. unfold leaderCross.
  assert (Hlen : length (seqZ 1 replicas) = Z.to_nat replicas)
    by apply length_seqZ.
  split.
  - rewrite (length_flat_map_map (fun p id => mkView id p)), Hlen. lia.
  - intros i j p Hp Hj.
    rewrite (lookup_flat_map_map (fun p id => mkView id p)) by lia.
    rewrite Hlen.
    assert (Hd : ((i * Z.to_nat replicas + Z.to_nat j) / Z.to_nat replicas
                  = i)%nat).
    { rewrite Nat.add_comm, Nat.div_add by lia.
      rewrite Nat.div_small by lia. reflexivity. }
    assert (Hm : ((i * Z.to_nat replicas + Z.to_nat j) mod Z.to_nat replicas
                  = Z.to_nat j)%nat).
    { rewrite Nat.add_comm, Nat.Div0.mod_add. apply Nat.mod_small. lia. }
    rewrite Hd, Hm, Hp.
    rewrite (lookup_seqZ_lt 1 replicas (Z.to_nat j)) by lia.
    do 2 f_equal. lia.
Qed.

Lemma NewGenerator_leaders_witness :
  exists g scenarios,
    NewGenerator 600 2 1 2 2 = Ret g /\
    genPartitionScenarios 600 (st_twins (assignIDs 2 1))
      (st_nodes (assignIDs 2 1)) 2 1 = Ret scenarios /\
    Z.of_nat (length (leadersPartitions g))
      = Z.of_nat (length scenarios) * 2 /\
    forall (i : nat) (j : Z) (p : list NodeSet),
      scenarios !! i = Some p -> 0 <= j < 2 ->
      leadersPartitions g !! (i * Z.to_nat 2 + Z.to_nat j)%nat
        = Some (mkView (j + 1) p).
Proof.
  destruct run_six_views as (g & E & _).
  destruct (NewGenerator_leaders 600 2 1 2 2 g) as (scenarios & H).
  - lia.
  - lia.
  - exact E.
  - exists g, scenarios. split; [exact E|exact H].
Defined.

Lemma scenariosForSize_length (k : Z) (sz : list Z)
    (twins nodes : list NodeID) (tas : list (list twinAssignment)) :
  forall acc acc' : list (list NodeSet),
  scenariosForSize k sz tas twins nodes acc = Ret acc' ->
  length acc' = (length acc + feasible sz tas)%nat.
Proof.
  unfold feasible.
  induction tas as [|ta tas IH]; intros acc acc' H; simpl in *.
  - injection H as <-. lia.
  - destruct (isValidTwinAssignment ta sz).
    + bind_inv H as parts Hp. apply IH in H.
      rewrite H, length_app. simpl. lia.
    + apply IH in H. exact H.
Qed.

Lemma scenariosForSizes_length (k : Z) (twins nodes : list NodeID)
    (tas : list (list twinAssignment)) (sizes : list (list Z)) :
  forall acc acc' : list (list NodeSet),
  scenariosForSizes k sizes tas twins nodes acc = Ret acc' ->
  length acc' = (length acc + feasiblePairs sizes tas)%nat.
Proof.
  induction sizes as [|sz sizes IH]; intros acc acc' H; simpl in *.
  - injection H as <-. lia.
  - bind_inv H as acc1 H1. apply scenariosForSize_length in H1.
    apply IH in H. lia.
Qed.

Lemma placeTwin_first_slot (c : Z) (rest : list Z) :
  1 <= c <= 255 ->
  placeTwin (S (length rest)) (c :: rest) 0 = Some (c - 1 :: rest).
Proof.
  intros Hc. unfold placeTwin.
  destruct (Z.leb_spec (Z.of_nat (S (length rest))) 0) as [|_]; [lia|].
  change ((c :: rest) !! Z.to_nat 0) with (Some c). cbv iota beta.
  replace (c =? 0) with false by (symmetry; apply Z.eqb_neq; lia).
  rewrite (wrap8_small (c - 1)) by lia. reflexivity.
Qed.

Lemma isValidLoop_first_slot (t : nat) : forall (c : Z) (rest : list Z),
  2 * Z.of_nat t <= c <= 255 ->
  isValidLoop (S (length rest)) (replicate t (0, 0)) (c :: rest) = true.
Proof.
  induction t as [|t IH]; intros c rest Hc; [reflexivity|].
  cbn [replicate isValidLoop].
  rewrite placeTwin_first_slot by lia.
  rewrite placeTwin_first_slot by lia.
  apply IH. lia.
Qed.

Lemma feasible_pos (sz : list Z) (tas : list (list twinAssignment))
    (ta : list twinAssignment) :
  ta ∈ tas -> isValidTwinAssignment ta sz = true -> (1 <= feasible sz tas)%nat.
Proof.
  intros Hin Hv. unfold feasible.
  assert (Hf : In ta (List.filter (fun ta => isValidTwinAssignment ta sz) tas)).
  { apply filter_In. split; [apply list_elem_of_In; exact Hin|exact Hv]. }
  destruct (List.filter _ tas); [destruct Hf|simpl; lia].
Qed.

Lemma cartesianProduct_replicate_diag (P : list twinAssignment) (t : nat)
    (v : twinAssignment) :
  v ∈ P -> replicate t v ∈ cartesianProduct (replicate t P).
Proof.
  intros Hv. induction t as [|t IH]; simpl; [constructor|].
  apply flat_map_elem. exists v. split; [exact Hv|].
  apply list_elem_of_fmap. exists (replicate t v). auto.
Qed.

(** X7: for a legal configuration whose roster fits a [uint8]
    ([replicas + numTwins <= 255]) the generator holds [replicas] view
    specs for every pair of an enumerated size vector and a twin assignment
    that passes the capacity test; there is at least one such pair (all
    nodes in partition 0), so the list is never empty. *)
Theorem NewGenerator_view_specs (fuel : nat) (replicas numTwins k r : Z) :
  1 <= numTwins <= replicas -> replicas + numTwins <= 255 -> 1 <= k <= 255 ->
  (257 * Z.to_nat k <= fuel)%nat ->
  exists g sizes,
    NewGenerator fuel replicas numTwins k r = Ret g /\
    genPartitionSizes fuel (replicas + numTwins) k 1 = Ret sizes /\
    Z.of_nat (length (leadersPartitions g))
      = replicas
        * Z.of_nat (feasiblePairs sizes
            (cartesianProduct
               (replicate (Z.to_nat numTwins)
                  (generateTwinPartitionPairs k)))) /\
    replicas <= Z.of_nat (length (leadersPartitions g)).
Proof.
  intros Ht Hn Hk Hfuel.
  destruct (NewGenerator_ok fuel replicas numTwins k r) as (g & _ & Hg & _);
    try lia.
  pose proof Hg as Hinv.
  apply NewGenerator_inv in Hinv as (scenarios & Hs & Hlp).
  rewrite assignIDs_replicaIDs in Hlp by lia.
  destruct (assignIDs_legal replicas numTwins) as (Htw & Hnd & _); [lia..|].
  rewrite Htw, Hnd in Hs. unfold genPartitionScenarios in Hs.
  rewrite twinRoster_length, plainRoster_length in Hs.
  replace (Z.of_nat (2 * Z.to_nat numTwins + Z.to_nat (replicas - numTwins)))
    with (replicas + numTwins) in Hs by lia.
  rewrite (wrap8_small (replicas + numTwins)) in Hs by lia.
  rewrite twinAssignmentsOf_twinRoster in Hs by lia.
  cbv zeta in Hs.
  rewrite (genPartitionSizes_Ret fuel (replicas + numTwins) k) in Hs
    by (lia || assumption).
  cbn [mbind result_bind] in Hs.
  apply scenariosForSizes_length in Hs. simpl in Hs.
  set (tas := cartesianProduct
                (replicate (Z.to_nat numTwins) (generateTwinPartitionPairs k)))
    in *.
  set (sizes := sizeTails (Z.to_nat k) 255 (replicas + numTwins)) in *.
  assert (Hlen : Z.of_nat (length (leadersPartitions g))
                 = replicas * Z.of_nat (feasiblePairs sizes tas)).
  { rewrite Hlp. unfold leaderCross.
    rewrite (length_flat_map_map (fun p id => mkView id p)), length_seqZ, Hs.
    lia. }
  exists g, sizes. split; [exact Hg|].
  split; [apply genPartitionSizes_Ret; lia || assumption|].
  split; [exact Hlen|].
  assert (Hpos : (1 <= feasiblePairs sizes tas)%nat); [|nia].
  unfold sizes. destruct (Z.to_nat k) as [|d] eqn:Ek; [lia|].
  cbn [sizeTails]. destruct (Z.leb_spec (replicas + numTwins) 255); [|lia].
  cbn [app feasiblePairs foldr].
  assert ((1 <= feasible ((replicas + numTwins)%Z :: replicate d 0%Z) tas)%nat);
    [|lia].
  apply (feasible_pos _ _ (replicate (Z.to_nat numTwins) (0, 0))).
  - apply cartesianProduct_replicate_diag.
    apply generateTwinPartitionPairs_elem. lia.
  - unfold isValidTwinAssignment. simpl length.
    apply isValidLoop_first_slot. lia.
Qed.

Lemma NewGenerator_view_specs_witness :
  exists g sizes,
    NewGenerator 600 4 1 2 1 = Ret g /\
    genPartitionSizes 600 (4 + 1) 2 1 = Ret sizes /\
    Z.of_nat (length (leadersPartitions g))
      = 4 * Z.of_nat (feasiblePairs sizes
            (cartesianProduct
               (replicate (Z.to_nat 1) (generateTwinPartitionPairs 2)))) /\
    4 <= Z.of_nat (length (leadersPartitions g)).
Proof.
  apply (NewGenerator_view_specs 600 4 1 2 1).
  - lia.
  - lia.
  - lia.
  - vm_compute. lia.
Defined.

(** ** What Shuffle keeps, and when it panics *)

Lemma swap_Permutation {A : Type} (l l' : list A) (i j : Z) :
  swap l i j = Ret l' -> l' ≡ₚ l.
Proof.
  intros H. apply swap_Ret in H as (a & b & _ & _ & Ha & Hb & ->).
  apply Permutation_insert_swap; assumption.
Qed.

Lemma applySwaps_Permutation {A : Type} (sw : list (Z * Z)) :
  forall l l' : list A, applySwaps sw l = Ret l' -> l' ≡ₚ l.
Proof.
  induction sw as [|[i j] sw IH]; intros l l' H; simpl in H.
  - injection H as <-. reflexivity.
  - bind_inv H as l1 H1. apply IH in H. apply swap_Permutation in H1.
    etransitivity; eassumption.
Qed.

Lemma applySwaps_total {A : Type} (sw : list (Z * Z)) :
  forall l : list A,
  (forall a b, (a, b) ∈ sw ->
     0 <= a < Z.of_nat (length l) /\ 0 <= b < Z.of_nat (length l)) ->
  exists l', applySwaps sw l = Ret l'.
Proof.
  induction sw as [|[i j] sw IH]; intros l Hsw; simpl.
  - eauto.
  - destruct (Hsw i j ltac:(left)) as [Hi Hj].
    destruct (lookup_lt_is_Some_2 l (Z.to_nat i) ltac:(lia)) as [a Ha].
    destruct (lookup_lt_is_Some_2 l (Z.to_nat j) ltac:(lia)) as [b Hb].
    rewrite (swap_in_range l i j a b) by (lia || assumption).
    cbn [mbind result_bind]. apply IH.
    intros a' b' H'. rewrite !length_insert. apply Hsw. right. exact H'.
Qed.

Section ShuffleOutcome.

Variable R : RandSource.

Lemma drawOffsets_range (count : nat) :
  forall (r : rng R) (n : Z) (offs : list Z),
  drawOffsets R count r n = Ret offs -> in_range n offs.
Proof.
  induction count as [|count IH]; intros r n offs H; simpl in H.
  - injection H as <-. constructor.
  - destruct (Z.leb_spec n 0) as [|Hn]; [discriminate|].
    pose proof (Intn_range R r n Hn) as Hv.
    destruct (Intn R r n) as [v r'].
    bind_inv H as rest Hrest. injection H as <-.
    constructor; [exact Hv|]. eapply IH, Hrest.
Qed.

Lemma drawOffsets_total (count : nat) :
  forall (r : rng R) (n : Z),
  0 < n -> exists offs, drawOffsets R count r n = Ret offs.
Proof.
  induction count as [|count IH]; intros r n Hn; simpl.
  - eauto.
  - destruct (Z.leb_spec n 0) as [|_]; [lia|].
    destruct (Intn R r n) as [v r'].
    destruct (IH r' n Hn) as (rest & ->). simpl. eauto.
Qed.

Lemma Shuffle_returns (seed : Z) (g : Generator) :
  leadersPartitions g <> [] -> exists g1, Shuffle R seed g = Ret g1.
Proof.
  intros Hne. unfold Shuffle. rewrite shuffleLoop_swaps.
  assert (Hlen : (1 <= length (leadersPartitions g))%nat)
    by (destruct (leadersPartitions g); [contradiction|simpl; lia]).
  destruct (applySwaps_total
              (shuffleSwaps R
                 (Z.to_nat (Z.of_nat (length (leadersPartitions g)) - 1))
                 (NewSource R seed))
              (leadersPartitions g)) as (lp & Hlp).
  { intros a b Hab. apply shuffleSwaps_bound in Hab. lia. }
  rewrite Hlp. cbn [mbind result_bind].
  rewrite (applySwaps_length _ _ _ Hlp).
  destruct (drawOffsets_total (length (offsets g))
              (shuffleRng R
                 (Z.to_nat (Z.of_nat (length (leadersPartitions g)) - 1))
                 (NewSource R seed))
              (Z.of_nat (length (leadersPartitions g))) ltac:(lia))
    as (offs & ->).
  cbn [mbind result_bind]. eauto.
Qed.

End ShuffleOutcome.

(** X8: whatever the source draws, a call of [Shuffle] that returns leaves
    a permutation of the list of view specs (none is lost or duplicated),
    and draws as many offsets as before, each of them a position of that
    list. *)
Theorem Shuffle_permutes (R : RandSource) (seed : Z) (g g1 : Generator) :
  Shuffle R seed g = Ret g1 ->
  leadersPartitions g1 ≡ₚ leadersPartitions g /\
  length (offsets g1) = length (offsets g) /\
  in_range (Z.of_nat (length (leadersPartitions g1))) (offsets g1).
Proof.
  intros H. apply Shuffle_Ret in H as (Hsw & Ho & _).
  split; [eapply applySwaps_Permutation; exact Hsw|].
  split; [eapply drawOffsets_length; exact Ho|].
  rewrite (applySwaps_length _ _ _ Hsw). eapply drawOffsets_range; exact Ho.
Qed.

Lemma Shuffle_permutes_witness :
  exists g g1,
    NewGenerator 10 2 1 1 1 = Ret g /\
    Shuffle mathRand 2 g = Ret g1 /\
    leadersPartitions g1 ≡ₚ leadersPartitions g /\
    length (offsets g1) = length (offsets g) /\
    in_range (Z.of_nat (length (leadersPartitions g1))) (offsets g1).
Proof.
  destruct run_shuffle_twice as (g & g1 & _ & E & E1 & _).
  exists g, g1. split; [exact E|]. split; [exact E1|].
  exact (Shuffle_permutes mathRand 2 g g1 E1).
Defined.

(** X9: [Shuffle] returns on every generator that holds a view spec; on a
    generator without view specs it panics ([Intn(0)]) as soon as there is
    an offset to draw, and leaves the generator as it is when there is
    none. *)
Theorem Shuffle_outcome (R : RandSource) (seed : Z) (g : Generator) :
  match leadersPartitions g, offsets g with
  | [], _ :: _ => Shuffle R seed g = Panic
  | [], [] => Shuffle R seed g = Ret g
  | _ :: _, _ => exists g1, Shuffle R seed g = Ret g1
  end.
Proof.
  destruct (leadersPartitions g) as [|v lp] eqn:Elp.
  - destruct (offsets g) as [|o offs] eqn:Eo.
    + unfold Shuffle. rewrite Elp, Eo. simpl.
      destruct g; simpl in *; subst; reflexivity.
    + unfold Shuffle. rewrite Elp, Eo. reflexivity.
  - apply Shuffle_returns. rewrite Elp. discriminate.
Qed.

(** ** The views of a scenario *)

Lemma in_range_lookup (len : Z) (l : list Z) (i : nat) (x : Z) :
  in_range len l -> l !! i = Some x -> 0 <= x < len.
Proof.
  intros Hr Hx. exact (proj1 (Forall_lookup _ _) Hr i x Hx).
Qed.

(** The view chosen for a round: [index -= len] applied at most once is the
    remainder modulo [len]. *)
Lemma selectViews_lookup (lp : list View) (offs : list Z) (idx : list Z) :
  1 <= Z.of_nat (length lp) < 4611686018427387904 ->
  in_range (Z.of_nat (length lp)) offs ->
  in_range (Z.of_nat (length lp)) idx ->
  forall (i : nat) (p p' : list View),
  selectViews lp offs (Z.of_nat i) idx p = Ret p' ->
  (forall m : nat, (m < i)%nat -> p' !! m = p !! m) /\
  forall (j : nat) (ii off : Z),
    idx !! j = Some ii -> offs !! (i + j)%nat = Some off ->
    p' !! (i + j)%nat
    = lp !! Z.to_nat ((ii + off) mod Z.of_nat (length lp)).
Proof.
  intros Hlen Hoffs. induction idx as [|ii0 idx IH]; intros Hidx i p p' H.
  - simpl in H. injection H as <-. split; [reflexivity|].
    intros j ii off Hj. rewrite lookup_nil in Hj. discriminate.
  - pose proof (Forall_inv Hidx) as Hii0. apply Forall_inv_tail in Hidx.
    simpl in Hii0.
    cbn [selectViews] in H.
    bind_inv H as off0 Hoff0.
    bind_inv H as v0 Hv0.
    bind_inv H as p1 Hp1.
    apply index_Ret in Hoff0 as [_ Hoff0]. rewrite Nat2Z.id in Hoff0.
    pose proof (in_range_lookup _ _ _ _ Hoffs Hoff0) as Hor.
    rewrite (wrapInt_small (ii0 + off0)) in Hv0 by lia.
    assert (Hix : (if Z.of_nat (length lp) <=? ii0 + off0
                   then wrapInt (ii0 + off0 - Z.of_nat (length lp))
                   else ii0 + off0)
                  = (ii0 + off0) mod Z.of_nat (length lp)).
    { destruct (Z.leb_spec (Z.of_nat (length lp)) (ii0 + off0)).
      - rewrite wrapInt_small by lia.
        replace (ii0 + off0)
          with ((ii0 + off0 - Z.of_nat (length lp))
                + 1 * Z.of_nat (length lp)) at 2 by lia.
        rewrite Z.mod_add by lia. symmetry. apply Z.mod_small. lia.
      - symmetry. apply Z.mod_small. lia. }
    rewrite Hix in Hv0. apply index_Ret in Hv0 as [_ Hv0].
    apply store_Ret in Hp1 as (_ & Hi & ->). rewrite Nat2Z.id in *.
    replace (Z.of_nat i + 1) with (Z.of_nat (S i)) in H by lia.
    apply (IH Hidx) in H as [Hlow Hsel]. split.
    + intros m Hm. rewrite Hlow by lia.
      apply list_lookup_insert_ne. lia.
    + intros [|j] ii off Hj Ho.
      * injection Hj as <-. rewrite Nat.add_0_r in *.
        rewrite Hoff0 in Ho. injection Ho as <-.
        rewrite Hlow by lia. rewrite list_lookup_insert_eq by exact Hi.
        symmetry. exact Hv0.
      * replace (i + S j)%nat with (S i + j)%nat in * by lia.
        apply Hsel; assumption.
Qed.

Lemma NextScenario_setIndices (g g' : Generator) (out : Scenario * bool) :
  NextScenario g = Ret (g', out) -> g' = setIndices g (indices g').
Proof.
  unfold NextScenario. intros H.
  bind_inv H as p Hp. bind_inv H as [idx ok] Ha.
  destruct ok; injection H as <- _; reflexivity.
Qed.

Lemma NextScenario_true_inv (g g' : Generator) (s : Scenario) :
  NextScenario g = Ret (g', (s, true)) ->
  exists p,
    selectViews (leadersPartitions g) (offsets g) 0 (indices g)
      (replicate (Z.to_nat (rounds g)) zeroView) = Ret p /\
    s = mkScenario (allNodes g) p.
Proof.
  unfold NextScenario. intros H.
  bind_inv H as p Hp. bind_inv H as [idx ok] Ha.
  destruct ok; simpl in H; [|discriminate].
  injection H as _ <-. eauto.
Qed.

Lemma NextScenario_selects (len : Z) (count : nat) (g g' : Generator)
    (s : Scenario) :
  1 <= len < 4611686018427387904 -> iterating len count g ->
  NextScenario g = Ret (g', (s, true)) ->
  Nodes s = allNodes g /\ length (Views s) = count /\
  forall (i : nat) (ii off : Z),
    indices g !! i = Some ii -> offsets g !! i = Some off ->
    Views s !! i = leadersPartitions g !! Z.to_nat ((ii + off) mod len).
Proof.
  intros Hlen (Hr & Hl & Hil & Hir & Hol & Hor) H.
  apply NextScenario_true_inv in H as (p & Hp & ->). cbn [Nodes Views].
  split; [reflexivity|].
  change 0 with (Z.of_nat 0) in Hp.
  pose proof (selectViews_elem _ _ _ _ _ _ Hp) as [Hpl _].
  rewrite length_replicate in Hpl.
  split; [lia|].
  rewrite <- Hl in *.
  destruct (selectViews_lookup _ _ _ Hlen Hor Hir _ _ _ Hp) as [_ Hsel].
  intros i ii off Hi Ho. apply (Hsel i ii off Hi Ho).
Qed.

(** The run used as example below is well formed and fresh. *)
Lemma six_views_iterating (g : Generator) :
  NewGenerator 600 2 1 2 2 = Ret g ->
  length (leadersPartitions g) = 6%nat ->
  iterating 6 2 g /\ indices g = replicate 2 0.
Proof.
  intros E Hl.
  pose proof (NewGenerator_fields _ _ _ _ _ _ E) as (Hr & _ & Hi & Ho & _).
  split; [|rewrite Hi; reflexivity].
  unfold iterating. rewrite Hr, Hl, Hi, Ho.
  split; [reflexivity|]. split; [reflexivity|].
  split; [reflexivity|]. split; [repeat constructor; lia|].
  split; [reflexivity|]. repeat constructor; lia.
Qed.

(** X10: one successful call of [NextScenario] on a well-formed state
    returns the roster and [rounds] views; the view of round [i] is the
    entry of the list of view specs at position
    [(indices[i] + offsets[i]) mod len]; the call changes nothing of the
    generator but its indices. *)
Theorem NextScenario_views (len : Z) (count : nat) (g g' : Generator)
    (s : Scenario) :
  1 <= len < 4611686018427387904 -> iterating len count g ->
  NextScenario g = Ret (g', (s, true)) ->
  Nodes s = allNodes g /\ length (Views s) = count /\
  (forall (i : nat) (ii off : Z),
     indices g !! i = Some ii -> offsets g !! i = Some off ->
     Views s !! i = leadersPartitions g !! Z.to_nat ((ii + off) mod len)) /\
  g' = setIndices g (indices g') /\ length (indices g') = count.
Proof.
  intros Hlen Hit H.
  destruct (NextScenario_selects len count g g' s Hlen Hit H)
    as (Hn & Hl & Hv).
  split; [exact Hn|]. split; [exact Hl|]. split; [exact Hv|].
  pose proof (NextScenario_Ret _ _ _ _ H) as (_ & _ & _ & _ & Hi & _).
  destruct Hit as (_ & _ & Hil & _). split; [|simpl in Hi; lia].
  eapply NextScenario_setIndices, H.
Qed.

Lemma NextScenario_views_witness :
  exists g g' s,
    NewGenerator 600 2 1 2 2 = Ret g /\
    NextScenario g = Ret (g', (s, true)) /\
    Nodes s = allNodes g /\ length (Views s) = 2%nat /\
    (forall (i : nat) (ii off : Z),
       indices g !! i = Some ii -> offsets g !! i = Some off ->
       Views s !! i = leadersPartitions g !! Z.to_nat ((ii + off) mod 6)) /\
    g' = setIndices g (indices g') /\ length (indices g') = 2%nat.
Proof.
  destruct run_six_views as (g & E & Hl).
  destruct (six_views_iterating g E Hl) as [Hit Hfresh].
  destruct (NextScenario_step 6 2 g ltac:(lia) ltac:(lia) Hit) as [Hstep _].
  destruct Hstep as (g' & s & Hn & _).
  { rewrite Hfresh. vm_compute. reflexivity. }
  exists g, g', s. split; [exact E|]. split; [exact Hn|].
  apply (NextScenario_views 6 2 g g' s); [lia|exact Hit|exact Hn].
Defined.

(** What every run of a harness keeps, exhausted or not. *)
Lemma reachable_iterating (R : RandSource) (len : Z) (count : nat)
    (g0 g : Generator) :
  1 <= len < 4611686018427387904 -> (1 <= count)%nat ->
  iterating len count g0 -> reachable R g0 g ->
  iterating len count g \/
  (indices g = [] /\ Z.to_nat (rounds g) = count /\
   Z.of_nat (length (leadersPartitions g)) = len).
Proof.
  intros Hlen Hcount H0.
  induction 1 as [|g g' [s ok] Hreach IH Hnext|g g' seed Hreach IH Hsh].
  - left. exact H0.
  - destruct IH as [Hit|(Hidx & Hr & Hl)].
    + destruct (NextScenario_step len count g Hlen Hcount Hit) as [H1 H2].
      destruct Hit as (Hr & Hl & Hil & Hir & Hol & Hor).
      pose proof (valIdx_bound len (indices g) ltac:(lia) Hir) as Hb.
      rewrite Hil in Hb.
      destruct (Z.eq_dec (valIdx len (indices g) + 1) (len ^ Z.of_nat count))
        as [Hlast|Hnot].
      * rewrite (H2 Hlast) in Hnext. injection Hnext as <- _ _.
        right. cbn [setIndices indices rounds leadersPartitions]. auto.
      * destruct (H1 ltac:(lia)) as (g1 & s1 & Hn1 & Hit1 & _).
        rewrite Hn1 in Hnext. injection Hnext as <- _ _. left. exact Hit1.
    + rewrite NextScenario_empty_indices in Hnext by (lia || assumption).
      discriminate.
  - pose proof (Shuffle_Ret R seed g g' Hsh) as (Hsw & Ho & _ & Hr' & _ & Hi').
    pose proof (applySwaps_length _ _ _ Hsw) as Hll.
    pose proof (drawOffsets_length R _ _ _ _ Ho) as Hol'.
    pose proof (drawOffsets_range R _ _ _ _ Ho) as Hor'.
    destruct IH as [(Hr & Hl & Hil & Hir & Hol & Hor)|(Hidx & Hr & Hl)].
    + left. unfold iterating. rewrite Hr', Hll, Hi', Hol', Hl in *. auto 10.
    + right. rewrite Hi', Hr', Hll. auto.
Qed.

(** X11: along every run of [NextScenario] and [Shuffle] from a
    well-formed generator, [Shuffle] always returns, and [NextScenario]
    returns as long as exhaustion has not been reported; once it has (the
    indices are the empty slice) every further call of [NextScenario]
    panics, also after a [Shuffle]. *)
Theorem NextScenario_safe_until_exhausted (R : RandSource) (len : Z)
    (count : nat) (g0 g : Generator) :
  1 <= len < 4611686018427387904 -> (1 <= count)%nat ->
  iterating len count g0 -> reachable R g0 g ->
  (forall seed, exists g1, Shuffle R seed g = Ret g1) /\
  match indices g with
  | [] => NextScenario g = Panic
  | _ :: _ => exists g' s ok, NextScenario g = Ret (g', (s, ok))
  end.
Proof.
  intros Hlen Hcount H0 Hreach.
  destruct (reachable_iterating R len count g0 g Hlen Hcount H0 Hreach)
    as [Hit|(Hidx & Hr & Hl)].
  - split.
    + intros seed. apply Shuffle_returns.
      destruct Hit as (_ & Hl & _). intros E. rewrite E in Hl. simpl in Hl. lia.
    + destruct (NextScenario_step len count g Hlen Hcount Hit) as [H1 H2].
      pose proof Hit as (Hr & Hl & Hil & Hir & Hol & Hor).
      pose proof (valIdx_bound len (indices g) ltac:(lia) Hir) as Hb.
      rewrite Hil in Hb.
      destruct (indices g) as [|x idx] eqn:E; [simpl in Hil; lia|].
      destruct (Z.eq_dec (valIdx len (x :: idx) + 1) (len ^ Z.of_nat count))
        as [Hlast|Hnot].
      * rewrite (H2 Hlast). eauto.
      * destruct (H1 ltac:(lia)) as (g1 & s1 & Hn1 & _). eauto.
  - split.
    + intros seed. apply Shuffle_returns.
      intros E. rewrite E in Hl. simpl in Hl. lia.
    + rewrite Hidx. apply NextScenario_empty_indices; [lia|exact Hidx].
Qed.

(** The runs used as examples: on the generator of
    [NewGenerator(2, 1, 2, 2)] a call of [NextScenario] and a [Shuffle]
    with seed 2, then [NextScenario] again; on the generator of
    [NewGenerator(1, 1, 1, 1)] the call of [NextScenario] that reports
    exhaustion and a [Shuffle] with seed 2, then [NextScenario] again. *)
Lemma one_view_iterating (g : Generator) :
  NewGenerator 10 1 1 1 1 = Ret g -> iterating 1 1 g.
Proof.
  intros E.
  assert (Hc : (g ← NewGenerator 10 1 1 1 1;
                Ret (length (leadersPartitions g))) = Ret 1%nat)
    by by_evaluation.
  bind_inv Hc as g1 E1. injection Hc as Hl.
  rewrite E in E1. injection E1 as <-.
  pose proof (NewGenerator_fields _ _ _ _ _ _ E) as (Hr & _ & Hi & Ho & _).
  unfold iterating. rewrite Hr, Hl, Hi, Ho.
  split; [reflexivity|]. split; [reflexivity|].
  split; [reflexivity|]. split; [repeat constructor; lia|].
  split; [reflexivity|]. repeat constructor; lia.
Qed.

Lemma NextScenario_safe_until_exhausted_witness :
  (exists g g1 s g2 g3 s' ok,
     NewGenerator 600 2 1 2 2 = Ret g /\
     NextScenario g = Ret (g1, (s, true)) /\
     Shuffle mathRand 2 g1 = Ret g2 /\
     NextScenario g2 = Ret (g3, (s', ok))) /\
  (exists g g1 s g2,
     NewGenerator 10 1 1 1 1 = Ret g /\
     NextScenario g = Ret (g1, (s, false)) /\
     Shuffle mathRand 2 g1 = Ret g2 /\
     indices g2 = [] /\
     NextScenario g2 = Panic /\
     exists g3, Shuffle mathRand 2 g2 = Ret g3).
Proof.
  split.
  - destruct run_six_views as (g & E & Hl).
    destruct (six_views_iterating g E Hl) as [Hit Hfresh].
    destruct (NextScenario_step 6 2 g ltac:(lia) ltac:(lia) Hit)
      as [Hstep _].
    destruct Hstep as (g1 & s & Hn & Hit1 & _).
    { rewrite Hfresh. vm_compute. reflexivity. }
    assert (Hr1 : reachable mathRand g g1)
      by (eapply reach_next; [apply reach_start|exact Hn]).
    destruct (NextScenario_safe_until_exhausted mathRand 6 2 g g1
                ltac:(lia) ltac:(lia) Hit Hr1) as [Hsh _].
    destruct (Hsh 2) as (g2 & Hg2).
    assert (Hr2 : reachable mathRand g g2)
      by (eapply reach_shuffle; [exact Hr1|exact Hg2]).
    destruct (NextScenario_safe_until_exhausted mathRand 6 2 g g2
                ltac:(lia) ltac:(lia) Hit Hr2) as [_ Hnext].
    pose proof (Shuffle_Ret mathRand 2 g1 g2 Hg2) as (_ & _ & _ & _ & _ & Hi).
    destruct Hit1 as (_ & _ & Hil & _).
    destruct (indices g2) as [|x idx] eqn:Ei;
      [rewrite <- Hi in Hil; simpl in Hil; lia|].
    destruct Hnext as (g3 & s' & ok & Hn3).
    exists g, g1, s, g2, g3, s', ok. auto.
  - destruct run_one_view as (g & g1 & s & E & Hn).
    pose proof (one_view_iterating g E) as Hit.
    assert (Hr1 : reachable mathRand g g1)
      by (eapply reach_next; [apply reach_start|exact Hn]).
    destruct (NextScenario_safe_until_exhausted mathRand 1 1 g g1
                ltac:(lia) ltac:(lia) Hit Hr1) as [Hsh _].
    destruct (Hsh 2) as (g2 & Hg2).
    assert (Hr2 : reachable mathRand g g2)
      by (eapply reach_shuffle; [exact Hr1|exact Hg2]).
    destruct (NextScenario_safe_until_exhausted mathRand 1 1 g g2
                ltac:(lia) ltac:(lia) Hit Hr2) as [Hsh2 Hnext].
    pose proof (Shuffle_Ret mathRand 2 g1 g2 Hg2) as (_ & _ & _ & _ & _ & Hi).
    pose proof (NextScenario_false _ _ _ Hn) as [Hg1 _].
    assert (Hidx : indices g2 = []) by (rewrite Hi, Hg1; reflexivity).
    rewrite Hidx in Hnext.
    destruct (Hsh2 2) as (g3 & Hg3).
    exists g, g1, s, g2. split; [exact E|].
    split; [exact Hn|].
    split; [exact Hg2|]. split; [exact Hidx|]. split; [exact Hnext|].
    exists g3. exact Hg3.
Defined.

(** ** The order of the scenarios *)

(** Position [i] of an indices vector is digit [i] of its numeral, the
    most significant digit first. *)
Lemma valIdx_digit (len : Z) (idx : list Z) :
  0 < len -> in_range len idx ->
  forall (i : nat) (x : Z),
  idx !! i = Some x ->
  x = (valIdx len idx / len ^ (Z.of_nat (length idx) - 1 - Z.of_nat i))
      mod len.
Proof.
  intros Hlen. induction idx as [|y idx IH] using rev_ind; intros Hr i x Hx.
  - rewrite lookup_nil in Hx. discriminate.
  - apply in_range_snoc in Hr as [Hr Hy].
    rewrite valIdx_snoc, length_app. simpl length.
    destruct (Nat.lt_ge_cases i (length idx)) as [Hi|Hi].
    + rewrite lookup_app_l in Hx by exact Hi.
      rewrite (IH Hr i x Hx) at 1.
      replace (Z.of_nat (length idx + 1) - 1 - Z.of_nat i)
        with (Z.succ (Z.of_nat (length idx) - 1 - Z.of_nat i)) by lia.
      rewrite Z.pow_succ_r by lia.
      rewrite <- Z.div_div by (try apply Z.pow_pos_nonneg; lia).
      rewrite Z.div_add_l by lia.
      rewrite (Z.div_small y len) by lia. rewrite Z.add_0_r. reflexivity.
    + pose proof (lookup_lt_Some _ _ _ Hx) as Hlt.
      rewrite length_app in Hlt. simpl in Hlt.
      assert (i = length idx) as -> by lia.
      rewrite list_lookup_middle in Hx by reflexivity. injection Hx as <-.
      replace (Z.of_nat (length idx + 1) - 1 - Z.of_nat (length idx))
        with 0 by lia.
      rewrite Z.pow_0_r, Z.div_1_r, Z.add_comm, Z.mod_add by lia.
      symmetry. apply Z.mod_small. lia.
Qed.

(** The scenarios drained from a state whose indices hold the numeral
    [valIdx]: scenario [j] is the one of the numeral [valIdx + j]. *)
Lemma drain_views (len : Z) (count : nat) :
  1 <= len < 4611686018427387904 -> (1 <= count)%nat ->
  forall (fuel : nat) (g g' : Generator) (ss : list Scenario),
  iterating len count g ->
  drain fuel g = Ret (ss, g') ->
  forall (j i : nat) (s : Scenario) (off : Z),
    ss !! j = Some s -> offsets g !! i = Some off ->
    Nodes s = allNodes g /\
    Views s !! i
    = leadersPartitions g
        !! Z.to_nat
             ((((valIdx len (indices g) + Z.of_nat j)
                / len ^ (Z.of_nat count - 1 - Z.of_nat i)) mod len + off)
              mod len).
Proof.
  intros Hlen Hcount.
  induction fuel as [|fuel IH]; intros g g' ss Hit Hd j i s off Hj Ho;
    [discriminate|].
  cbn [drain] in Hd. bind_inv Hd as [g1 [s1 ok]] Hn.
  destruct ok.
  - bind_inv Hd as [ss1 g2] Hd1. injection Hd as <- <-.
    assert (Hit1 : iterating len count g1 /\
                   valIdx len (indices g1) = valIdx len (indices g) + 1).
    { destruct (NextScenario_step len count g Hlen Hcount Hit) as [H1 H2].
      pose proof Hit as (Hr & Hl & Hil & Hir & Hol & Hor).
      pose proof (valIdx_bound len (indices g) ltac:(lia) Hir) as Hb.
      rewrite Hil in Hb.
      destruct (Z.eq_dec (valIdx len (indices g) + 1) (len ^ Z.of_nat count))
        as [Hlast|Hnot].
      - rewrite (H2 Hlast) in Hn. discriminate.
      - destruct (H1 ltac:(lia)) as (g1' & s1' & Hn1 & Hit1 & Hv).
        rewrite Hn1 in Hn. injection Hn as <- _. auto. }
    destruct Hit1 as [Hit1 Hval].
    pose proof (NextScenario_Ret _ _ _ _ Hn) as (Ha & _ & Hoffs & Hlp & _).
    destruct j as [|j].
    + injection Hj as <-. rewrite Z.add_0_r.
      pose proof Hit as (Hr & Hl & Hil & Hir & Hol & Hor).
      destruct (NextScenario_selects len count g g1 s1 Hlen Hit Hn)
        as (Hnodes & _ & Hviews).
      split; [exact Hnodes|].
      destruct (lookup_lt_is_Some_2 (indices g) i) as [ii Hii].
      { apply lookup_lt_Some in Ho. lia. }
      rewrite (Hviews i ii off Hii Ho).
      rewrite (valIdx_digit len (indices g) ltac:(lia) Hir i ii Hii) at 1.
      rewrite Hil. reflexivity.
    + simpl in Hj. rewrite <- Hoffs in Ho.
      destruct (IH g1 g2 ss1 Hit1 Hd1 j i s off Hj Ho) as [Hnodes Hviews].
      rewrite Ha, Hlp, Hval in *. split; [exact Hnodes|].
      rewrite Hviews.
      replace (valIdx len (indices g) + Z.of_nat (S j))
        with (valIdx len (indices g) + 1 + Z.of_nat j) by lia.
      reflexivity.
  - injection Hd as <- <-. rewrite lookup_nil in Hj. discriminate.
Qed.

(** X12: a fresh iterator hands out the scenarios in the order of the
    numerals in base [len]: scenario [j] (counted from 0) takes for round
    [i] the view spec at position [(d + offsets[i]) mod len], where [d] is
    digit [i] of [j], the most significant digit first; the last round
    varies fastest. *)
Theorem drain_enumerates (len : Z) (count fuel : nat) (g g' : Generator)
    (ss : list Scenario) :
  1 <= len < 4611686018427387904 -> (1 <= count)%nat ->
  iterating len count g -> indices g = replicate count 0 ->
  drain fuel g = Ret (ss, g') ->
  forall (j i : nat) (s : Scenario) (off : Z),
    ss !! j = Some s -> offsets g !! i = Some off ->
    Nodes s = allNodes g /\
    Views s !! i
    = leadersPartitions g
        !! Z.to_nat
             (((Z.of_nat j / len ^ (Z.of_nat count - 1 - Z.of_nat i))
               mod len + off) mod len).
Proof.
  intros Hlen Hcount Hit Hfresh Hd j i s off Hj Ho.
  destruct (drain_views len count Hlen Hcount fuel g g' ss Hit Hd j i s off
              Hj Ho) as [Hn Hv].
  split; [exact Hn|]. rewrite Hv, Hfresh, valIdx_zeros, Z.add_0_l.
  reflexivity.
Qed.

Lemma drain_enumerates_witness :
  exists g g' ss,
    NewGenerator 600 2 1 2 2 = Ret g /\
    drain 40 g = Ret (ss, g') /\
    forall (j i : nat) (s : Scenario) (off : Z),
      ss !! j = Some s -> offsets g !! i = Some off ->
      Nodes s = allNodes g /\
      Views s !! i
      = leadersPartitions g
          !! Z.to_nat
               (((Z.of_nat j / 6 ^ (Z.of_nat 2 - 1 - Z.of_nat i))
                 mod 6 + off) mod 6).
Proof.
  destruct run_six_views as (g & E & Hl).
  destruct (six_views_iterating g E Hl) as [Hit Hfresh].
  destruct (drain_count 6 2 ltac:(lia) ltac:(lia) 35 g Hit)
    as (ss & g' & Hd & _).
  { rewrite Hfresh. vm_compute. reflexivity. }
  specialize (Hd 40%nat ltac:(lia)).
  exists g, g', ss. split; [exact E|]. split; [exact Hd|].
  apply (drain_enumerates 6 2 40 g g' ss); try assumption; lia.
Defined.

(** ** Generators without view specs *)

(** X13: a generator built without replicas or without twins, for
    [rounds >= 1], holds no view spec, and both of its methods panic on the
    first call: [NextScenario] indexes the empty list of view specs and
    [Shuffle] calls [Intn(0)]. *)
Theorem NewGenerator_no_twins_unusable (R : RandSource) (fuel : nat)
    (replicas numTwins k r seed : Z) (g : Generator) :
  0 <= replicas <= 255 -> 0 <= numTwins <= 255 ->
  replicas = 0 \/ numTwins = 0 -> 1 <= r ->
  NewGenerator fuel replicas numTwins k r = Ret g ->
  leadersPartitions g = [] /\
  NextScenario g = Panic /\ Shuffle R seed g = Panic.
Proof.
  intros Hr Ht H0 Hr1 Hg.
  pose proof (NewGenerator_fields _ _ _ _ _ _ Hg) as (Hrd & _ & Hi & Ho & _).
  apply NewGenerator_inv in Hg as (scenarios & Hs & Hlp).
  rewrite (assignIDs_no_twins replicas numTwins Hr Ht H0) in Hs.
  unfold genPartitionScenarios in Hs. cbv zeta in Hs.
  bind_inv Hs as sizes Hsz.
  change (twinAssignmentsOf [] k) with (@nil (list twinAssignment)) in Hs.
  rewrite scenariosForSizes_no_assignment in Hs. injection Hs as <-.
  simpl in Hlp.
  destruct (Z.to_nat r) as [|c] eqn:Ec; [lia|].
  split; [exact Hlp|]. split.
  - unfold NextScenario. rewrite Hlp, Hi, Ho. reflexivity.
  - unfold Shuffle. rewrite Hlp, Ho. reflexivity.
Qed.

Lemma NewGenerator_no_twins_unusable_witness :
  exists g,
    NewGenerator 600 3 0 2 2 = Ret g /\
    leadersPartitions g = [] /\
    NextScenario g = Panic /\ Shuffle mathRand 1 g = Panic.
Proof.
  assert (Hc : (g ← NewGenerator 600 3 0 2 2; Ret tt) = Ret tt)
    by by_evaluation.
  bind_inv Hc as g E.
  exists g. split; [exact E|].
  apply (NewGenerator_no_twins_unusable mathRand 600 3 0 2 2 1 g);
    [lia|lia|right; reflexivity|lia|exact E].
Defined.

(** ** The partition sizes of an empty roster *)

(** X14: for [n = 0] the loop variable of [genPartitionSizesRecursive]
    starts from [0 - 1 = 255] in [uint8]: with [k >= 2] the enumerator
    lists the all-zero vector first and [255, 1, 0, ...] next, and every
    vector it lists sums to 0 or to 256. *)
Theorem genPartitionSizes_zero_nodes (k : Z) :
  2 <= k <= 255 ->
  exists sizes,
    (forall fuel, (257 * Z.to_nat k <= fuel)%nat ->
       genPartitionSizes fuel 0 k 1 = Ret sizes) /\
    sizes !! 0%nat = Some (replicate (Z.to_nat k) 0) /\
    sizes !! 1%nat = Some (255 :: 1 :: replicate (Z.to_nat k - 2) 0) /\
    forall s, s ∈ sizes ->
      length s = Z.to_nat k /\ (sumZ s = 0 \/ sumZ s = 256).
Proof.
  intros Hk. exists (sizeTails (Z.to_nat k) 255 0).
  split; [intros fuel Hfuel; apply genPartitionSizes_Ret; lia|].
  split; [|split].
  - destruct (Z.to_nat k) as [|d] eqn:E; [lia|]. reflexivity.
  - destruct (Z.to_nat k) as [|[|d]] eqn:E; [lia|lia|].
    cbn [sizeTails]. change (0 <=? 255) with true. cbv iota.
    change (Z.to_nat (Z.min (wrap8 (0 - 1)) 255)) with 255%nat.
    cbn [app lookup list_lookup].
    change (downFrom 255) with (255 :: downFrom 254).
    cbn [flat_map]. change (wrap8 (0 - 255)) with 1.
    cbn [sizeTails]. change (1 <=? 255) with true. cbv iota.
    cbn [app map lookup list_lookup]. simpl. rewrite Nat.sub_0_r. reflexivity.
  - intros s Hs. apply sizeTails_zero in Hs as (Hl & _ & Hsum). auto.
Qed.

Lemma genPartitionSizes_zero_nodes_witness :
  exists sizes,
    (forall fuel, (257 * Z.to_nat 2 <= fuel)%nat ->
       genPartitionSizes fuel 0 2 1 = Ret sizes) /\
    sizes !! 0%nat = Some (replicate (Z.to_nat 2) 0) /\
    sizes !! 1%nat = Some (255 :: 1 :: replicate (Z.to_nat 2 - 2) 0) /\
    forall s, s ∈ sizes ->
      length s = Z.to_nat 2 /\ (sumZ s = 0 \/ sumZ s = 256).
Proof.
  apply (genPartitionSizes_zero_nodes 2). lia.
Defined.

(** ** Where the twins are placed *)

Lemma grows_refl (parts : list NodeSet) : grows parts parts.
Proof. intros i p Hp. exists p. split; [exact Hp|reflexivity]. Qed.

Lemma grows_trans (a b c : list NodeSet) :
  grows a b -> grows b c -> grows a c.
Proof.
  intros Hab Hbc i p Hp. destruct (Hab i p Hp) as (p1 & Hp1 & H1).
  destruct (Hbc i p1 Hp1) as (p2 & Hp2 & H2).
  exists p2. split; [exact Hp2|]. etransitivity; eassumption.
Qed.

Lemma inSlot_grows (parts parts' : list NodeSet) (a : Z) (x : NodeID) :
  grows parts parts' -> inSlot parts a x -> inSlot parts' a x.
Proof.
  intros Hg (p & Hp & Hx). destruct (Hg _ _ Hp) as (p' & Hp' & Hs).
  exists p'. split; [exact Hp'|]. apply Hs, Hx.
Qed.

Lemma addTwin_Ret (parts parts' : list NodeSet) (t : Z)
    (twins twins' : list NodeID) :
  addTwin parts t twins = Ret (parts', twins') ->
  exists x, twins = x :: twins' /\ grows parts parts' /\ inSlot parts' t x.
Proof.
  unfold addTwin. intros H. bind_inv H as p Hp.
  destruct twins as [|x tw]; [discriminate|].
  bind_inv H as p' Hp'. bind_inv H as parts1 Hst. injection H as <- <-.
  apply index_Ret in Hp as [Ht Hp].
  apply store_Ret in Hst as (_ & Hlt & ->).
  destruct p as [m|]; [|discriminate]. injection Hp' as <-.
  exists x. split; [reflexivity|]. split.
  - intros i q Hq. destruct (decide (i = Z.to_nat t)) as [->|Hne].
    + rewrite Hp in Hq. injection Hq as <-.
      exists (Some ({[x]} ∪ m)).
      split; [apply list_lookup_insert_eq; exact Hlt|].
      simpl. apply union_subseteq_r.
    + exists q. split; [|reflexivity].
      rewrite list_lookup_insert_ne by congruence. exact Hq.
  - exists (Some ({[x]} ∪ m)).
    split; [apply list_lookup_insert_eq; exact Hlt|].
    simpl. apply elem_of_union_l, elem_of_singleton. reflexivity.
Qed.

Lemma placeTwins_slots (ta : list twinAssignment) :
  forall (parts parts' : list NodeSet) (twins : list NodeID),
  placeTwins ta parts twins = Ret parts' ->
  grows parts parts' /\
  forall (j : nat) (a b : Z) (x y : NodeID),
    ta !! j = Some (a, b) ->
    twins !! (2 * j)%nat = Some x -> twins !! (2 * j + 1)%nat = Some y ->
    inSlot parts' a x /\ inSlot parts' b y.
Proof.
  induction ta as [|[a0 b0] ta IH]; intros parts parts' twins H.
  - simpl in H. injection H as <-. split; [apply grows_refl|].
    intros j a b x y Hj. rewrite lookup_nil in Hj. discriminate.
  - cbn [placeTwins] in H.
    bind_inv H as [parts1 twins1] H1. bind_inv H as [parts2 twins2] H2.
    apply addTwin_Ret in H1 as (x0 & -> & Hg1 & Hx0).
    apply addTwin_Ret in H2 as (y0 & -> & Hg2 & Hy0).
    apply IH in H as [Hg3 Hrest]. split.
    + eapply grows_trans; [exact Hg1|]. eapply grows_trans; eassumption.
    + intros [|j] a b x y Hj Hx Hy.
      * injection Hj as <- <-. injection Hx as <-. injection Hy as <-.
        split.
        -- eapply inSlot_grows; [exact Hg3|].
           eapply inSlot_grows; [exact Hg2|exact Hx0].
        -- eapply inSlot_grows; [exact Hg3|exact Hy0].
      * replace (2 * S j)%nat with (S (S (2 * j))) in Hx by lia.
        replace (2 * S j + 1)%nat with (S (S (2 * j + 1))) in Hy by lia.
        apply (Hrest j a b x y Hj Hx Hy).
Qed.

Lemma fillPartition_grows (c : Z) (nodes : list NodeID) :
  forall (p p' : NodeSet) (nodes' : list NodeID),
  fillPartition c p nodes = Ret (p', nodes') ->
  NodeSet_members p ⊆ NodeSet_members p'.
Proof.
  induction nodes as [|x nodes IH]; intros p p' nodes' H; simpl in H.
  - destruct (0 <? wrap8 (c - wrap8 (Z.of_nat (NodeSet_len p))));
      [discriminate|]. injection H as <- _. reflexivity.
  - destruct (0 <? wrap8 (c - wrap8 (Z.of_nat (NodeSet_len p)))).
    + bind_inv H as p1 Hp1. destruct p as [m|]; [|discriminate].
      injection Hp1 as <-. apply IH in H.
      etransitivity; [|exact H]. simpl. apply union_subseteq_r.
    + injection H as <- _. reflexivity.
Qed.

Lemma fillPartitions_grows (sz : list Z) (todo : list NodeSet) :
  forall (kk : Z) (nodes : list NodeID) (out : list NodeSet),
  fillPartitions sz kk todo nodes = Ret out -> grows todo out.
Proof.
  induction todo as [|p todo IH]; intros kk nodes out H; simpl in H.
  - injection H as <-. apply grows_refl.
  - bind_inv H as c Hc. bind_inv H as [p' nodes'] Hp.
    bind_inv H as rest Hrest. injection H as <-.
    apply fillPartition_grows in Hp. apply IH in Hrest.
    intros [|i] q Hq; simpl in *.
    + injection Hq as <-. eauto.
    + apply Hrest, Hq.
Qed.

Lemma buildPartitions_slots (k : Z) (sz : list Z) (ta : list twinAssignment)
    (twins nodes : list NodeID) (parts : list NodeSet) :
  buildPartitions k sz ta twins nodes = Ret parts ->
  forall (j : nat) (a b : Z) (x y : NodeID),
    ta !! j = Some (a, b) ->
    twins !! (2 * j)%nat = Some x -> twins !! (2 * j + 1)%nat = Some y ->
    inSlot parts a x /\ inSlot parts b y.
Proof.
  unfold buildPartitions. intros H.
  bind_inv H as parts0 H0. bind_inv H as parts1 H1.
  apply placeTwins_slots in H1 as [_ Hsl].
  apply fillPartitions_grows in H.
  intros j a b x y Hj Hx Hy.
  destruct (Hsl j a b x y Hj Hx Hy) as [Ha Hb].
  split; eapply inSlot_grows; eassumption.
Qed.

Lemma scenariosForSize_origin (k : Z) (sz : list Z)
    (twins nodes : list NodeID) (P : list NodeSet -> Prop)
    (tas : list (list twinAssignment)) :
  (forall ta parts, ta ∈ tas -> isValidTwinAssignment ta sz = true ->
     buildPartitions k sz ta twins nodes = Ret parts -> P parts) ->
  forall acc acc' : list (list NodeSet),
  scenariosForSize k sz tas twins nodes acc = Ret acc' ->
  Forall P acc -> Forall P acc'.
Proof.
  induction tas as [|ta tas IH]; intros HP acc acc' H Hacc; simpl in H.
  - injection H as <-. exact Hacc.
  - assert (HP' : forall ta' parts, ta' ∈ tas ->
              isValidTwinAssignment ta' sz = true ->
              buildPartitions k sz ta' twins nodes = Ret parts -> P parts)
      by (intros ta' parts Hin; apply HP; right; exact Hin).
    destruct (isValidTwinAssignment ta sz) eqn:Hv.
    + bind_inv H as parts Hp.
      apply (IH HP' _ _ H). apply Forall_app. split; [exact Hacc|].
      constructor; [|constructor]. apply (HP ta parts); [left|exact Hv|exact Hp].
    + apply (IH HP' _ _ H Hacc).
Qed.

Lemma scenariosForSizes_origin (k : Z) (twins nodes : list NodeID)
    (P : list NodeSet -> Prop) (tas : list (list twinAssignment))
    (sizes : list (list Z)) :
  (forall sz ta parts, sz ∈ sizes -> ta ∈ tas ->
     isValidTwinAssignment ta sz = true ->
     buildPartitions k sz ta twins nodes = Ret parts -> P parts) ->
  forall acc acc' : list (list NodeSet),
  scenariosForSizes k sizes tas twins nodes acc = Ret acc' ->
  Forall P acc -> Forall P acc'.
Proof.
  induction sizes as [|sz sizes IH]; intros HP acc acc' H Hacc; simpl in H.
  - injection H as <-. exact Hacc.
  - bind_inv H as acc1 H1.
    apply (IH ltac:(intros sz' ta parts Hin; apply HP; right; exact Hin)
             _ _ H).
    eapply scenariosForSize_origin; [|exact H1|exact Hacc].
    intros ta parts Hin. apply HP; [left|exact Hin].
Qed.

Lemma twinAssignmentsOf_pairs (twins : list NodeID) (k : Z)
    (ta : list twinAssignment) (j : nat) (a b : Z) :
  ta ∈ twinAssignmentsOf twins k -> ta !! j = Some (a, b) ->
  0 <= a <= b /\ b < k.
Proof.
  unfold twinAssignmentsOf. intros Hta Hj.
  destruct (0 <? length twins / 2)%nat; [|inversion Hta].
  apply cartesianProduct_replicate_elem in Hta as [_ Hall].
  apply generateTwinPartitionPairs_elem.
  exact (proj1 (Forall_lookup _ _) Hall j (a, b) Hj).
Qed.

(** X15: every partition scenario listed by [genPartitionScenarios] was
    built for an enumerated twin assignment that passed the capacity test,
    and it holds the twins where that assignment puts them: the two twins
    of pair [j], [twins[2j]] and [twins[2j+1]], sit in the partitions [a]
    and [b] of entry [j] of the assignment, with [0 <= a <= b < k]. *)
Theorem genPartitionScenarios_twins (fuel : nat) (twins nodes : list NodeID)
    (k m : Z) (scenarios : list (list NodeSet)) (parts : list NodeSet) :
  genPartitionScenarios fuel twins nodes k m = Ret scenarios ->
  parts ∈ scenarios ->
  exists (sz : list Z) (ta : list twinAssignment),
    ta ∈ twinAssignmentsOf twins k /\
    isValidTwinAssignment ta sz = true /\
    buildPartitions k sz ta twins nodes = Ret parts /\
    forall (j : nat) (a b : Z) (x y : NodeID),
      ta !! j = Some (a, b) ->
      twins !! (2 * j)%nat = Some x -> twins !! (2 * j + 1)%nat = Some y ->
      0 <= a <= b /\ b < k /\ inSlot parts a x /\ inSlot parts b y.
Proof.
  unfold genPartitionScenarios. cbv zeta. intros H Hin.
  bind_inv H as sizes Hsz.
  set (P := fun parts : list NodeSet =>
    exists (sz : list Z) (ta : list twinAssignment),
      ta ∈ twinAssignmentsOf twins k /\
      isValidTwinAssignment ta sz = true /\
      buildPartitions k sz ta twins nodes = Ret parts /\
      forall (j : nat) (a b : Z) (x y : NodeID),
        ta !! j = Some (a, b) ->
        twins !! (2 * j)%nat = Some x -> twins !! (2 * j + 1)%nat = Some y ->
        0 <= a <= b /\ b < k /\ inSlot parts a x /\ inSlot parts b y).
  assert (Hall : Forall P scenarios).
  { eapply (scenariosForSizes_origin k twins nodes P); [|exact H|constructor].
    intros sz ta parts' _ Hta Hv Hb. exists sz, ta.
    split; [exact Hta|]. split; [exact Hv|]. split; [exact Hb|].
    intros j a b x y Hj Hx Hy.
    destruct (twinAssignmentsOf_pairs twins k ta j a b Hta Hj) as [Hab Hbk].
    destruct (buildPartitions_slots k sz ta twins nodes parts' Hb j a b x y
                Hj Hx Hy) as [Ha Hb'].
    auto. }
  exact (proj1 (list.Forall_forall _ _) Hall parts Hin).
Qed.

Lemma genPartitionScenarios_twins_witness :
  exists (scenarios : list (list NodeSet)) (parts : list NodeSet),
    genPartitionScenarios 600 [mkNodeID 1 1; mkNodeID 1 2]
      [mkNodeID 2 3] 2 1 = Ret scenarios /\
    parts ∈ scenarios /\
    exists (sz : list Z) (ta : list twinAssignment),
      ta ∈ twinAssignmentsOf [mkNodeID 1 1; mkNodeID 1 2] 2 /\
      isValidTwinAssignment ta sz = true /\
      buildPartitions 2 sz ta [mkNodeID 1 1; mkNodeID 1 2] [mkNodeID 2 3]
        = Ret parts /\
      forall (j : nat) (a b : Z) (x y : NodeID),
        ta !! j = Some (a, b) ->
        [mkNodeID 1 1; mkNodeID 1 2] !! (2 * j)%nat = Some x ->
        [mkNodeID 1 1; mkNodeID 1 2] !! (2 * j + 1)%nat = Some y ->
        0 <= a <= b /\ b < 2 /\ inSlot parts a x /\ inSlot parts b y.
Proof.
  assert (Hc : (sc ← genPartitionScenarios 600 [mkNodeID 1 1; mkNodeID 1 2]
                       [mkNodeID 2 3] 2 1; Ret (length sc)) = Ret 3%nat)
    by by_evaluation.
  bind_inv Hc as sc E. injection Hc as Hl.
  destruct sc as [|parts sc]; [discriminate|].
  assert (Hin : parts ∈ parts :: sc) by left.
  exists (parts :: sc), parts. split; [exact E|]. split; [exact Hin|].
  exact (genPartitionScenarios_twins 600 _ _ 2 1 _ parts E Hin).
Defined.

(** ** The partition scenarios, one per feasible pair *)

Lemma scenariosForSize_app (k : Z) (sz : list Z) (twins nodes : list NodeID)
    (tas : list (list twinAssignment)) :
  forall acc acc' : list (list NodeSet),
  scenariosForSize k sz tas twins nodes acc = Ret acc' ->
  exists news,
    acc' = acc ++ news /\
    Forall2 (fun ta parts => buildPartitions k sz ta twins nodes = Ret parts)
      (List.filter (fun ta => isValidTwinAssignment ta sz) tas) news.
Proof.
  induction tas as [|ta tas IH]; intros acc acc' H; simpl in H.
  - injection H as <-. exists []. rewrite app_nil_r. split; constructor.
  - simpl. destruct (isValidTwinAssignment ta sz).
    + bind_inv H as parts Hp. apply IH in H as (news & -> & Hnews).
      exists (parts :: news). rewrite <- app_assoc. split; [reflexivity|].
      constructor; assumption.
    + apply IH, H.
Qed.

Lemma scenariosForSizes_app (k : Z) (twins nodes : list NodeID)
    (tas : list (list twinAssignment)) (sizes : list (list Z)) :
  forall acc acc' : list (list NodeSet),
  scenariosForSizes k sizes tas twins nodes acc = Ret acc' ->
  exists news,
    acc' = acc ++ news /\
    Forall2 (fun p parts =>
               buildPartitions k (fst p) (snd p) twins nodes = Ret parts)
      (validPairs sizes tas) news.
Proof.
  induction sizes as [|sz sizes IH]; intros acc acc' H; simpl in H.
  - injection H as <-. exists []. rewrite app_nil_r. split; constructor.
  - bind_inv H as acc1 H1.
    apply scenariosForSize_app in H1 as (news1 & -> & Hn1).
    apply IH in H as (news2 & -> & Hn2).
    exists (news1 ++ news2). rewrite <- app_assoc. split; [reflexivity|].
    unfold validPairs. cbn [flat_map]. apply Forall2_app; [|exact Hn2].
    clear -Hn1. induction Hn1; simpl; constructor; auto.
Qed.

Lemma validPairs_elem (sizes : list (list Z))
    (tas : list (list twinAssignment)) (sz : list Z)
    (ta : list twinAssignment) :
  (sz, ta) ∈ validPairs sizes tas <->
  sz ∈ sizes /\ ta ∈ tas /\ isValidTwinAssignment ta sz = true.
Proof.
  unfold validPairs. rewrite flat_map_elem. split.
  - intros (sz' & Hsz & Hin).
    apply list_elem_of_fmap in Hin as (ta' & [= -> ->] & Hta).
    apply list_elem_of_In, filter_In in Hta as [Hta Hv].
    apply list_elem_of_In in Hta. auto.
  - intros (Hsz & Hta & Hv). exists sz. split; [exact Hsz|].
    apply list_elem_of_fmap. exists ta. split; [reflexivity|].
    apply list_elem_of_In, filter_In. split; [|exact Hv].
    apply list_elem_of_In. exact Hta.
Qed.

Lemma validPairs_NoDup (sizes : list (list Z))
    (tas : list (list twinAssignment)) :
  NoDup sizes -> NoDup tas -> NoDup (validPairs sizes tas).
Proof.
  intros Hs Ht. unfold validPairs. apply flat_map_NoDup.
  - intros sz1 sz2 p _ _ H1 H2.
    apply list_elem_of_fmap in H1 as (ta1 & -> & _).
    apply list_elem_of_fmap in H2 as (ta2 & [= -> _] & _). reflexivity.
  - intros sz _. apply NoDup_fmap_2; [intros a b [= ->]; reflexivity|].
    apply NoDup_ListNoDup, List.NoDup_filter, NoDup_ListNoDup, Ht.
  - exact Hs.
Qed.

Lemma Forall2_NoDup {A B : Type} (R : A -> B -> Prop) (l1 : list A)
    (l2 : list B) :
  Forall2 R l1 l2 -> NoDup l1 ->
  (forall a b x, a ∈ l1 -> b ∈ l1 -> R a x -> R b x -> a = b) ->
  NoDup l2.
Proof.
  induction 1 as [|a x l1 l2 Hax Hall IH]; intros Hnd Hinj; [constructor|].
  apply list.NoDup_cons in Hnd as [Hnotin Hnd]. constructor.
  - intros Hx. apply list_elem_of_lookup in Hx as [i Hi].
    destruct (Forall2_lookup_r _ _ _ _ _ Hall Hi) as (b & Hb & Hbx).
    apply list_elem_of_lookup_2 in Hb.
    assert (a = b) by (apply (Hinj a b x); [left|right|..]; assumption).
    subst. contradiction.
  - apply IH; [exact Hnd|].
    intros a' b' x' Ha' Hb'. apply Hinj; right; assumption.
Qed.

Lemma cartesianProduct_NoDup (input : list (list twinAssignment)) :
  Forall NoDup input -> NoDup (cartesianProduct input).
Proof.
  induction 1 as [|l rest Hl Hrest IH]; simpl.
  - apply NoDup_singleton.
  - apply flat_map_NoDup; [| |exact Hl].
    + intros v1 v2 t _ _ H1 H2.
      apply list_elem_of_fmap in H1 as (p1 & -> & _).
      apply list_elem_of_fmap in H2 as (p2 & [= -> _] & _). reflexivity.
    + intros v _. apply NoDup_fmap_2; [intros a b [= ->]; reflexivity|].
      exact IH.
Qed.

(** A node sits in one slot only of a scenario that partitions a roster. *)
Lemma inSlot_unique (roster : list NodeID) (parts : list NodeSet)
    (a b : Z) (x : NodeID) :
  is_partition_of roster parts -> 0 <= a -> 0 <= b ->
  inSlot parts a x -> inSlot parts b x -> a = b.
Proof.
  intros [Hdis _] Ha Hb (p & Hp & Hxp) (q & Hq & Hxq).
  destruct (decide (Z.to_nat a = Z.to_nat b)) as [E|Hne]; [lia|].
  exfalso. exact (Hdis _ _ p q Hne Hp Hq x Hxp Hxq).
Qed.

(** The scenario determines the pair it was built from. *)
Lemma buildPartitions_inj (k : Z) (twins nodes : list NodeID)
    (sz1 sz2 : list Z) (ta1 ta2 : list twinAssignment)
    (parts : list NodeSet) :
  is_partition_of (twins ++ nodes) parts ->
  sizes_match sz1 parts -> sizes_match sz2 parts ->
  length twins = (2 * length ta1)%nat -> length twins = (2 * length ta2)%nat ->
  Forall (fun ab : twinAssignment => 0 <= fst ab /\ 0 <= snd ab) ta1 ->
  Forall (fun ab : twinAssignment => 0 <= fst ab /\ 0 <= snd ab) ta2 ->
  buildPartitions k sz1 ta1 twins nodes = Ret parts ->
  buildPartitions k sz2 ta2 twins nodes = Ret parts ->
  sz1 = sz2 /\ ta1 = ta2.
Proof.
  intros Hpart Hm1 Hm2 Hl1 Hl2 Hn1 Hn2 Hb1 Hb2.
  split; [unfold sizes_match in *; congruence|].
  apply list_eq. intros j.
  destruct (ta1 !! j) as [[a1 b1]|] eqn:E1.
  - pose proof (lookup_lt_Some _ _ _ E1) as Hj.
    destruct (lookup_lt_is_Some_2 ta2 j ltac:(lia)) as [[a2 b2] E2].
    destruct (lookup_lt_is_Some_2 twins (2 * j) ltac:(lia)) as [x Hx].
    destruct (lookup_lt_is_Some_2 twins (2 * j + 1) ltac:(lia)) as [y Hy].
    destruct (buildPartitions_slots _ _ _ _ _ _ Hb1 j a1 b1 x y E1 Hx Hy)
      as [Hx1 Hy1].
    destruct (buildPartitions_slots _ _ _ _ _ _ Hb2 j a2 b2 x y E2 Hx Hy)
      as [Hx2 Hy2].
    pose proof (proj1 (Forall_lookup _ _) Hn1 j _ E1) as [Ha1 Hb1'].
    pose proof (proj1 (Forall_lookup _ _) Hn2 j _ E2) as [Ha2 Hb2'].
    simpl in *. rewrite E2. do 2 f_equal.
    + eapply inSlot_unique; eassumption.
    + eapply inSlot_unique; eassumption.
  - apply lookup_ge_None in E1. symmetry. apply lookup_ge_None. lia.
Qed.

(** A legal configuration whose roster fits a [uint8]: the scenarios are
    built from the feasible pairs, one by one, and each of them has the
    sizes of its pair and partitions the roster. *)
Lemma genPartitionScenarios_pairs (fuel : nat) (replicas numTwins k : Z) :
  1 <= numTwins <= replicas -> replicas + numTwins <= 255 -> 1 <= k <= 255 ->
  (257 * Z.to_nat k <= fuel)%nat ->
  exists scenarios,
    genPartitionScenarios fuel
      (twinRoster (Z.to_nat numTwins) 1 1)
      (plainRoster (Z.to_nat (replicas - numTwins))
         (numTwins + 1) (2 * numTwins + 1)) k 1 = Ret scenarios /\
    Forall2 (fun p parts =>
               buildPartitions k (fst p) (snd p)
                 (twinRoster (Z.to_nat numTwins) 1 1)
                 (plainRoster (Z.to_nat (replicas - numTwins))
                    (numTwins + 1) (2 * numTwins + 1)) = Ret parts)
      (validPairs (sizeTails (Z.to_nat k) 255 (replicas + numTwins))
         (cartesianProduct
            (replicate (Z.to_nat numTwins) (generateTwinPartitionPairs k))))
      scenarios /\
    forall sz ta,
      (sz, ta) ∈ validPairs (sizeTails (Z.to_nat k) 255 (replicas + numTwins))
         (cartesianProduct
            (replicate (Z.to_nat numTwins) (generateTwinPartitionPairs k))) ->
      length (twinRoster (Z.to_nat numTwins) 1 1) = (2 * length ta)%nat /\
      Forall (fun ab : twinAssignment => 0 <= fst ab /\ 0 <= snd ab) ta /\
      exists parts,
        buildPartitions k sz ta
          (twinRoster (Z.to_nat numTwins) 1 1)
          (plainRoster (Z.to_nat (replicas - numTwins))
             (numTwins + 1) (2 * numTwins + 1)) = Ret parts /\
        sizes_match sz parts /\
        is_partition_of
          (twinRoster (Z.to_nat numTwins) 1 1
           ++ plainRoster (Z.to_nat (replicas - numTwins))
                (numTwins + 1) (2 * numTwins + 1)) parts.
Proof.
  intros Ht Hn Hk Hfuel.
  set (twins := twinRoster (Z.to_nat numTwins) 1 1).
  set (nodes := plainRoster (Z.to_nat (replicas - numTwins))
                  (numTwins + 1) (2 * numTwins + 1)).
  set (sizes := sizeTails (Z.to_nat k) 255 (replicas + numTwins)).
  set (tas := cartesianProduct
                (replicate (Z.to_nat numTwins) (generateTwinPartitionPairs k))).
  assert (Hlt : length twins = (2 * Z.to_nat numTwins)%nat)
    by apply twinRoster_length.
  assert (Hln : length nodes = Z.to_nat (replicas - numTwins))
    by apply plainRoster_length.
  destruct (genPartitionScenarios_ok fuel replicas numTwins k)
    as (sizes' & scenarios & _ & Hs & _); try lia.
  fold twins nodes in Hs.
  exists scenarios. split; [exact Hs|].
  unfold genPartitionScenarios in Hs. cbv zeta in Hs.
  rewrite Hlt, Hln in Hs.
  replace (Z.of_nat (2 * Z.to_nat numTwins + Z.to_nat (replicas - numTwins)))
    with (replicas + numTwins) in Hs by lia.
  rewrite (wrap8_small (replicas + numTwins)) in Hs by lia.
  unfold twins in Hs at 1.
  rewrite twinAssignmentsOf_twinRoster in Hs by lia.
  rewrite (genPartitionSizes_Ret fuel (replicas + numTwins) k) in Hs
    by (lia || assumption).
  cbn [mbind result_bind] in Hs. fold sizes tas twins in Hs.
  apply scenariosForSizes_app in Hs as (news & -> & Hnews).
  split; [exact Hnews|].
  intros sz ta Hin. apply validPairs_elem in Hin as (Hsz & Hta & Hv).
  apply cartesianProduct_replicate_elem in Hta as [Hlta Hta].
  assert (Hnn : Forall (fun ab : twinAssignment => 0 <= fst ab /\ 0 <= snd ab)
                  ta).
  { eapply Forall_impl; [|exact Hta].
    intros ab Hab. apply (generateTwinPartitionPairs_nonneg k), Hab. }
  split; [lia|]. split; [exact Hnn|].
  destruct (sizeTails_ok (Z.to_nat k) 255 (replicas + numTwins) ltac:(lia))
    as [Hok _].
  destruct (Hok sz Hsz) as (Hlsz & Hsum & _ & Hrange & _).
  destruct (buildPartitions_ok k sz ta twins nodes)
    as (parts & Hb & _ & Hm & Hp); try assumption.
  - lia.
  - unfold twins, nodes.
    replace (2 * numTwins + 1) with (2 * Z.of_nat (Z.to_nat numTwins) + 1)
      by lia.
    apply roster_NoDup.
  - lia.
  - exists parts. auto.
Qed.

Lemma leaderCross_NoDup (scenarios : list (list NodeSet)) (ids : list Z) :
  NoDup scenarios -> NoDup ids -> NoDup (leaderCross scenarios ids).
Proof.
  intros Hs Hi. unfold leaderCross. apply flat_map_NoDup; [| |exact Hs].
  - intros p1 p2 v _ _ H1 H2.
    apply list_elem_of_fmap in H1 as (i1 & -> & _).
    apply list_elem_of_fmap in H2 as (i2 & [= _ ->] & _). reflexivity.
  - intros p _. apply NoDup_fmap_2; [intros a b [= ->]; reflexivity|exact Hi].
Qed.

(** X16: for a legal configuration whose roster fits a [uint8] no view spec
    is listed twice: two entries of the list differ in their leader or in
    their partition scenario. *)
Theorem NewGenerator_distinct (fuel : nat) (replicas numTwins k r : Z) :
  1 <= numTwins <= replicas -> replicas + numTwins <= 255 -> 1 <= k <= 255 ->
  (257 * Z.to_nat k <= fuel)%nat ->
  exists g,
    NewGenerator fuel replicas numTwins k r = Ret g /\
    NoDup (leadersPartitions g).
Proof.
  intros Ht Hn Hk Hfuel.
  destruct (genPartitionScenarios_pairs fuel replicas numTwins k Ht Hn Hk
              Hfuel) as (scenarios & Hs & Hall & Hpre).
  destruct (assignIDs_legal replicas numTwins) as (Htw & Hnd & Hids); [lia..|].
  unfold NewGenerator. rewrite Htw, Hnd, Hids, Hs. cbn [mbind result_bind].
  eexists. split; [reflexivity|]. cbn [leadersPartitions].
  apply leaderCross_NoDup; [|apply NoDup_seqZ].
  eapply Forall2_NoDup; [exact Hall| |].
  - apply validPairs_NoDup.
    + apply sizeTails_ok. lia.
    + apply cartesianProduct_NoDup, Forall_replicate,
        generateTwinPartitionPairs_NoDup.
  - intros [sz1 ta1] [sz2 ta2] parts H1 H2 Hb1 Hb2. simpl in Hb1, Hb2.
    destruct (Hpre sz1 ta1 H1) as (Hl1 & Hn1 & p1 & Hp1 & Hm1 & Hpart).
    destruct (Hpre sz2 ta2 H2) as (Hl2 & Hn2 & p2 & Hp2 & Hm2 & _).
    rewrite Hb1 in Hp1. injection Hp1 as <-.
    rewrite Hb2 in Hp2. injection Hp2 as <-.
    destruct (buildPartitions_inj k _ _ sz1 sz2 ta1 ta2 parts Hpart Hm1 Hm2
                Hl1 Hl2 Hn1 Hn2 Hb1 Hb2) as [-> ->].
    reflexivity.
Qed.

Lemma NewGenerator_distinct_witness :
  exists g,
    NewGenerator 600 4 1 2 1 = Ret g /\ NoDup (leadersPartitions g).
Proof.
  apply (NewGenerator_distinct 600 4 1 2 1).
  - lia.
  - lia.
  - lia.
  - vm_compute. lia.
Defined.

(** X17: for a legal configuration whose roster fits a [uint8] nothing
    feasible is left out: for every size vector returned by
    [genPartitionSizes], every twin assignment of the product that passes
    the capacity test for it and every replica, the scenario built for the
    pair is in the list of view specs with that replica as leader. *)
Theorem NewGenerator_complete (fuel : nat) (replicas numTwins k r : Z)
    (sizes : list (list Z)) (sz : list Z) (ta : list twinAssignment)
    (leader : Z) :
  1 <= numTwins <= replicas -> replicas + numTwins <= 255 -> 1 <= k <= 255 ->
  (257 * Z.to_nat k <= fuel)%nat ->
  genPartitionSizes fuel (replicas + numTwins) k 1 = Ret sizes ->
  sz ∈ sizes ->
  ta ∈ cartesianProduct
         (replicate (Z.to_nat numTwins) (generateTwinPartitionPairs k)) ->
  isValidTwinAssignment ta sz = true ->
  1 <= leader <= replicas ->
  exists g parts,
    NewGenerator fuel replicas numTwins k r = Ret g /\
    buildPartitions k sz ta (st_twins (assignIDs replicas numTwins))
      (st_nodes (assignIDs replicas numTwins)) = Ret parts /\
    mkView leader parts ∈ leadersPartitions g.
Proof.
  intros Ht Hn Hk Hfuel Hsizes Hsz Hta Hv Hl.
  rewrite genPartitionSizes_Ret in Hsizes by (lia || assumption).
  injection Hsizes as <-.
  destruct (genPartitionScenarios_pairs fuel replicas numTwins k Ht Hn Hk
              Hfuel) as (scenarios & Hs & Hall & Hpre).
  destruct (assignIDs_legal replicas numTwins) as (Htw & Hnd & Hids); [lia..|].
  assert (Hin : (sz, ta) ∈ validPairs
            (sizeTails (Z.to_nat k) 255 (replicas + numTwins))
            (cartesianProduct
               (replicate (Z.to_nat numTwins)
                  (generateTwinPartitionPairs k))))
    by (apply validPairs_elem; auto).
  apply list_elem_of_lookup in Hin as [i Hi].
  destruct (Forall2_lookup_l _ _ _ _ _ Hall Hi) as (parts & Hparts & Hb).
  simpl in Hb.
  unfold NewGenerator. rewrite Htw, Hnd, Hids, Hs. cbn [mbind result_bind].
  eexists _, parts. split; [reflexivity|].
  split; [exact Hb|]. cbn [leadersPartitions]. unfold leaderCross.
  apply flat_map_elem. exists parts.
  split; [eapply list_elem_of_lookup_2; exact Hparts|].
  apply list_elem_of_fmap. exists leader. split; [reflexivity|].
  apply elem_of_seqZ. lia.
Qed.

Lemma NewGenerator_complete_witness :
  exists g parts,
    NewGenerator 600 4 1 2 1 = Ret g /\
    buildPartitions 2 [3; 2] [(0, 1)] (st_twins (assignIDs 4 1))
      (st_nodes (assignIDs 4 1)) = Ret parts /\
    mkView 3 parts ∈ leadersPartitions g.
Proof.
  apply (NewGenerator_complete 600 4 1 2 1 [[5; 0]; [4; 1]; [3; 2]]
           [3; 2] [(0, 1)] 3).
  - lia.
  - lia.
  - lia.
  - vm_compute. lia.
  - vm_compute. reflexivity.
  - right. right. left.
  - vm_compute. right. left.
  - reflexivity.
  - lia.
Defined.

(** ** No scenario is handed out twice *)

Lemma drain_fuel_mono (fuel : nat) :
  forall (g : Generator) (r : list Scenario * Generator) (fuel' : nat),
  drain fuel g = Ret r -> (fuel <= fuel')%nat -> drain fuel' g = Ret r.
Proof.
  induction fuel as [|fuel IH]; intros g r fuel' H Hle; [discriminate|].
  destruct fuel' as [|fuel']; [lia|].
  cbn [drain] in *. destruct (NextScenario g) as [[g1 [s ok]]| |];
    [|discriminate..].
  cbn [mbind result_bind] in *. destruct ok; [|exact H].
  bind_inv H as [ss g2] Hd.
  rewrite (IH g1 (ss, g2) fuel' Hd ltac:(lia)). exact H.
Qed.

(** The scenarios drained from a well-formed state are as many as the
    numerals left. *)
Lemma drain_length (len : Z) (count fuel : nat) (g g' : Generator)
    (ss : list Scenario) :
  1 <= len < 4611686018427387904 -> (1 <= count)%nat ->
  iterating len count g -> drain fuel g = Ret (ss, g') ->
  Z.of_nat (length ss) = len ^ Z.of_nat count - 1 - valIdx len (indices g).
Proof.
  intros Hlen Hcount Hit Hd.
  pose proof Hit as (_ & _ & Hil & Hir & _).
  pose proof (valIdx_bound len (indices g) ltac:(lia) Hir) as Hb.
  rewrite Hil in Hb.
  destruct (drain_count len count Hlen Hcount
              (Z.to_nat (len ^ Z.of_nat count - 1 - valIdx len (indices g)))
              g Hit ltac:(lia)) as (ss' & g'' & Hd' & Hl & _).
  set (n := Z.to_nat (len ^ Z.of_nat count - 1 - valIdx len (indices g))) in *.
  pose proof (drain_fuel_mono fuel g _ (fuel + S n) Hd ltac:(lia)) as H1.
  rewrite (Hd' (fuel + S n)%nat ltac:(lia)) in H1.
  injection H1 as -> _. lia.
Qed.

(** A numeral below [len ^ count] is determined by its [count] digits. *)
Lemma digits_inj (len : Z) (count : nat) : forall v1 v2 : Z,
  1 <= len ->
  0 <= v1 < len ^ Z.of_nat count -> 0 <= v2 < len ^ Z.of_nat count ->
  (forall i : nat, (i < count)%nat ->
     (v1 / len ^ (Z.of_nat count - 1 - Z.of_nat i)) mod len
     = (v2 / len ^ (Z.of_nat count - 1 - Z.of_nat i)) mod len) ->
  v1 = v2.
Proof.
  induction count as [|c IH]; intros v1 v2 Hlen H1 H2 Hd.
  - simpl in H1, H2. lia.
  - replace (Z.of_nat (S c)) with (Z.succ (Z.of_nat c)) in * by lia.
    rewrite Z.pow_succ_r in H1, H2 by lia.
    assert (Hlast : v1 mod len = v2 mod len).
    { specialize (Hd c ltac:(lia)).
      replace (Z.succ (Z.of_nat c) - 1 - Z.of_nat c) with 0 in Hd by lia.
      rewrite Z.pow_0_r, !Z.div_1_r in Hd. exact Hd. }
    assert (Hrest : v1 / len = v2 / len).
    { apply IH; [exact Hlen| | |].
      - split; [apply Z.div_pos; lia|].
        apply Z.div_lt_upper_bound; lia.
      - split; [apply Z.div_pos; lia|].
        apply Z.div_lt_upper_bound; lia.
      - intros i Hi. specialize (Hd i ltac:(lia)).
        replace (Z.succ (Z.of_nat c) - 1 - Z.of_nat i)
          with (Z.succ (Z.of_nat c - 1 - Z.of_nat i)) in Hd by lia.
        rewrite Z.pow_succ_r in Hd by lia.
        rewrite <- !Z.div_div in Hd by (try apply Z.pow_pos_nonneg; lia).
        exact Hd. }
    rewrite (Z.div_mod v1 len), (Z.div_mod v2 len) by lia.
    rewrite Hlast, Hrest. reflexivity.
Qed.

Lemma shifted_mod_inj (len d1 d2 off : Z) :
  0 <= d1 < len -> 0 <= d2 < len -> 0 <= off < len ->
  (d1 + off) mod len = (d2 + off) mod len -> d1 = d2.
Proof.
  intros H1 H2 Ho H.
  assert (Hm : forall x, 0 <= x < 2 * len ->
            x mod len = if x <? len then x else x - len).
  { intros x Hx. destruct (Z.ltb_spec x len).
    - apply Z.mod_small. lia.
    - replace x with ((x - len) + 1 * len) at 1 by lia.
      rewrite Z.mod_add by lia. apply Z.mod_small. lia. }
  rewrite !Hm in H by lia.
  destruct (Z.ltb_spec (d1 + off) len), (Z.ltb_spec (d2 + off) len); lia.
Qed.

(** X18: over a list of view specs without repetition the iterator never
    hands out the same scenario twice: the scenarios drained from a
    well-formed state, shuffled or not, are pairwise different. *)
Theorem drain_distinct (len : Z) (count fuel : nat) (g g' : Generator)
    (ss : list Scenario) :
  1 <= len < 4611686018427387904 -> (1 <= count)%nat ->
  iterating len count g -> NoDup (leadersPartitions g) ->
  drain fuel g = Ret (ss, g') ->
  NoDup ss.
Proof.
  intros Hlen Hcount Hit Hnd Hd. apply NoDup_alt. intros j1 j2 s Hj1 Hj2.
  pose proof (drain_length len count fuel g g' ss Hlen Hcount Hit Hd) as Hl.
  pose proof Hit as (_ & Hll & Hil & Hir & Hol & Hor).
  pose proof (valIdx_bound len (indices g) ltac:(lia) Hir) as Hb.
  rewrite Hil in Hb.
  pose proof (lookup_lt_Some _ _ _ Hj1) as Hlt1.
  pose proof (lookup_lt_Some _ _ _ Hj2) as Hlt2.
  assert (Hv : valIdx len (indices g) + Z.of_nat j1
               = valIdx len (indices g) + Z.of_nat j2); [|lia].
  apply (digits_inj len count); try lia.
  intros i Hi.
  destruct (lookup_lt_is_Some_2 (offsets g) i ltac:(lia)) as [off Ho].
  pose proof (in_range_lookup _ _ _ _ Hor Ho) as Hoff.
  destruct (drain_views len count Hlen Hcount fuel g g' ss Hit Hd j1 i s off
              Hj1 Ho) as [_ Hv1].
  destruct (drain_views len count Hlen Hcount fuel g g' ss Hit Hd j2 i s off
              Hj2 Ho) as [_ Hv2].
  rewrite Hv1 in Hv2.
  set (d1 := ((valIdx len (indices g) + Z.of_nat j1)
              / len ^ (Z.of_nat count - 1 - Z.of_nat i)) mod len) in *.
  set (d2 := ((valIdx len (indices g) + Z.of_nat j2)
              / len ^ (Z.of_nat count - 1 - Z.of_nat i)) mod len) in *.
  assert (Hd1 : 0 <= d1 < len) by (apply Z.mod_pos_bound; lia).
  assert (Hd2 : 0 <= d2 < len) by (apply Z.mod_pos_bound; lia).
  pose proof (Z.mod_pos_bound (d1 + off) len ltac:(lia)) as Hp1.
  pose proof (Z.mod_pos_bound (d2 + off) len ltac:(lia)) as Hp2.
  destruct (lookup_lt_is_Some_2 (leadersPartitions g)
              (Z.to_nat ((d1 + off) mod len)) ltac:(lia)) as [v Hv].
  rewrite Hv in Hv2. symmetry in Hv2.
  pose proof (NoDup_lookup _ _ _ _ Hnd Hv Hv2) as Heq.
  apply (shifted_mod_inj len d1 d2 off); try assumption. lia.
Qed.

Lemma drain_distinct_witness :
  exists g g' ss,
    NewGenerator 600 2 1 2 2 = Ret g /\
    drain 40 g = Ret (ss, g') /\
    length ss = 35%nat /\
    NoDup ss.
Proof.
  destruct run_six_views as (g & E & Hl).
  destruct (six_views_iterating g E Hl) as [Hit Hfresh].
  destruct (drain_count 6 2 ltac:(lia) ltac:(lia) 35 g Hit)
    as (ss & g' & Hd & Hlen & _).
  { rewrite Hfresh. vm_compute. reflexivity. }
  specialize (Hd 40%nat ltac:(lia)).
  assert (Hc : (g ← NewGenerator 600 2 1 2 2;
                Ret (bool_decide (NoDup (leadersPartitions g)))) = Ret true)
    by by_evaluation.
  bind_inv Hc as g0 E0. injection Hc as Hc.
  rewrite E in E0. injection E0 as <-.
  apply bool_decide_eq_true in Hc.
  exists g, g', ss. split; [exact E|]. split; [exact Hd|].
  split; [exact Hlen|].
  apply (drain_distinct 6 2 40 g g' ss); try assumption; lia.
Defined.

(** ** A single partition *)

Lemma cartesianProduct_replicate_singleton (v : twinAssignment) (t : nat) :
  cartesianProduct (replicate t [v]) = [replicate t v].
Proof.
  induction t as [|t IH]; [reflexivity|].
  cbn [replicate cartesianProduct]. rewrite IH. reflexivity.
Qed.

Lemma sizeTails_one (n : Z) :
  0 <= n <= 255 -> sizeTails 1 255 n = [[n]].
Proof.
  intros Hn. cbn [sizeTails].
  destruct (Z.leb_spec n 255) as [_|]; [|lia].
  cbn [replicate app]. f_equal. apply flat_map_nil_body.
Qed.

(** X19: with [partitions = 1] and a legal configuration whose roster fits
    a [uint8] there is one partition scenario only, the single partition
    holding the whole roster, and the list of view specs is that scenario
    led by replica 1, 2, ..., [replicas] in turn. *)
Theorem NewGenerator_single_partition (fuel : nat) (replicas numTwins r : Z) :
  1 <= numTwins <= replicas -> replicas + numTwins <= 255 ->
  (257 <= fuel)%nat ->
  exists g p,
    NewGenerator fuel replicas numTwins 1 r = Ret g /\
    leadersPartitions g = map (fun id => mkView id [p]) (seqZ 1 replicas) /\
    forall x, x ∈ NodeSet_members p <-> x ∈ allNodes g.
Proof.
  intros Ht Hn Hfuel.
  destruct (genPartitionScenarios_pairs fuel replicas numTwins 1 Ht Hn
              ltac:(lia) ltac:(simpl; lia)) as (scenarios & Hs & Hall & Hpre).
  assert (Hv : isValidTwinAssignment
                 (@replicate twinAssignment (Z.to_nat numTwins) (0, 0))
                 [replicas + numTwins] = true)
    by (apply (isValidLoop_first_slot _ _ []); lia).
  assert (Hvp : validPairs (sizeTails (Z.to_nat 1) 255 (replicas + numTwins))
                  (cartesianProduct
                     (replicate (Z.to_nat numTwins)
                        (generateTwinPartitionPairs 1)))
                = [([replicas + numTwins],
                    replicate (Z.to_nat numTwins) (0, 0))]).
  { change (Z.to_nat 1) with 1%nat. rewrite sizeTails_one by lia.
    change (generateTwinPartitionPairs 1) with [(0, 0)].
    rewrite cartesianProduct_replicate_singleton.
    unfold validPairs. cbn [flat_map List.filter]. rewrite Hv. reflexivity. }
  rewrite Hvp in Hall.
  destruct (Hpre [replicas + numTwins] (replicate (Z.to_nat numTwins) (0, 0)))
    as (_ & _ & parts & Hb & Hm & Hpart); [rewrite Hvp; left|].
  inversion Hall as [|? parts' ? rest Hb' Hrest]; subst.
  inversion Hrest; subst. simpl in Hb'.
  rewrite Hb in Hb'. injection Hb' as <-.
  unfold sizes_match in Hm.
  destruct parts as [|p [|q parts]]; try discriminate.
  destruct (assignIDs_legal replicas numTwins) as (Htw & Hnd & Hids); [lia..|].
  unfold NewGenerator. rewrite Htw, Hnd, Hids, Hs. cbn [mbind result_bind].
  eexists _, p. split; [reflexivity|].
  cbn [leadersPartitions allNodes leaderCross flat_map].
  split; [apply app_nil_r|].
  intros x. destruct Hpart as [_ Hcov]. rewrite Hcov. split.
  - intros Hx. exists 0%nat, p. split; [reflexivity|exact Hx].
  - intros ([|i] & q & Hq & Hx); [|destruct i; discriminate].
    injection Hq as <-. exact Hx.
Qed.

Lemma NewGenerator_single_partition_witness :
  exists g p,
    NewGenerator 600 4 1 1 2 = Ret g /\
    leadersPartitions g = map (fun id => mkView id [p]) (seqZ 1 4) /\
    forall x, x ∈ NodeSet_members p <-> x ∈ allNodes g.
Proof.
  apply (NewGenerator_single_partition 600 4 1 2); lia.
Defined.

(** ** The size enumeration with [minSize = 0] *)

(** Inside the slice the recursion never indexes out of range. *)
Lemma genPartitionSizes_no_panic (fuel : nat) :
  (forall (i n minSize : Z) (state : list Z) (sizes : list (list Z)),
     0 <= i < Z.of_nat (length state) -> (length state <= 255)%nat ->
     genPartitionSizesRecursive fuel i n minSize state sizes <> Panic) /\
  (forall (i n minSize m : Z) (s : list Z) (sizes : list (list Z)),
     0 <= i -> i + 1 < Z.of_nat (length s) -> (length s <= 255)%nat ->
     genPartitionSizesLoop fuel i n minSize m s sizes <> Panic).
Proof.
  induction fuel as [|fuel [IHr IHl]]; [split; intros; discriminate|].
  split.
  - intros i n minSize state sizes Hi Hlen.
    cbn [genPartitionSizesRecursive].
    rewrite store_in_range by lia. cbn [mbind result_bind].
    assert (Hprev : exists prev,
              (if i =? 0 then Ret 0
               else index (<[Z.to_nat i := n]> state) (i - 1)) = Ret prev).
    { destruct (Z.eqb_spec i 0); [eauto|].
      destruct (lookup_lt_is_Some_2 (<[Z.to_nat i := n]> state)
                  (Z.to_nat (i - 1))) as [prev Hp].
      { rewrite length_insert. lia. }
      exists prev. apply index_Ret. split; [lia|exact Hp]. }
    destruct Hprev as (prev & ->). cbn [mbind result_bind].
    rewrite length_insert, (wrap8_small (i + 1)) by lia.
    destruct (Z.ltb_spec (i + 1) (Z.of_nat (length state))); [|discriminate].
    apply IHl; rewrite ?length_insert; lia.
  - intros i n minSize m s sizes Hi Hi1 Hlen.
    cbn [genPartitionSizesLoop].
    destruct (((i =? 0) && (minSize <=? m)) || (negb (i =? 0) && (0 <? m)));
      [|discriminate].
    rewrite store_in_range by lia. cbn [mbind result_bind].
    rewrite (wrap8_small (i + 1)) by lia.
    destruct (genPartitionSizesRecursive fuel (i + 1) (wrap8 (n - m)) minSize
                (<[Z.to_nat i := m]> s) sizes) as [sizes'| |] eqn:E.
    + cbn [mbind result_bind]. apply IHl; rewrite ?length_insert; lia.
    + exfalso. revert E. apply IHr; rewrite ?length_insert; lia.
    + discriminate.
Qed.

(** With [minSize = 0] the test [m >= minSize] of the outermost loop holds
    for every [uint8]: the loop has no way out. *)
Lemma genPartitionSizesLoop_no_exit (fuel : nat) :
  forall (n m : Z) (s : list Z) (sizes sizes' : list (list Z)),
  0 <= m ->
  genPartitionSizesLoop fuel 0 n 0 m s sizes <> Ret sizes'.
Proof.
  induction fuel as [|fuel IH]; intros n m s sizes sizes' Hm; [discriminate|].
  cbn [genPartitionSizesLoop]. change (0 =? 0) with true.
  cbn [andb negb orb].
  destruct (Z.leb_spec 0 m) as [_|]; [|lia].
  destruct (store s 0 m) as [s'| |]; [|discriminate..].
  cbn [mbind result_bind].
  destruct (genPartitionSizesRecursive fuel (wrap8 (0 + 1)) (wrap8 (n - m))
              0 s' sizes) as [sz1| |]; [|discriminate..].
  cbn [mbind result_bind]. apply IH. apply wrap8_range.
Qed.

(** X20: with [minSize = 0] and at least two partitions the enumerator does
    not terminate: the test [m >= minSize] of the outermost loop holds for
    every [uint8], so [m--] wraps from 0 to 255 and the loop goes on; no
    amount of fuel gives a result, and there is no panic either. *)
Theorem genPartitionSizes_minSize_zero (fuel : nat) (n k : Z) :
  2 <= k <= 255 -> genPartitionSizes fuel n k 0 = OutOfFuel.
Proof.
  intros Hk. unfold genPartitionSizes.
  destruct fuel as [|fuel]; [reflexivity|].
  destruct (genPartitionSizesRecursive (S fuel) 0 n 0
              (replicate (Z.to_nat k) 0) []) as [sizes| |] eqn:E;
    [| |reflexivity].
  - exfalso. cbn [genPartitionSizesRecursive] in E.
    rewrite store_in_range in E by (rewrite ?length_replicate; lia).
    change (0 =? 0) with true in E. cbn [mbind result_bind orb] in E.
    rewrite length_insert, length_replicate in E.
    change (wrap8 (0 + 1)) with 1 in E.
    destruct (Z.ltb_spec 1 (Z.of_nat (Z.to_nat k))); [|lia].
    change (0 <? 0) with false in E. cbv iota in E.
    revert E. apply genPartitionSizesLoop_no_exit, wrap8_range.
  - exfalso. revert E. apply genPartitionSizes_no_panic;
      rewrite length_replicate; lia.
Qed.

Lemma genPartitionSizes_minSize_zero_witness :
  genPartitionSizes 1000 3 2 0 = OutOfFuel.
Proof. apply (genPartitionSizes_minSize_zero 1000 3 2). lia. Defined.

(** ** A roster that does not fit a [uint8] *)

(** X21: when [replicas + numTwins] is 257 or more, the node count
    [uint8(len(twins) + len(nodes))] wraps to fewer nodes than there are
    twins, no twin assignment passes the capacity test for any size vector,
    and the constructor returns a generator with the full roster and an
    empty list of view specs. *)
Theorem NewGenerator_roster_overflow (fuel : nat) (replicas numTwins k r : Z) :
  1 <= numTwins <= replicas -> replicas <= 255 ->
  257 <= replicas + numTwins -> 1 <= k <= 255 ->
  (257 * Z.to_nat k <= fuel)%nat ->
  exists g,
    NewGenerator fuel replicas numTwins k r = Ret g /\
    Z.of_nat (length (allNodes g)) = replicas + numTwins /\
    leadersPartitions g = [].
Proof.
  intros Ht Hr Hn Hk Hfuel.
  destruct (genPartitionScenarios_ok fuel replicas numTwins k Ht Hr Hk Hfuel)
    as (sizes & scenarios & Hsizes & Hs & _).
  destruct (assignIDs_legal replicas numTwins) as (Htw & Hnd & Hids); [lia..|].
  unfold NewGenerator. rewrite Htw, Hnd, Hids, Hs. cbn [mbind result_bind].
  eexists. split; [reflexivity|]. cbn [allNodes leadersPartitions].
  split.
  { rewrite length_app, twinRoster_length, plainRoster_length. lia. }
  assert (Hw : wrap8 (replicas + numTwins) = replicas + numTwins - 256).
  { unfold wrap8.
    replace (replicas + numTwins)
      with ((replicas + numTwins - 256) + 1 * 256) at 1 by lia.
    rewrite Z.mod_add by lia. apply Z.mod_small. lia. }
  rewrite genPartitionSizes_Ret in Hsizes by (rewrite ?Hw; lia).
  injection Hsizes as <-.
  unfold genPartitionScenarios in Hs. cbv zeta in Hs.
  rewrite twinRoster_length, plainRoster_length in Hs.
  replace (Z.of_nat (2 * Z.to_nat numTwins + Z.to_nat (replicas - numTwins)))
    with (replicas + numTwins) in Hs by lia.
  rewrite twinAssignmentsOf_twinRoster in Hs by lia.
  rewrite genPartitionSizes_Ret in Hs by (rewrite ?Hw; lia).
  cbn [mbind result_bind] in Hs.
  apply scenariosForSizes_app in Hs as (news & -> & Hnews).
  assert (Hempty : validPairs
            (sizeTails (Z.to_nat k) 255 (wrap8 (replicas + numTwins)))
            (cartesianProduct
               (replicate (Z.to_nat numTwins)
                  (generateTwinPartitionPairs k))) = []).
  { destruct (validPairs _ _) as [|[sz ta] rest] eqn:E; [reflexivity|].
    exfalso.
    assert (Hin : (sz, ta) ∈ validPairs
              (sizeTails (Z.to_nat k) 255 (wrap8 (replicas + numTwins)))
              (cartesianProduct
                 (replicate (Z.to_nat numTwins)
                    (generateTwinPartitionPairs k))))
      by (rewrite E; left).
    apply validPairs_elem in Hin as (Hsz & Hta & Hv).
    apply cartesianProduct_replicate_elem in Hta as [Hlta _].
    destruct (sizeTails_ok (Z.to_nat k) 255 (wrap8 (replicas + numTwins))
                ltac:(rewrite Hw; lia)) as [Hok _].
    destruct (Hok sz Hsz) as (_ & Hsum & _ & Hrange & _).
    assert (Hcap : 2 * Z.of_nat (length ta) <= sumZ sz).
    { apply (isValidLoop_capacity (length sz)); [|exact Hv].
      apply Forall_forall. intros c Hc. apply Hrange, list_elem_of_In, Hc. }
    lia. }
  rewrite Hempty in Hnews. inversion Hnews. reflexivity.
Qed.

Lemma NewGenerator_roster_overflow_witness :
  exists g,
    NewGenerator 600 200 100 1 1 = Ret g /\
    Z.of_nat (length (allNodes g)) = 200 + 100 /\
    leadersPartitions g = [].
Proof.
  apply (NewGenerator_roster_overflow 600 200 100 1 1).
  - lia.
  - lia.
  - lia.
  - lia.
  - vm_compute. lia.
Defined.

(** ** The scenarios built and handed out *)

Lemma Forall2_impl_elem {A B : Type} (P Q : A -> B -> Prop) (l1 : list A)
    (l2 : list B) :
  Forall2 P l1 l2 -> (forall x y, x ∈ l1 -> P x y -> Q x y) ->
  Forall2 Q l1 l2.
Proof.
  induction 1 as [|x y l1 l2 Hxy Hall IH]; intros HPQ; constructor.
  - apply HPQ; [left|exact Hxy].
  - apply IH. intros x' y' Hx'. apply HPQ. right. exact Hx'.
Qed.

(** A legal configuration: the scenarios listed are the ones built for the
    feasible pairs, pair by pair; this covers the rosters of more than 255
    nodes, for which the node count wraps. *)
Lemma genPartitionScenarios_built (fuel : nat) (replicas numTwins k : Z) :
  1 <= numTwins <= replicas -> replicas <= 255 -> 1 <= k <= 255 ->
  (257 * Z.to_nat k <= fuel)%nat ->
  exists scenarios,
    genPartitionScenarios fuel
      (twinRoster (Z.to_nat numTwins) 1 1)
      (plainRoster (Z.to_nat (replicas - numTwins))
         (numTwins + 1) (2 * numTwins + 1)) k 1 = Ret scenarios /\
    Forall2
      (built_from k (twinRoster (Z.to_nat numTwins) 1 1)
         (plainRoster (Z.to_nat (replicas - numTwins))
            (numTwins + 1) (2 * numTwins + 1)))
      (validPairs (sizeTails (Z.to_nat k) 255 (wrap8 (replicas + numTwins)))
         (cartesianProduct
            (replicate (Z.to_nat numTwins) (generateTwinPartitionPairs k))))
      scenarios.
Proof.
  intros Ht Hr Hk Hfuel.
  set (twins := twinRoster (Z.to_nat numTwins) 1 1).
  set (nodes := plainRoster (Z.to_nat (replicas - numTwins))
                  (numTwins + 1) (2 * numTwins + 1)).
  set (sizes := sizeTails (Z.to_nat k) 255 (wrap8 (replicas + numTwins))).
  set (tas := cartesianProduct
                (replicate (Z.to_nat numTwins) (generateTwinPartitionPairs k))).
  assert (Hlt : length twins = (2 * Z.to_nat numTwins)%nat)
    by apply twinRoster_length.
  assert (Hln : length nodes = Z.to_nat (replicas - numTwins))
    by apply plainRoster_length.
  pose proof (wrap8_range (replicas + numTwins)) as Hw.
  destruct (genPartitionScenarios_ok fuel replicas numTwins k Ht Hr Hk Hfuel)
    as (sizes' & scenarios & _ & Hs & _).
  fold twins nodes in Hs.
  exists scenarios. split; [exact Hs|].
  unfold genPartitionScenarios in Hs. cbv zeta in Hs.
  rewrite Hlt, Hln in Hs.
  replace (Z.of_nat (2 * Z.to_nat numTwins + Z.to_nat (replicas - numTwins)))
    with (replicas + numTwins) in Hs by lia.
  unfold twins in Hs at 1.
  rewrite twinAssignmentsOf_twinRoster in Hs by lia.
  rewrite (genPartitionSizes_Ret fuel (wrap8 (replicas + numTwins)) k) in Hs
    by (lia || assumption).
  cbn [mbind result_bind] in Hs. fold sizes tas twins in Hs.
  apply scenariosForSizes_app in Hs as (news & -> & Hnews).
  eapply Forall2_impl_elem; [exact Hnews|].
  intros [sz ta] parts Hin Hb. simpl in Hb.
  apply validPairs_elem in Hin as (Hsz & Hta & Hv).
  apply cartesianProduct_replicate_elem in Hta as [Hlta Hta].
  destruct (sizeTails_top (Z.to_nat k) (wrap8 (replicas + numTwins)) sz
              ltac:(lia) Hsz) as (Hlsz & Hrange & Hsum).
  assert (Hcap : 2 * Z.of_nat (length ta) <= sumZ sz).
  { apply (isValidLoop_capacity (length sz)); [|exact Hv].
    apply Forall_forall. intros c Hc. apply Hrange, list_elem_of_In, Hc. }
  assert (Hsum' : sumZ sz = Z.of_nat (length twins + length nodes)).
  { unfold wrap8 in Hsum, Hw.
    pose proof (Z.div_mod (replicas + numTwins) 256 ltac:(lia)) as Hdm.
    assert (0 <= (replicas + numTwins) / 256 <= 1).
    { split; [apply Z.div_pos; lia|].
      apply Z.lt_succ_r, Z.div_lt_upper_bound; lia. }
    lia. }
  destruct (buildPartitions_ok k sz ta twins nodes)
    as (parts' & Hb' & _ & Hm & Hp); try assumption.
  - eapply Forall_impl; [|exact Hta].
    intros ab Hab. apply (generateTwinPartitionPairs_nonneg k), Hab.
  - lia.
  - unfold twins, nodes.
    replace (2 * numTwins + 1) with (2 * Z.of_nat (Z.to_nat numTwins) + 1)
      by lia.
    apply roster_NoDup.
  - rewrite Hb in Hb'. injection Hb' as <-.
    split; [exact Hb|]. split; assumption.
Qed.

(** The pair that puts every node and every twin into partition 0 is
    feasible whenever the roster fits a [uint8]. *)
Lemma validPairs_first (t : nat) (n k : Z) :
  2 * Z.of_nat t <= n <= 255 -> 1 <= k ->
  (n :: replicate (Z.to_nat k - 1) 0, replicate t (0, 0))
  ∈ validPairs (sizeTails (Z.to_nat k) 255 n)
      (cartesianProduct (replicate t (generateTwinPartitionPairs k))).
Proof.
  intros Hn Hk. apply validPairs_elem. split; [|split].
  - destruct (Z.to_nat k) as [|d] eqn:E; [lia|].
    cbn [sizeTails]. destruct (Z.leb_spec n 255); [|lia].
    simpl. rewrite Nat.sub_0_r. left.
  - apply cartesianProduct_replicate_diag.
    apply generateTwinPartitionPairs_elem. lia.
  - apply (isValidLoop_first_slot t n (replicate (Z.to_nat k - 1) 0)). lia.
Qed.

(** C7: for a legal configuration ([1 <= numTwins <= replicas],
    [partitions >= 1]) the constructor returns a generator whose partition
    scenarios are the ones built for the pairs of an enumerated size vector
    [sz] and a twin assignment that passes the capacity test, pair by pair:
    in the scenario of a pair slot [i] holds exactly [sz[i]] nodes, the
    slots are pairwise disjoint and their union is the roster; there is
    such a scenario whenever the roster fits a [uint8].  Every scenario
    that [NextScenario] hands out, after any calls of [NextScenario] and
    [Shuffle], carries the roster and views taken from that list, so the
    node sets of each of its views partition its nodes; and a fresh
    generator over at least two view specs does hand out a scenario. *)
Theorem scenarios_partition_roster (R : RandSource) (fuel : nat)
    (replicas numTwins k r : Z) :
  1 <= numTwins <= replicas -> replicas <= 255 -> 1 <= k <= 255 ->
  (257 * Z.to_nat k <= fuel)%nat ->
  exists g0 sizes scenarios,
    NewGenerator fuel replicas numTwins k r = Ret g0 /\
    genPartitionSizes fuel (wrap8 (replicas + numTwins)) k 1 = Ret sizes /\
    genPartitionScenarios fuel (st_twins (assignIDs replicas numTwins))
      (st_nodes (assignIDs replicas numTwins)) k 1 = Ret scenarios /\
    allNodes g0 = st_twins (assignIDs replicas numTwins)
                  ++ st_nodes (assignIDs replicas numTwins) /\
    leadersPartitions g0 = leaderCross scenarios (seqZ 1 replicas) /\
    Forall2
      (built_from k (st_twins (assignIDs replicas numTwins))
         (st_nodes (assignIDs replicas numTwins)))
      (validPairs sizes
         (cartesianProduct
            (replicate (Z.to_nat numTwins) (generateTwinPartitionPairs k))))
      scenarios /\
    (replicas + numTwins <= 255 -> (1 <= length scenarios)%nat) /\
    (forall g g' s,
       reachable R g0 g -> NextScenario g = Ret (g', (s, true)) ->
       Nodes s = allNodes g0 /\
       forall v, v ∈ Views s ->
         v ∈ leadersPartitions g0 /\
         is_partition_of (Nodes s) (PartitionScenario v)) /\
    (1 <= r <= 255 ->
     2 <= Z.of_nat (length (leadersPartitions g0)) < 4611686018427387904 ->
     exists g' s,
       NextScenario g0 = Ret (g', (s, true)) /\
       length (Views s) = Z.to_nat r).
Proof.
  intros Ht Hr Hk Hfuel.
  destruct (genPartitionScenarios_built fuel replicas numTwins k Ht Hr Hk
              Hfuel) as (scenarios & Hs & Hbuilt).
  destruct (assignIDs_legal replicas numTwins) as (Htw & Hnd & Hids); [lia..|].
  pose proof (wrap8_range (replicas + numTwins)) as Hw.
  assert (Hsizes : genPartitionSizes fuel (wrap8 (replicas + numTwins)) k 1
                   = Ret (sizeTails (Z.to_nat k) 255
                            (wrap8 (replicas + numTwins))))
    by (apply genPartitionSizes_Ret; lia || assumption).
  assert (Hg0 : NewGenerator fuel replicas numTwins k r
                = Ret (mkGenerator
                         (st_twins (assignIDs replicas numTwins)
                          ++ st_nodes (assignIDs replicas numTwins))
                         r k (replicate (Z.to_nat r) 0)
                         (replicate (Z.to_nat r) 0)
                         (leaderCross scenarios (seqZ 1 replicas)))).
  { unfold NewGenerator. rewrite Htw, Hnd, Hids, Hs. reflexivity. }
  rewrite Htw, Hnd in *.
  set (twins := twinRoster (Z.to_nat numTwins) 1 1) in *.
  set (nodes := plainRoster (Z.to_nat (replicas - numTwins))
                  (numTwins + 1) (2 * numTwins + 1)) in *.
  set (g0 := mkGenerator (twins ++ nodes) r k (replicate (Z.to_nat r) 0)
               (replicate (Z.to_nat r) 0)
               (leaderCross scenarios (seqZ 1 replicas))) in *.
  assert (Hparts : forall v, v ∈ leadersPartitions g0 ->
            is_partition_of (twins ++ nodes) (PartitionScenario v)).
  { intros v Hv. apply elem_of_leaderCross in Hv as [Hp _].
    apply list_elem_of_lookup in Hp as [i Hi].
    destruct (Forall2_lookup_r _ _ _ _ _ Hbuilt Hi) as (p & _ & _ & _ & Hpart).
    exact Hpart. }
  exists g0, (sizeTails (Z.to_nat k) 255 (wrap8 (replicas + numTwins))),
    scenarios.
  split; [exact Hg0|]. split; [exact Hsizes|]. split; [exact Hs|].
  split; [reflexivity|]. split; [reflexivity|]. split; [exact Hbuilt|].
  split; [|split].
  - intros Hfit. rewrite (wrap8_small (replicas + numTwins)) in Hbuilt by lia.
    pose proof (validPairs_first (Z.to_nat numTwins) (replicas + numTwins) k
                  ltac:(lia) ltac:(lia)) as Hin.
    apply list_elem_of_lookup in Hin as [i Hi].
    destruct (Forall2_lookup_l _ _ _ _ _ Hbuilt Hi) as (parts & Hp & _).
    apply lookup_lt_Some in Hp. lia.
  - intros g g' s Hreach Hnext.
    assert (H0 : length (indices g0) = Z.to_nat (rounds g0))
      by apply length_replicate.
    destruct (reachable_invariant R g0 g H0 Hreach) as (Ha & Hrg & Hlp & Hidx).
    destruct (NextScenario_Ret _ _ _ _ Hnext) as (_ & _ & _ & _ & _ & Hout).
    destruct (Hout eq_refl) as [Hn Hviews].
    rewrite Hn, Ha. split; [reflexivity|].
    intros v Hv.
    assert (Hlen : length (indices g) = Z.to_nat (rounds g)).
    { destruct Hidx as [Hidx|Hidx]; [rewrite Hrg; exact Hidx|].
      unfold NextScenario in Hnext. rewrite Hidx in Hnext. simpl in Hnext.
      rewrite Hidx.
      destruct (Z.to_nat (rounds g)) as [|c]; [reflexivity|].
      simpl in Hnext. rewrite index_nil in Hnext. discriminate. }
    assert (Hin : v ∈ leadersPartitions g0)
      by (apply Hlp, Hviews; assumption).
    split; [exact Hin|]. apply Hparts, Hin.
  - intros Hr1 Hlen.
    assert (Hit : iterating (Z.of_nat (length (leadersPartitions g0)))
                    (Z.to_nat r) g0).
    { unfold iterating. cbn [rounds indices offsets leadersPartitions g0].
      rewrite !length_replicate.
      split; [reflexivity|]. split; [reflexivity|].
      split; [reflexivity|].
      split; [apply Forall_replicate; cbn [leadersPartitions g0] in Hlen; lia|].
      split; [reflexivity|].
      apply Forall_replicate; cbn [leadersPartitions g0] in Hlen; lia. }
    assert (Hl1 : 1 <= Z.of_nat (length (leadersPartitions g0))
                  < 4611686018427387904) by lia.
    assert (Hc1 : (1 <= Z.to_nat r)%nat) by lia.
    destruct (NextScenario_step _ (Z.to_nat r) g0 Hl1 Hc1 Hit) as [Hstep _].
    destruct Hstep as (g' & s & Hn & _).
    { cbn [indices g0]. rewrite valIdx_zeros.
      assert (Z.of_nat (length (leadersPartitions g0)) ^ 1
              <= Z.of_nat (length (leadersPartitions g0))
                 ^ Z.of_nat (Z.to_nat r))
        by (apply Z.pow_le_mono_r; lia).
      lia. }
    exists g', s. split; [exact Hn|].
    destruct (NextScenario_selects _ _ g0 g' s Hl1 Hit Hn) as (_ & Hl & _).
    exact Hl.
Qed.

(** The run used as example: [NewGenerator(4, 1, 2, 1)], 24 view specs. *)
Lemma run_24_views :
  exists g,
    NewGenerator 600 4 1 2 1 = Ret g /\
    length (leadersPartitions g) = 24%nat.
Proof.
  assert (Hc : (g ← NewGenerator 600 4 1 2 1;
                Ret (length (leadersPartitions g))) = Ret 24%nat)
    by by_evaluation.
  bind_inv Hc as g E. injection Hc as Hc. eauto.
Qed.

Lemma scenarios_partition_roster_witness :
  exists g0 sizes scenarios g' s,
    NewGenerator 600 4 1 2 1 = Ret g0 /\
    genPartitionSizes 600 (wrap8 (4 + 1)) 2 1 = Ret sizes /\
    genPartitionScenarios 600 (st_twins (assignIDs 4 1))
      (st_nodes (assignIDs 4 1)) 2 1 = Ret scenarios /\
    allNodes g0 = st_twins (assignIDs 4 1) ++ st_nodes (assignIDs 4 1) /\
    leadersPartitions g0 = leaderCross scenarios (seqZ 1 4) /\
    Forall2
      (built_from 2 (st_twins (assignIDs 4 1)) (st_nodes (assignIDs 4 1)))
      (validPairs sizes
         (cartesianProduct
            (replicate (Z.to_nat 1) (generateTwinPartitionPairs 2))))
      scenarios /\
    (1 <= length scenarios)%nat /\
    (forall g g' s,
       reachable mathRand g0 g -> NextScenario g = Ret (g', (s, true)) ->
       Nodes s = allNodes g0 /\
       forall v, v ∈ Views s ->
         v ∈ leadersPartitions g0 /\
         is_partition_of (Nodes s) (PartitionScenario v)) /\
    NextScenario g0 = Ret (g', (s, true)) /\
    length (Views s) = 1%nat /\
    Nodes s = allNodes g0 /\
    forall v, v ∈ Views s ->
      v ∈ leadersPartitions g0 /\
      is_partition_of (Nodes s) (PartitionScenario v).
Proof.
  destruct (scenarios_partition_roster mathRand 600 4 1 2 1)
    as (g0 & sizes & scenarios & Hg0 & Hsizes & Hs & Ha & Hlp & Hbuilt
        & Hpos & Hemit & Hfirst).
  - lia.
  - lia.
  - lia.
  - vm_compute. lia.
  - destruct run_24_views as (g & E & Hl).
    rewrite Hg0 in E. injection E as <-.
    destruct Hfirst as (g' & s & Hn & Hv); [lia|rewrite Hl; lia|].
    destruct (Hemit g0 g' s (reach_start _ _) Hn) as [Hnodes Hviews].
    exists g0, sizes, scenarios, g', s.
    split; [exact Hg0|]. split; [exact Hsizes|]. split; [exact Hs|].
    split; [exact Ha|]. split; [exact Hlp|]. split; [exact Hbuilt|].
    split; [apply Hpos; lia|]. split; [exact Hemit|].
    split; [exact Hn|]. split; [exact Hv|]. split; [exact Hnodes|].
    exact Hviews.
Defined.
